(** * Kruskal simulator (Arbol_Max_Min.py): union-find and spanning trees

    A shallow embedding of [src/Arbol_Max_Min.py]: the [UnionFind] class
    (path compression, union by rank) and the [kruskal] function that
    builds a minimum or maximum cost spanning forest.

    Modelling choices.
    - Vertices are Python strings ([string]); weights are Python integers
      ([Z]), as in [grafo_ejemplo].  [kruskal] is also given on weights
      of any type that can be compared and added (module [Pesos]), with
      the floats of [grafo_manual] as an instance; on ints the two agree.
    - The two dictionaries of [UnionFind] are [gmap string _]; a missing
      key raises [KeyError], as [self.parent[x]] does.
    - [find] is recursive on the parent chain.  The embedding recurses on
      a depth budget of one more than the number of keys of [parent]; a
      chain that does not end within the budget (a cyclic chain) raises
      [RecursionError], as the interpreter does on unbounded recursion.
    - Console output is not modelled, except for the sequence of edges
      tried by the main loop, which is kept as a trace.  The calls to
      [find] made by [print_componentes] are kept: they compress paths.
      The order in which a Python set yields its elements is a parameter
      of the run; it is shown not to matter.
    - On ints [sorted] is an insertion sort, proved sorted, a permutation
      of its input and stable, which is all that determines the result of
      Python's [sorted] when [<] orders the keys.  On any weights
      ([Pesos.sorted]) it is the binary insertion sort that CPython runs,
      which also says what comes out when a key is nan. *)

From Stdlib Require Import Floats.
From stdpp Require Import gmap strings list fin_maps sorting.
From Stdlib Require Import ZArith Lia.

Open Scope string_scope.
Open Scope nat_scope.

Set Warnings "-clear-no-such-hyp,-register-all".

(** ** Exceptions *)

Inductive error := KeyError | RecursionError.

Inductive result (A : Type) : Type :=
| Ok (a : A)
| Raise (e : error).
Arguments Ok {A} a.
Arguments Raise {A} e.

Definition bind {A B} (m : result A) (k : A → result B) : result B :=
  match m with
  | Ok a => k a
  | Raise e => Raise e
  end.

#[global] Instance result_bind : MBind result := λ A B k m, bind m k.
#[global] Instance result_ret : MRet result := λ A a, Ok a.

(** [d[k]] on a Python dictionary. *)
Definition getitem {V} (d : gmap string V) (k : string) : result V :=
  match d !! k with
  | Some v => Ok v
  | None => Raise KeyError
  end.

(** ** class UnionFind *)

Record UnionFind := MkUF {
  parent : gmap string string;
  rank : gmap string nat
}.

(** [UnionFind.__init__]: every element is its own parent, with rank 0. *)
Definition UnionFind_init (elementos : gset string) : UnionFind :=
  {| parent := set_to_map (λ x, (x, x)) elementos;
     rank := gset_to_gmap 0 elementos |}.

(** [UnionFind.find], on the parent dictionary (the only one it touches).
    The recursive call is evaluated first, then [self.parent[x]] is
    assigned in the dictionary the call left behind, then read again. *)
Fixpoint find_rec (fuel : nat) (p : gmap string string) (x : string)
  : result (gmap string string * string) :=
  match fuel with
  | O => Raise RecursionError
  | S fuel' =>
      match p !! x with
      | None => Raise KeyError
      | Some px =>
          if decide (px ≠ x) then
            match find_rec fuel' p px with
            | Ok (p', r) => Ok (<[x := r]> p', r)
            | Raise e => Raise e
            end
          else Ok (p, px)
      end
  end.

Definition find (uf : UnionFind) (x : string) : result (UnionFind * string) :=
  match find_rec (S (size (parent uf))) (parent uf) x with
  | Ok (p', r) => Ok (MkUF p' (rank uf), r)
  | Raise e => Raise e
  end.

(** [UnionFind.union]. *)
Definition union (uf : UnionFind) (x y : string) : result (UnionFind * bool) :=
  '(uf1, rx) ← find uf x;
  '(uf2, ry) ← find uf1 y;
  if decide (rx = ry) then Ok (uf2, false)
  else
    krx ← getitem (rank uf2) rx;
    kry ← getitem (rank uf2) ry;
    if decide (krx < kry) then
      Ok (MkUF (<[rx := ry]> (parent uf2)) (rank uf2), true)
    else if decide (kry < krx) then
      Ok (MkUF (<[ry := rx]> (parent uf2)) (rank uf2), true)
    else
      Ok (MkUF (<[ry := rx]> (parent uf2)) (<[rx := krx + 1]> (rank uf2)), true).

(** ** kruskal *)

(** An edge is a tuple [(u, v, peso)]. *)
Abbreviation arista := (string * string * Z)%type.

Definition peso (e : arista) : Z := e.2.

(** [sorted(aristas, key=lambda x: x[2], reverse=...)]: a stable sort on
    the weight; with [reverse=True] the order of the keys is reversed and
    equal keys still keep their input order. *)
Definition key_le (reverse : bool) (a b : Z) : bool :=
  if reverse then (b <=? a)%Z else (a <=? b)%Z.

Fixpoint insertar (reverse : bool) (e : arista) (l : list arista) : list arista :=
  match l with
  | [] => [e]
  | y :: l' =>
      if key_le reverse (peso e) (peso y) then e :: y :: l'
      else y :: insertar reverse e l'
  end.

Definition sorted (aristas : list arista) (reverse : bool) : list arista :=
  foldr (insertar reverse) [] aristas.

(** [antes reverse a b]: the sort may leave [a] before [b]. *)
Definition antes (reverse : bool) (a b : arista) : Prop :=
  key_le reverse (peso a) (peso b) = true.

(** The set of vertices collected by the first loop of [kruskal]. *)
Definition nodos_de (aristas : list arista) : gset string :=
  foldl (λ nodos '(u, v, _), (nodos ∪ {[u]}) ∪ {[v]}) ∅ aristas.

(** [print_componentes]: one [find] per vertex; only the effect on the
    structure is kept.  A Python set yields its elements in an order that
    is not specified: [orden] is that order. *)
Fixpoint print_componentes_loop (uf : UnionFind) (ns : list string)
  : result UnionFind :=
  match ns with
  | [] => Ok uf
  | n :: ns' =>
      '(uf', _) ← find uf n;
      print_componentes_loop uf' ns'
  end.

Definition print_componentes (orden : gset string → list string)
    (uf : UnionFind) (nodos : gset string) : result UnionFind :=
  print_componentes_loop uf (orden nodos).

(** One line of the trace: the edge tried, the two roots found, and
    whether the edge was accepted. *)
Record evento := MkEvento {
  ev_arista : arista;
  ev_ru : string;
  ev_rv : string;
  ev_aceptada : bool
}.

(** The variables of the main loop. *)
Record estado := MkEstado {
  uf_de : UnionFind;
  arbol : list arista;
  coste_total : Z;
  traza : list evento
}.

(** The body of [for (u, v, w) in aristas_ordenadas]. *)
Definition paso (orden : gset string → list string) (nodos : gset string)
    (st : estado) (e : arista) : result estado :=
  let '(u, v, w) := e in
  '(uf1, ru) ← find (uf_de st) u;
  '(uf2, rv) ← find uf1 v;
  if decide (ru ≠ rv) then
    '(uf3, _) ← union uf2 u v;
    uf4 ← print_componentes orden uf3 nodos;
    Ok (MkEstado uf4 (arbol st ++ [(u, v, w)]) (coste_total st + w)
          (traza st ++ [MkEvento e ru rv true]))
  else
    uf4 ← print_componentes orden uf2 nodos;
    Ok (MkEstado uf4 (arbol st) (coste_total st)
          (traza st ++ [MkEvento e ru rv false])).

Fixpoint bucle (orden : gset string → list string) (nodos : gset string)
    (st : estado) (es : list arista) : result estado :=
  match es with
  | [] => Ok st
  | e :: es' =>
      st' ← paso orden nodos st e;
      bucle orden nodos st' es'
  end.

Definition aristas_ordenadas (aristas : list arista) (tipo : string) : list arista :=
  if decide (tipo = "min") then sorted aristas false else sorted aristas true.

(** [kruskal] up to the end of the main loop, when sets are visited in
    the order [orden]. *)
Definition kruskal_run_con (orden : gset string → list string)
    (aristas : list arista) (tipo : string) : result estado :=
  let nodos := nodos_de aristas in
  let uf := UnionFind_init nodos in
  uf0 ← print_componentes orden uf nodos;
  bucle orden nodos (MkEstado uf0 [] 0 []) (aristas_ordenadas aristas tipo).

(** [kruskal]: the returned pair [(arbol, coste_total)]. *)
Definition kruskal_con (orden : gset string → list string)
    (aristas : list arista) (tipo : string) : result (list arista * Z) :=
  st ← kruskal_run_con orden aristas tipo;
  Ok (arbol st, coste_total st).

(** The run with the order of [elements]; [kruskal_con_orden] below shows
    that the order makes no difference to what is tried, accepted and
    returned. *)
Definition kruskal_run (aristas : list arista) (tipo : string) : result estado :=
  kruskal_run_con elements aristas tipo.

Definition kruskal (aristas : list arista) (tipo : string)
  : result (list arista * Z) :=
  kruskal_con elements aristas tipo.

(** An order is admissible for a set when it yields elements of the set. *)
Definition orden_de (orden : gset string → list string) (V : gset string) : Prop :=
  ∀ x, x ∈ orden V → x ∈ V.

Definition grafo_ejemplo : list arista :=
  [ ("A", "B", 4%Z); ("A", "C", 2%Z); ("B", "C", 5%Z); ("B", "D", 10%Z);
    ("C", "D", 3%Z); ("C", "E", 4%Z); ("D", "E", 11%Z); ("D", "F", 2%Z);
    ("E", "F", 1%Z) ].


(** ** The input graph *)

(** [conn es x y]: [x] and [y] are joined by a walk along the edges of
    [es], read as undirected. *)
Inductive conn (es : list arista) : string → string → Prop :=
| conn_refl x : conn es x x
| conn_edge u v w : (u, v, w) ∈ es → conn es u v
| conn_sym x y : conn es x y → conn es y x
| conn_trans x y z : conn es x y → conn es y z → conn es x z.

(** The graph of the edge list, on the end points of its edges, is
    connected. *)
Definition conexo (aristas : list arista) : Prop :=
  ∀ x y, x ∈ nodos_de aristas → y ∈ nodos_de aristas → conn aristas x y.

(** ** Lists as objects of a store

    [kruskal] receives a reference to the list of the caller.  Here the
    lists live in a store, at addresses: [sorted] and [arbol = []] make
    new objects, [arbol.append] changes the object it is called on.  The
    main loop goes through the object [sorted] returned, which nothing
    writes to while the loop runs. *)
Abbreviation heap := (gmap nat (list arista)).

(** A new list object, at an address that is not in use. *)
Definition new_list (h : heap) (l : list arista) : heap * nat :=
  let a := fresh (dom h) in (<[a := l]> h, a).

(** [lista.append(e)] on the object at [a]. *)
Definition append (h : heap) (a : nat) (e : arista) : heap :=
  alter (λ l : list arista, (l ++ [e])%list) a h.

Definition paso_h (nodos : gset string) (a_arbol : nat)
    (s : heap * UnionFind * Z) (e : arista) : result (heap * UnionFind * Z) :=
  let '(h, uf, coste) := s in
  let '(u, v, w) := e in
  '(uf1, ru) ← find uf u;
  '(uf2, rv) ← find uf1 v;
  if decide (ru ≠ rv) then
    '(uf3, _) ← union uf2 u v;
    uf4 ← print_componentes elements uf3 nodos;
    Ok (append h a_arbol (u, v, w), uf4, (coste + w)%Z)
  else
    uf4 ← print_componentes elements uf2 nodos;
    Ok (h, uf4, coste).

Fixpoint bucle_h (nodos : gset string) (a_arbol : nat)
    (s : heap * UnionFind * Z) (es : list arista) : result (heap * UnionFind * Z) :=
  match es with
  | [] => Ok s
  | e :: es' =>
      s' ← paso_h nodos a_arbol s e;
      bucle_h nodos a_arbol s' es'
  end.

(** [kruskal] on the store: [a] is the address of the list passed in; the
    result is the final store, the address of [arbol] and the cost. *)
Definition kruskal_h (h : heap) (a : nat) (tipo : string) : result (heap * nat * Z) :=
  let aristas := h !!! a in
  let nodos := nodos_de aristas in
  let '(h1, a_ord) := new_list h (aristas_ordenadas aristas tipo) in
  let uf := UnionFind_init nodos in
  let '(h2, a_arbol) := new_list h1 [] in
  uf0 ← print_componentes elements uf nodos;
  '(h', _, coste) ← bucle_h nodos a_arbol (h2, uf0, 0%Z) (h2 !!! a_ord);
  Ok (h', a_arbol, coste).

(** ** The value returned to the caller

    The Python values that occur in what [kruskal] returns. *)
Inductive pyval :=
| PInt (z : Z)
| PStr (s : string)
| PBool (b : bool)
| PList (l : list pyval)
| PTuple (l : list pyval).

Definition py_arista (e : arista) : pyval :=
  PTuple [PStr e.1.1; PStr e.1.2; PInt e.2].

(** [return arbol, coste_total]. *)
Definition kruskal_return (aristas : list arista) (tipo : string) : result pyval :=
  '(arb, coste) ← kruskal aristas tipo;
  Ok (PTuple [PList (py_arista <$> arb); PInt coste]).

(** A returned tuple carries the flag [b] when one of its components is
    that boolean; it carries a label (such as "forest" or "tree") when one
    of its components is a string. *)
Definition lleva_bandera (ret : pyval) (b : bool) : Prop :=
  ∃ campos, ret = PTuple campos ∧ PBool b ∈ campos.

Definition lleva_etiqueta (ret : pyval) : Prop :=
  ∃ campos s, ret = PTuple campos ∧ PStr s ∈ campos.

Definition grafo_inconexo : list arista := [("A", "B", 1%Z); ("C", "D", 2%Z)].

(** ** Sequences of operations on a structure *)

Inductive operacion :=
| OpFind (x : string)
| OpUnion (x y : string).

Definition ejecutar (uf : UnionFind) (o : operacion) : result UnionFind :=
  match o with
  | OpFind x => '(uf', _) ← find uf x; Ok uf'
  | OpUnion x y => '(uf', _) ← union uf x y; Ok uf'
  end.

(** The states a structure built over [V] can be in.  A call that raises
    leaves the structure as the calls to [find] it completed left it, so
    the calls that return are enough. *)
Inductive alcanzable (V : gset string) : UnionFind → Prop :=
| alc_init : alcanzable V (UnionFind_init V)
| alc_paso uf o uf' :
    alcanzable V uf → ejecutar uf o = Ok uf' → alcanzable V uf'.

(** A structure where the vertex "d" is two links away from its root. *)
Definition uf_profundo : result UnionFind :=
  foldl (λ r o, uf ← r; ejecutar uf o)
        (Ok (UnionFind_init {["a"; "b"; "c"; "d"]}))
        [OpUnion "a" "b"; OpUnion "c" "d"; OpUnion "a" "c"].

Definition uf_profundo_estado : UnionFind :=
  match uf_profundo with
  | Ok uf => uf
  | Raise _ => UnionFind_init ∅
  end.

(** * Theory of the parent forest *)

(** [reach p x r n]: following the parent links from [x] leads, after
    [n] proper links, to the root [r] (a vertex that is its own parent). *)
Inductive reach (p : gmap string string) : string → string → nat → Prop :=
| reach_root r :
    p !! r = Some r → reach p r r 0
| reach_step x y r n :
    p !! x = Some y → y ≠ x → reach p y r n → reach p x r (S n).

(** [raiz uf x r]: [r] is the representative of [x]. *)
Definition raiz (uf : UnionFind) (x r : string) : Prop :=
  ∃ n, reach (parent uf) x r n.

(** Proper ancestors: the transitive closure of the proper parent links. *)
Definition enlace (p : gmap string string) (x y : string) : Prop :=
  p !! x = Some y ∧ y ≠ x.

Definition ancestro (p : gmap string string) : relation string :=
  tc (enlace p).

(** [p'] is [p] with some vertices re-pointed to their own root. *)
Definition compressed (p p' : gmap string string) : Prop :=
  ∀ z, p' !! z = p !! z ∨ ∃ r n, p' !! z = Some r ∧ reach p z r n.

(** The roots of the forest. *)
Definition raices (p : gmap string string) : gset string :=
  filter (λ x, p !! x = Some x) (dom p).

(** Well-formed structure over the vertex set [V]. *)
Record wf (V : gset string) (uf : UnionFind) : Prop := MkWf {
  wf_dom_parent : dom (parent uf) = V;
  wf_dom_rank : dom (rank uf) = V;
  wf_reach : ∀ x, x ∈ V → ∃ r, raiz uf x r
}.

(** Two structures with the same ranks and the same representatives. *)
Definition equiv (uf uf' : UnionFind) : Prop :=
  rank uf = rank uf' ∧ ∀ z r, raiz uf z r ↔ raiz uf' z r.

(** The variables of two runs agree, up to how far paths are compressed. *)
Definition parejos (V : gset string) (st st' : estado) : Prop :=
  wf V (uf_de st) ∧ wf V (uf_de st') ∧ equiv (uf_de st) (uf_de st') ∧
  arbol st = arbol st' ∧ coste_total st = coste_total st' ∧ traza st = traza st'.

(** ** The invariant of the main loop

    [hechas] are the edges tried so far, in order. *)
Record inv (V : gset string) (hechas : list arista) (st : estado) : Prop := MkInv {
  inv_wf : wf V (uf_de st);
  inv_sound :
    ∀ x y r, raiz (uf_de st) x r → raiz (uf_de st) y r → conn hechas x y;
  inv_complete :
    ∀ u v w, (u, v, w) ∈ hechas → ∃ r, raiz (uf_de st) u r ∧ raiz (uf_de st) v r;
  inv_count : size (raices (parent (uf_de st))) + length (arbol st) = size V;
  inv_traza : ev_arista <$> traza st = hechas
}.

(** ** Further notions, for the properties of the run *)

(** [x] and [y] have the same representative. *)
Definition misma (uf : UnionFind) (x y : string) : Prop :=
  ∃ r, raiz uf x r ∧ raiz uf y r.

(** The sum of the weights of a list of edges. *)
Definition suma (l : list arista) : Z :=
  foldr (λ e s, (peso e + s)%Z) 0%Z l.

(** A list of edges is a forest when each edge joins two vertices that the
    edges before it do not connect. *)
Inductive bosque : list arista → Prop :=
| bosque_nil : bosque []
| bosque_snoc l u v w :
    bosque l → ¬ conn l u v → bosque (l ++ [(u, v, w)]).

(** The accepted edges of a trace, in order. *)
Definition aceptadas (t : list evento) : list arista :=
  ev_arista <$> filter (λ ev, ev_aceptada ev = true) t.

(** A trace is greedy when each edge in it was accepted exactly when the
    edges accepted before it did not connect its end points. *)
Inductive voraz : list evento → Prop :=
| voraz_nil : voraz []
| voraz_snoc t ev :
    voraz t →
    (ev_aceptada ev = true ↔
     ¬ conn (aceptadas t) (ev_arista ev).1.1 (ev_arista ev).1.2) →
    voraz (t ++ [ev]).

(** What the main loop keeps about the accepted edges; [hechas] are the
    edges tried so far. *)
Record inv_voraz (V : gset string) (hechas : list arista) (st : estado) : Prop :=
  MkInvVoraz {
    iv_wf : wf V (uf_de st);
    iv_sound : ∀ x y, misma (uf_de st) x y → conn (arbol st) x y;
    iv_hechas : ∀ u v w, (u, v, w) ∈ hechas → misma (uf_de st) u v;
    iv_sub : arbol st `sublist_of` hechas;
    iv_suma : coste_total st = suma (arbol st);
    iv_bosque : bosque (arbol st);
    iv_aceptadas : arbol st = aceptadas (traza st);
    iv_traza : ev_arista <$> traza st = hechas;
    iv_voraz : voraz (traza st)
  }.

(** The main loop of [kruskal] on the vertex set [V], over the edges [l]
    in the order given. *)
Definition corrida (V : gset string) (l : list arista) : result estado :=
  uf0 ← print_componentes elements (UnionFind_init V) V;
  bucle elements V (MkEstado uf0 [] 0 []) l.

(** ** Further notions, for the properties of the structure *)

(** The representative that [find] returns. *)
Definition rep (uf : UnionFind) (x : string) : result string :=
  '(_, r) ← find uf x; Ok r.

(** A sequence of operations, from a given state. *)
Definition ejecutar_todas (uf : UnionFind) (ops : list operacion)
  : result UnionFind :=
  foldl (λ r o, uf ← r; ejecutar uf o) (Ok uf) ops.

(** [unidos ops x y]: a chain of calls to [union] among [ops] links [x]
    and [y]. *)
Inductive unidos (ops : list operacion) : string → string → Prop :=
| unidos_refl x : unidos ops x x
| unidos_op x y : OpUnion x y ∈ ops → unidos ops x y
| unidos_sym x y : unidos ops x y → unidos ops y x
| unidos_trans x y z : unidos ops x y → unidos ops y z → unidos ops x z.

(** Along every proper parent link the rank grows. *)
Definition rangos_crecen (uf : UnionFind) : Prop :=
  ∀ x y, parent uf !! x = Some y → y ≠ x →
    ∃ kx ky, rank uf !! x = Some kx ∧ rank uf !! y = Some ky ∧ kx < ky.

#[global] Instance error_eq_dec : EqDecision error.
Proof. solve_decision. Defined.

#[global] Instance result_eq_dec {A} `{EqDecision A} : EqDecision (result A).
Proof. solve_decision. Defined.

(** The vertices whose representative is [r]. *)
Definition clase (uf : UnionFind) (r : string) : gset string :=
  filter (λ z, rep uf z = Ok r) (dom (parent uf)).

(** A root of rank [k] represents at least [2 ^ k] vertices. *)
Definition clases_grandes (uf : UnionFind) : Prop :=
  ∀ r k, parent uf !! r = Some r → rank uf !! r = Some k →
    2 ^ k ≤ size (clase uf r).

(** A spanning forest of the graph of [aristas]: a forest made of edges of
    the graph that connects whatever the graph connects. *)
Definition bosque_generador (aristas F : list arista) : Prop :=
  bosque F ∧ (∀ e, e ∈ F → e ∈ aristas) ∧ ∀ x y, conn aristas x y → conn F x y.

(** Whether the edges of [l] connect [x] and [y], decided by the loop. *)
Definition conectados (l : list arista) (x y : string) : bool :=
  bool_decide (x = y) ||
  match corrida (nodos_de l) l with
  | Ok st =>
      bool_decide (x ∈ nodos_de l) &&
      bool_decide (rep (uf_de st) x = rep (uf_de st) y)
  | Raise _ => false
  end.

(** A triangle and one of its spanning trees. *)
Definition triangulo : list arista :=
  [("A", "B", 1%Z); ("B", "C", 2%Z); ("A", "C", 3%Z)].

Definition triangulo_arbol : list arista :=
  [("B", "C", 2%Z); ("A", "C", 3%Z)].

(** ** print_componentes, with its dictionary

    [comp] maps each root met to the list of the vertices found under it,
    in the order in which the set yields them.  (The order of the items of
    [comp], used only to number the lines printed, is not kept.) *)
Fixpoint componentes_loop (uf : UnionFind) (comp : gmap string (list string))
    (ns : list string) : result (UnionFind * gmap string (list string)) :=
  match ns with
  | [] => Ok (uf, comp)
  | n :: ns' =>
      '(uf', r) ← find uf n;
      let comp1 := if decide (r ∉ dom comp) then <[r := []]> comp else comp in
      l ← getitem comp1 r;
      componentes_loop uf' (<[r := (l ++ [n])%list]> comp1) ns'
  end.

Definition componentes (orden : gset string → list string)
    (uf : UnionFind) (nodos : gset string)
  : result (UnionFind * gmap string (list string)) :=
  componentes_loop uf ∅ (orden nodos).

(** ** main, option 3: both trees from the same list

    The two calls of [main] on the list at address [a]; between them
    [dibujar_grafo] only reads its arguments. *)
Definition ambos_h (h : heap) (a : nat)
  : result (heap * (nat * Z) * (nat * Z)) :=
  '(h1, a_min, coste_min) ← kruskal_h h a "min";
  '(h2, a_max, coste_max) ← kruskal_h h1 a "max";
  Ok (h2, (a_min, coste_min), (a_max, coste_max)).

(** ** kruskal on the weights it is given

    [kruskal] never looks at what the weights are: [sorted] compares them
    with [<] and the main loop adds them to [coste_total].  They are ints
    in [grafo_ejemplo] and floats in [grafo_manual], which builds them
    with [float(...)] and so lets [inf] and [nan] in.  The definitions
    above take them to be ints.  Here they are of any type [W] that has
    the two operations, and [kruskal] is given again on them, line by
    line as above; what [UnionFind] and [print_componentes] do does not
    depend on the weights and is shared. *)
Class Numero (W : Type) := MkNumero {
  (** [a < b] *)
  menor : W → W → bool;
  (** the values of [coste_total], which starts as the int [0] *)
  Coste : Type;
  cero : Coste;
  (** [coste_total += w] *)
  mas : Coste → W → Coste
}.

#[global] Instance numero_int : Numero Z :=
  {| menor := Z.ltb; Coste := Z; cero := 0%Z; mas := Z.add |}.

(** On floats [coste_total] is the int [0] until the first edge is
    accepted; [0 + w] converts the int to [0.0] and adds. *)
Inductive coste_float :=
| CosteCero
| CosteFloat (f : PrimFloat.float).

Definition mas_float (c : coste_float) (w : PrimFloat.float) : coste_float :=
  match c with
  | CosteCero => CosteFloat (PrimFloat.add 0%float w)
  | CosteFloat f => CosteFloat (PrimFloat.add f w)
  end.

#[global] Instance numero_float : Numero PrimFloat.float :=
  {| menor := PrimFloat.ltb; Coste := coste_float; cero := CosteCero; mas := mas_float |}.

(** [<] orders the weights [ws]: no two of them are each less than the
    other, and "not less than" is transitive among them.  It does on
    ints; on floats it does as long as none is [nan], which is neither
    less nor greater than any number. *)
Definition ordena {W} `{!Numero W} (ws : list W) : bool :=
  forallb (λ a, forallb (λ b,
    implb (menor a b) (negb (menor b a)) &&
    forallb (λ c, implb (negb (menor b a) && negb (menor c b)) (negb (menor c a))) ws)
    ws) ws.

Module Pesos.

Abbreviation arista W := (string * string * W)%type.

Definition peso {W} (e : arista W) : W := e.2.

(** [list.sort], as CPython runs it on a list of fewer than 64 items:
    the run the list starts with is kept as it is when it never descends
    and reversed when it strictly descends, then each item after it is
    put in among the items before it, at the place a binary search
    finds.  Items are compared with [<] only.  (A longer list is cut in
    such runs, which are merged; the sort being stable, that gives the
    same list whenever [<] orders the items.) *)
Fixpoint run_asc {A} (lt : A → A → bool) (prev : A) (l : list A) : nat :=
  match l with
  | [] => 0
  | x :: l' => if lt x prev then 0 else S (run_asc lt x l')
  end.

Fixpoint run_desc {A} (lt : A → A → bool) (prev : A) (l : list A) : nat :=
  match l with
  | [] => 0
  | x :: l' => if lt x prev then S (run_desc lt x l') else 0
  end.

(** The length of the run at the front of [l], and whether it descends. *)
Definition count_run {A} (lt : A → A → bool) (l : list A) : nat * bool :=
  match l with
  | [] => (0, false)
  | [x] => (1, false)
  | x :: y :: l' =>
      if lt y x then (2 + run_desc lt y l', true) else (2 + run_asc lt y l', false)
  end.

(** [pivot] put in [l] where the binary search ends: the middle item [p]
    is looked at, and the search goes on to the left of [p] when
    [pivot < p], to the right of it otherwise. *)
Fixpoint binsert {A} (lt : A → A → bool) (fuel : nat) (pivot : A) (l : list A)
  : list A :=
  match fuel, l !! (length l / 2) with
  | S fuel', Some p =>
      if lt pivot p then
        (binsert lt fuel' pivot (take (length l / 2) l) ++ drop (length l / 2) l)%list
      else
        (take (S (length l / 2)) l ++ binsert lt fuel' pivot (drop (S (length l / 2)) l))%list
  | _, _ => pivot :: l
  end.

Definition binarysort {A} (lt : A → A → bool) (run rest : list A) : list A :=
  foldl (λ hechos pivot, binsert lt (length hechos) pivot hechos) run rest.

Definition list_sort {A} (lt : A → A → bool) (l : list A) : list A :=
  let '(n, descending) := count_run lt l in
  let run := if descending then reverse (take n l) else take n l in
  binarysort lt run (drop n l).

(** [sorted(aristas, key=lambda x: x[2], reverse=...)]: the keys are
    compared; with [reverse=True] the list is reversed, sorted the same
    way, and reversed again. *)
Definition sorted {W} `{!Numero W} (aristas : list (arista W)) (reverse : bool)
  : list (arista W) :=
  let lt a b := menor (peso a) (peso b) in
  if reverse then list.reverse (list_sort lt (list.reverse aristas))
  else list_sort lt aristas.

Definition nodos_de {W} (aristas : list (arista W)) : gset string :=
  foldl (λ nodos '(u, v, _), (nodos ∪ {[u]}) ∪ {[v]}) ∅ aristas.

Record evento (W : Type) := MkEvento {
  ev_arista : arista W;
  ev_ru : string;
  ev_rv : string;
  ev_aceptada : bool
}.
Arguments MkEvento {W} _ _ _ _.
Arguments ev_arista {W} _.
Arguments ev_ru {W} _.
Arguments ev_rv {W} _.
Arguments ev_aceptada {W} _.

Record estado (W : Type) `{!Numero W} := MkEstado {
  uf_de : UnionFind;
  arbol : list (arista W);
  coste_total : Coste;
  traza : list (evento W)
}.
Arguments MkEstado {W _} _ _ _ _.
Arguments uf_de {W _} _.
Arguments arbol {W _} _.
Arguments coste_total {W _} _.
Arguments traza {W _} _.

Definition paso {W} `{!Numero W} (orden : gset string → list string)
    (nodos : gset string) (st : estado W) (e : arista W) : result (estado W) :=
  let '(u, v, w) := e in
  '(uf1, ru) ← find (uf_de st) u;
  '(uf2, rv) ← find uf1 v;
  if decide (ru ≠ rv) then
    '(uf3, _) ← union uf2 u v;
    uf4 ← print_componentes orden uf3 nodos;
    Ok (MkEstado uf4 (arbol st ++ [(u, v, w)])%list (mas (coste_total st) w)
          (traza st ++ [MkEvento e ru rv true])%list)
  else
    uf4 ← print_componentes orden uf2 nodos;
    Ok (MkEstado uf4 (arbol st) (coste_total st)
          (traza st ++ [MkEvento e ru rv false])%list).

Fixpoint bucle {W} `{!Numero W} (orden : gset string → list string)
    (nodos : gset string) (st : estado W) (es : list (arista W))
  : result (estado W) :=
  match es with
  | [] => Ok st
  | e :: es' =>
      st' ← paso orden nodos st e;
      bucle orden nodos st' es'
  end.

Definition aristas_ordenadas {W} `{!Numero W} (aristas : list (arista W))
    (tipo : string) : list (arista W) :=
  if decide (tipo = "min") then sorted aristas false else sorted aristas true.

Definition kruskal_run_con {W} `{!Numero W} (orden : gset string → list string)
    (aristas : list (arista W)) (tipo : string) : result (estado W) :=
  let nodos := nodos_de aristas in
  let uf := UnionFind_init nodos in
  uf0 ← print_componentes orden uf nodos;
  bucle orden nodos (MkEstado uf0 [] cero []) (aristas_ordenadas aristas tipo).

Definition kruskal_run {W} `{!Numero W} (aristas : list (arista W)) (tipo : string)
  : result (estado W) :=
  kruskal_run_con elements aristas tipo.

Definition kruskal {W} `{!Numero W} (aristas : list (arista W)) (tipo : string)
  : result (list (arista W) * Coste) :=
  st ← kruskal_run aristas tipo;
  Ok (arbol st, coste_total st).

End Pesos.

(** Four edges as [grafo_manual] builds them from the lines
    [A B 3], [B C nan], [C D 1] and [D E 2]. *)
Definition grafo_nan : list (Pesos.arista PrimFloat.float) :=
  [ ("A", "B", 3%float); ("B", "C", PrimFloat.nan); ("C", "D", 1%float);
    ("D", "E", 2%float) ].

(** Three edges with fractional weights, from the lines [A B 2.5],
    [B C 0.5] and [A C 1]. *)
Definition grafo_fraccion : list (Pesos.arista PrimFloat.float) :=
  [ ("A", "B", 2.5%float); ("B", "C", 0.5%float); ("A", "C", 1%float) ].

(** An edge with its weight left out, as [UnionFind] sees it. *)
Definition olvida {W} (e : Pesos.arista W) : arista := (e.1.1, e.1.2, 0%Z).

(** The two states hold the same structure, tree and cost. *)
Definition mismo_estado (stg : Pesos.estado Z) (st : estado) : Prop :=
  Pesos.uf_de stg = uf_de st ∧ Pesos.arbol stg = arbol st ∧
  Pesos.coste_total stg = coste_total st.

Section Forest.
Implicit Types p : gmap string string.

Lemma reach_is_root p x r n : reach p x r n → p !! r = Some r.
Proof. induction 1; auto. Qed.

Lemma reach_lookup p x r n : reach p x r n → is_Some (p !! x).
Proof. destruct 1; eauto. Qed.

Lemma reach_fun p x r n r' m :
  reach p x r n → reach p x r' m → r = r' ∧ n = m.
Proof.
  intros H. revert r' m.
  induction H as [r Hr | x y r n Hx Hne _ IH]; intros r' m H'.
  - inversion H' as [? Hr' | ? y ? ? Hy Hne]; subst; [done |].
    rewrite Hr in Hy. by simplify_eq.
  - inversion H' as [? Hr' | ? y' ? m' Hy' Hne' Hy'r]; subst.
    + rewrite Hx in Hr'. by simplify_eq.
    + rewrite Hx in Hy'. simplify_eq.
      destruct (IH _ _ Hy'r) as [-> ->]. done.
Qed.

Lemma reach_root_inv p r r' n : p !! r = Some r → reach p r r' n → r' = r ∧ n = 0.
Proof.
  intros Hr H. destruct (reach_fun _ _ _ _ _ _ (reach_root p r Hr) H) as [-> <-]. done.
Qed.

(** The vertices met on the way to the root are pairwise distinct, so
    the way is shorter than the number of keys. *)
Lemma reach_path p x r n :
  reach p x r n →
  ∃ l : list string, length l = S n ∧ NoDup l ∧
    ∀ z, z ∈ l → ∃ m, m ≤ n ∧ reach p z r m.
Proof.
  induction 1 as [r Hr | x y r n Hx Hne Hy (l & Hlen & Hnd & Hl)].
  - exists [r]. split_and!; [done | apply NoDup_singleton |].
    intros z ->%list_elem_of_singleton. exists 0. split; [lia | by constructor].
  - exists (x :: l). split_and!.
    + simpl. by rewrite Hlen.
    + constructor; [| done]. intros (m & Hm & Hz)%Hl.
      assert (reach p x r (S n)) as Hxr by (econstructor; eauto).
      destruct (reach_fun _ _ _ _ _ _ Hxr Hz) as [_ ?]. lia.
    + intros z [-> | (m & Hm & Hz)%Hl]%elem_of_cons.
      * exists (S n). split; [lia | econstructor; eauto].
      * exists m. split; [lia | done].
Qed.

Lemma reach_bound p x r n : reach p x r n → n < size p.
Proof.
  intros (l & Hlen & Hnd & Hl)%reach_path.
  assert (l ⊆+ elements (dom p)) as Hsub.
  { apply NoDup_submseteq; [done |]. intros z (m & _ & Hz)%Hl.
    apply elem_of_elements, elem_of_dom. eapply reach_lookup, Hz. }
  apply submseteq_length in Hsub.
  rewrite Hlen in Hsub. change (length (elements (dom p))) with (size (dom p)) in Hsub.
  rewrite size_dom in Hsub. lia.
Qed.

(** No vertex is a proper ancestor of itself. *)
Lemma enlace_reach p x y r n :
  enlace p x y → reach p x r n → ∃ m, n = S m ∧ reach p y r m.
Proof.
  intros [Hx Hne] H. inversion H as [? Hr | ? y' ? m Hy' _ Hy]; subst.
  - rewrite Hx in Hr. by simplify_eq.
  - rewrite Hx in Hy'. simplify_eq. eauto.
Qed.

Lemma ancestro_lookup p x y : ancestro p x y → is_Some (p !! x).
Proof. destruct 1 as [x y [Hxy _] | x y z [Hxy _] _]; eauto. Qed.

Lemma ancestro_reach p x y r n :
  ancestro p x y → reach p x r n → ∃ m, m < n ∧ reach p y r m.
Proof.
  intros H. revert n. induction H as [x y Hxy | x y z Hxy _ IH]; intros n Hn.
  - destruct (enlace_reach _ _ _ _ _ Hxy Hn) as (m & -> & Hm). exists m. split; [lia | done].
  - destruct (enlace_reach _ _ _ _ _ Hxy Hn) as (m & -> & Hm).
    destruct (IH _ Hm) as (k & Hk & Hz). exists k. split; [lia | done].
Qed.

Lemma ancestro_irrefl p x r n : reach p x r n → ¬ ancestro p x x.
Proof.
  intros Hx Hc. destruct (ancestro_reach _ _ _ _ _ Hc Hx) as (m & Hm & Hx').
  destruct (reach_fun _ _ _ _ _ _ Hx Hx') as [_ ?]. lia.
Qed.

(** *** Path compression *)

Lemma compressed_refl p : compressed p p.
Proof. intros z. by left. Qed.

Lemma compressed_insert p p' x r n :
  compressed p p' → reach p x r n → compressed p (<[x := r]> p').
Proof.
  intros Hc Hx z. destruct (decide (x = z)) as [<- | Hne].
  - right. exists r, n. by rewrite lookup_insert_eq.
  - rewrite lookup_insert_ne by done. apply Hc.
Qed.

Lemma compressed_root p p' z : compressed p p' → p' !! z = Some z ↔ p !! z = Some z.
Proof.
  intros Hc. destruct (Hc z) as [Heq | (r & n & Hz & Hr)].
  - by rewrite Heq.
  - split; intros H.
    + rewrite Hz in H. simplify_eq. by eapply reach_is_root.
    + destruct (reach_root_inv _ _ _ _ H Hr) as [-> _]. done.
Qed.

Lemma compressed_dom p p' : compressed p p' → dom p' = dom p.
Proof.
  intros Hc. apply set_eq. intros z. rewrite !elem_of_dom.
  destruct (Hc z) as [Heq | (r & n & Hz & Hr)]; [by rewrite Heq |].
  rewrite Hz. split; [intros _; by eapply reach_lookup | eauto].
Qed.

Lemma compressed_reach p p' z q n :
  compressed p p' → reach p z q n → ∃ m, reach p' z q m.
Proof.
  intros Hc. induction 1 as [q Hq | z y q n Hz Hne Hy [m IH]].
  - exists 0. constructor. by apply (compressed_root _ _ _ Hc).
  - assert (reach p z q (S n)) as Hzq by (econstructor; eauto).
    destruct (Hc z) as [Heq | (r & k & Hz' & Hr)].
    + exists (S m). econstructor; [by rewrite Heq | done | done].
    + destruct (reach_fun _ _ _ _ _ _ Hzq Hr) as [<- _].
      assert (q ≠ z) as Hqz.
      { intros ->. apply reach_is_root in Hzq. rewrite Hz in Hzq. by simplify_eq. }
      exists 1. econstructor; [done | done |]. constructor.
      apply (compressed_root _ _ _ Hc). by eapply reach_is_root.
Qed.

Lemma compressed_raices p p' : compressed p p' → raices p' = raices p.
Proof.
  intros Hc. apply set_eq. intros z. unfold raices.
  rewrite !elem_of_filter, (compressed_dom _ _ Hc), (compressed_root _ _ z Hc). done.
Qed.

Lemma compressed_reach_inv p p' z q m :
  compressed p p' → reach p' z q m → ∃ n, reach p z q n.
Proof.
  intros Hc. induction 1 as [q Hq | z y q m Hz Hne Hy [n IH]].
  - exists 0. constructor. by apply (compressed_root _ _ _ Hc).
  - destruct (Hc z) as [Heq | (r & k & Hz' & Hr)].
    + exists (S n). econstructor; [by rewrite <- Heq | done | done].
    + rewrite Hz in Hz'. simplify_eq.
      destruct (reach_root_inv _ _ _ _ (reach_is_root _ _ _ _ Hr) IH) as [-> _].
      eauto.
Qed.

(** [find_rec] returns the root and compresses, given enough budget. *)
Lemma find_rec_ok p x r n fuel :
  reach p x r n → n < fuel →
  ∃ p', find_rec fuel p x = Ok (p', r) ∧ compressed p p' ∧
        p' !! x = Some r ∧ p' !! r = Some r.
Proof.
  intros H. revert fuel.
  induction H as [r Hr | x y r n Hx Hne Hy IH]; intros [| fuel] Hlt; try lia.
  - exists p. simpl. rewrite Hr. rewrite decide_False by auto.
    split_and!; [done | apply compressed_refl | done | done].
  - destruct (IH fuel) as (p' & Hf & Hc & _ & Hr'); [lia |].
    exists (<[x := r]> p'). simpl. rewrite Hx, decide_True, Hf by done.
    split_and!; [done | | apply lookup_insert_eq |].
    + eapply compressed_insert; [done |]. econstructor; eauto.
    + destruct (decide (x = r)) as [-> | ?];
        [apply lookup_insert_eq | by rewrite lookup_insert_ne].
Qed.

(** A second [find_rec] on a compressed vertex changes nothing. *)
Lemma find_rec_flat p x r fuel :
  p !! x = Some r → p !! r = Some r → 0 < fuel →
  find_rec (S fuel) p x = Ok (p, r).
Proof.
  intros Hx Hr Hlt. destruct fuel as [| fuel]; [lia |].
  simpl. rewrite Hx. destruct (decide (r ≠ x)) as [Hne | Heq]; [| done].
  rewrite Hr, decide_False by auto. by rewrite insert_id.
Qed.

(** *** Linking a root under another *)

Lemma link_reach_other p a b z r n :
  p !! a = Some a → reach p z r n → r ≠ a → reach (<[a := b]> p) z r n.
Proof.
  intros Ha. induction 1 as [r Hr | z y r n Hz Hne Hy IH]; intros Hra.
  - constructor. by rewrite lookup_insert_ne.
  - econstructor; [| done | by apply IH].
    rewrite lookup_insert_ne; [done |]. intros <-. rewrite Ha in Hz. by simplify_eq.
Qed.

Lemma link_reach_moved p a b z n :
  p !! a = Some a → p !! b = Some b → a ≠ b →
  reach p z a n → reach (<[a := b]> p) z b (S n).
Proof.
  intros Ha Hb Hab H. remember a as a' eqn:Ea in H.
  induction H as [r Hr | z y r n Hz Hne Hy IH]; subst.
  - econstructor; [apply lookup_insert_eq | done |].
    constructor. by rewrite lookup_insert_ne.
  - econstructor; [| done | by apply IH].
    rewrite lookup_insert_ne; [done |]. intros <-. rewrite Ha in Hz. by simplify_eq.
Qed.

Lemma link_raices p a b :
  p !! a = Some a → p !! b = Some b → a ≠ b →
  raices (<[a := b]> p) = raices p ∖ {[a]}.
Proof.
  intros Ha Hb Hab. apply set_eq. intros z. unfold raices.
  rewrite elem_of_difference, !elem_of_filter, dom_insert_L, elem_of_singleton.
  destruct (decide (z = a)) as [-> | Hne].
  - rewrite lookup_insert_eq. split; [intros [? _]; by simplify_eq | tauto].
  - rewrite lookup_insert_ne by done. set_solver.
Qed.

Lemma compressed_trans p1 p2 p3 :
  compressed p1 p2 → compressed p2 p3 → compressed p1 p3.
Proof.
  intros H12 H23 z. destruct (H23 z) as [Heq | (r & n & Hz & Hr)].
  - rewrite Heq. apply H12.
  - right. destruct (compressed_reach_inv _ _ _ _ _ H12 Hr) as [m Hm]. eauto.
Qed.

Lemma raices_root p r : p !! r = Some r → r ∈ raices p.
Proof.
  intros Hr. unfold raices. apply elem_of_filter. split; [done |].
  apply elem_of_dom. eauto.
Qed.

Lemma elem_of_raices p r : r ∈ raices p ↔ p !! r = Some r.
Proof.
  split; [| apply raices_root]. unfold raices. by intros [? _]%elem_of_filter.
Qed.
End Forest.

(** * Theory of the structure *)

Section Structure.
Context (V : gset string).
Implicit Types uf : UnionFind.

Lemma raiz_fun uf x r r' : raiz uf x r → raiz uf x r' → r = r'.
Proof. intros [n H] [m H']. by destruct (reach_fun _ _ _ _ _ _ H H'). Qed.

Lemma raiz_is_root uf x r : raiz uf x r → parent uf !! r = Some r.
Proof. intros [n H]. by eapply reach_is_root. Qed.

Lemma raiz_root uf r : parent uf !! r = Some r → raiz uf r r.
Proof. intros H. exists 0. by constructor. Qed.

Lemma raiz_elem uf x r : wf V uf → raiz uf x r → x ∈ V ∧ r ∈ V.
Proof.
  intros [Hd _ _] [n H]. rewrite <- Hd, !elem_of_dom. split.
  - by eapply reach_lookup.
  - apply reach_is_root in H. eauto.
Qed.

Lemma wf_init : wf V (UnionFind_init V).
Proof.
  split; simpl.
  - apply set_eq. intros x. rewrite elem_of_dom. split.
    + intros [y (z & Hz & ?)%lookup_set_to_map]; [by simplify_eq | naive_solver].
    + intros Hx. exists x. apply lookup_set_to_map; [naive_solver | eauto].
  - apply dom_gset_to_gmap.
  - intros x Hx. exists x, 0. constructor.
    apply lookup_set_to_map; [naive_solver | eauto].
Qed.

Lemma init_parent x : x ∈ V → parent (UnionFind_init V) !! x = Some x.
Proof. intros Hx. apply lookup_set_to_map; [naive_solver | eauto]. Qed.

(** What [find] does on a well-formed structure. *)
Lemma find_spec uf x :
  wf V uf → x ∈ V →
  ∃ p' r, find uf x = Ok (MkUF p' (rank uf), r) ∧ raiz uf x r ∧
          compressed (parent uf) p' ∧ p' !! x = Some r ∧ p' !! r = Some r ∧
          wf V (MkUF p' (rank uf)).
Proof.
  intros Hwf Hx. destruct (wf_reach _ _ Hwf x Hx) as (r & n & Hr).
  destruct (find_rec_ok _ _ _ _ (S (size (parent uf))) Hr) as (p' & Hf & Hc & Hx' & Hr').
  { apply reach_bound in Hr. lia. }
  exists p', r. unfold find. rewrite Hf.
  split_and!; [done | by exists n | done | done | done |].
  split; simpl.
  - rewrite (compressed_dom _ _ Hc). apply Hwf.
  - apply Hwf.
  - intros z Hz. destruct (wf_reach _ _ Hwf z Hz) as (q & k & Hq).
    destruct (compressed_reach _ _ _ _ _ Hc Hq) as [m Hm]. by exists q, m.
Qed.

(** [find] on a vertex that already points to its root. *)
Lemma find_flat uf x r :
  parent uf !! x = Some r → parent uf !! r = Some r → find uf x = Ok (uf, r).
Proof.
  intros Hx Hr.
  assert (0 < size (parent uf)) as Hsz.
  { destruct (decide (size (parent uf) = 0)) as [E%map_size_empty_inv | ?]; [| lia].
    rewrite E, lookup_empty in Hx. done. }
  unfold find. rewrite (find_rec_flat _ x r _ Hx Hr Hsz). by destruct uf.
Qed.

Lemma find_raiz uf x uf' r :
  wf V uf → x ∈ V → find uf x = Ok (uf', r) →
  raiz uf x r ∧ rank uf' = rank uf ∧ compressed (parent uf) (parent uf') ∧
  parent uf' !! x = Some r ∧ parent uf' !! r = Some r ∧ wf V uf'.
Proof.
  intros Hwf Hx Hf.
  destruct (find_spec uf x Hwf Hx) as (p' & r' & Hf' & Hr & Hc & Hx' & Hr' & Hwf').
  rewrite Hf in Hf'. simplify_eq. done.
Qed.

Lemma compressed_raiz uf uf' z r :
  compressed (parent uf) (parent uf') → raiz uf z r ↔ raiz uf' z r.
Proof.
  intros Hc. split; intros [n H].
  - by eapply compressed_reach.
  - by eapply compressed_reach_inv.
Qed.

(** What [union] does on a well-formed structure. *)
Lemma union_spec uf x y rx ry :
  wf V uf → raiz uf x rx → raiz uf y ry →
  ∃ uf', union uf x y = Ok (uf', bool_decide (rx ≠ ry)) ∧ wf V uf' ∧
    (rx = ry →
       rank uf' = rank uf ∧ compressed (parent uf) (parent uf')) ∧
    (rx ≠ ry →
       ∃ krx kry, rank uf !! rx = Some krx ∧ rank uf !! ry = Some kry ∧
         let pierde := if decide (krx < kry) then rx else ry in
         let gana := if decide (krx < kry) then ry else rx in
         raices (parent uf') = raices (parent uf) ∖ {[pierde]} ∧
         (∀ z r, raiz uf z r → raiz uf' z (if decide (r = pierde) then gana else r)) ∧
         rank uf' = if decide (krx = kry) then <[rx := krx + 1]> (rank uf) else rank uf).
Proof.
  intros Hwf Hx Hy.
  destruct (raiz_elem _ _ _ Hwf Hx) as [HxV HrxV].
  destruct (raiz_elem _ _ _ Hwf Hy) as [HyV HryV].
  destruct (find_spec uf x Hwf HxV) as (p1 & r1 & Hf1 & Hr1 & Hc1 & _ & _ & Hwf1).
  rewrite <- (raiz_fun _ _ _ _ Hx Hr1) in *. clear r1 Hr1.
  set (uf1 := MkUF p1 (rank uf)) in *.
  assert (raiz uf1 y ry) as Hy1 by (by apply (compressed_raiz uf uf1)).
  destruct (find_spec uf1 y Hwf1 HyV) as (p2 & r2 & Hf2 & Hr2 & Hc2 & _ & Hry2 & Hwf2).
  rewrite <- (raiz_fun _ _ _ _ Hy1 Hr2) in *. clear r2 Hr2.
  simpl in Hf2, Hwf2. set (uf2 := MkUF p2 (rank uf)) in *.
  assert (∀ z r, raiz uf z r ↔ raiz uf2 z r) as Hraiz.
  { intros z r. rewrite (compressed_raiz uf uf1) by done.
    by apply (compressed_raiz uf1 uf2). }
  assert (p2 !! rx = Some rx) as Hrx2.
  { apply (raiz_is_root uf2 x), Hraiz, Hx. }
  assert (dom p2 = V) as Hdom2 by apply Hwf2.
  assert (raices p2 = raices (parent uf)) as Hraices.
  { rewrite (compressed_raices _ _ Hc2). apply (compressed_raices _ _ Hc1). }
  unfold union. rewrite Hf1. cbn. rewrite Hf2. cbn.
  destruct (decide (rx = ry)) as [-> | Hne].
  - exists uf2. rewrite bool_decide_eq_false_2 by auto.
    split_and!; [done | done | | done].
    intros _. split; [done |]. simpl.
    intros z. destruct (Hc2 z) as [-> | (r & n & Hz & Hr)]; [apply Hc1 |].
    right. destruct (compressed_reach_inv _ _ _ _ _ Hc1 Hr) as [m Hm]. eauto.
  - rewrite bool_decide_eq_true_2 by done.
    assert (is_Some (rank uf !! rx)) as [krx Hkrx].
    { apply elem_of_dom. by rewrite (wf_dom_rank _ _ Hwf). }
    assert (is_Some (rank uf !! ry)) as [kry Hkry].
    { apply elem_of_dom. by rewrite (wf_dom_rank _ _ Hwf). }
    unfold getitem. simpl. rewrite Hkrx, Hkry. cbn.
    assert (∀ a b, a ≠ b → p2 !! a = Some a → p2 !! b = Some b → a ∈ V →
              ∀ rk, dom rk = V →
              wf V (MkUF (<[a := b]> p2) rk) ∧
              raices (<[a := b]> p2) = raices (parent uf) ∖ {[a]} ∧
              ∀ z r, raiz uf z r →
                raiz (MkUF (<[a := b]> p2) rk) z (if decide (r = a) then b else r))
      as Hlink.
    { intros a b Hab Ha Hb HaV rk Hrk.
      assert (∀ z r, raiz uf z r →
                raiz (MkUF (<[a := b]> p2) rk) z (if decide (r = a) then b else r))
        as Hmove.
      { intros z r [n Hz]%Hraiz. simpl in Hz. case_decide as Hra.
        - subst r. exists (S n). by apply link_reach_moved.
        - exists n. by apply link_reach_other. }
      split_and!; [| by rewrite link_raices, Hraices | done].
      split; simpl; [| done |].
      - rewrite dom_insert_L, Hdom2. set_solver.
      - intros z Hz. destruct (wf_reach _ _ Hwf z Hz) as [r Hr]. eauto. }
    destruct (decide (krx < kry)) as [Hlt | Hge].
    + destruct (Hlink rx ry Hne Hrx2 Hry2 HrxV _ (wf_dom_rank _ _ Hwf)) as (Hw & Hr & Hm).
      eexists. split_and!; [done | done | done |]. intros _.
      exists krx, kry.
      rewrite !(decide_True (P := krx < kry)), (decide_False (P := krx = kry)) by lia.
      done.
    + destruct (decide (kry < krx)) as [Hgt | Hle].
      * destruct (Hlink ry rx (not_eq_sym Hne) Hry2 Hrx2 HryV _ (wf_dom_rank _ _ Hwf))
          as (Hw & Hr & Hm).
        eexists. split_and!; [done | done | done |]. intros _.
        exists krx, kry.
        rewrite !(decide_False (P := krx < kry)), (decide_False (P := krx = kry)) by lia.
        done.
      * assert (kry = krx) as -> by lia.
        destruct (Hlink ry rx (not_eq_sym Hne) Hry2 Hrx2 HryV (<[rx := krx + 1]> (rank uf)))
          as (Hw & Hr & Hm).
        { rewrite dom_insert_L, (wf_dom_rank _ _ Hwf). set_solver. }
        eexists. split_and!; [done | done | done |]. intros _.
        exists krx, krx.
        rewrite !(decide_False (P := krx < krx)), (decide_True (P := krx = krx)) by lia.
        done.
Qed.
End Structure.

(** * Reachable states *)

Section Reachable.
Context (V : gset string).
Implicit Types uf : UnionFind.

Lemma find_ok_elem uf x uf' r : find uf x = Ok (uf', r) → x ∈ dom (parent uf).
Proof.
  unfold find. simpl. intros H. apply elem_of_dom.
  destruct (parent uf !! x); [eauto | done].
Qed.

Lemma union_ok_elem uf x y uf' b :
  wf V uf → union uf x y = Ok (uf', b) → x ∈ V ∧ y ∈ V.
Proof.
  intros Hwf. unfold union.
  destruct (find uf x) as [[uf1 rx] |] eqn:H1; [| done]. cbn.
  pose proof (find_ok_elem _ _ _ _ H1) as Hx. rewrite (wf_dom_parent _ _ Hwf) in Hx.
  destruct (find_raiz V _ _ _ _ Hwf Hx H1) as (_ & _ & _ & _ & _ & Hwf1).
  destruct (find uf1 y) as [[uf2 ry] |] eqn:H2; [| done]. intros _.
  pose proof (find_ok_elem _ _ _ _ H2) as Hy. rewrite (wf_dom_parent _ _ Hwf1) in Hy.
  done.
Qed.

Lemma ejecutar_wf uf o uf' : wf V uf → ejecutar uf o = Ok uf' → wf V uf'.
Proof.
  intros Hwf. destruct o as [x | x y]; simpl.
  - destruct (find uf x) as [[uf1 r] |] eqn:H1; [| done]. cbn. intros [= <-].
    pose proof (find_ok_elem _ _ _ _ H1) as Hx. rewrite (wf_dom_parent _ _ Hwf) in Hx.
    by destruct (find_raiz V _ _ _ _ Hwf Hx H1) as (_ & _ & _ & _ & _ & Hwf1).
  - destruct (union uf x y) as [[uf1 b] |] eqn:H1; [| done]. cbn. intros [= <-].
    destruct (union_ok_elem _ _ _ _ _ Hwf H1) as [Hx Hy].
    destruct (wf_reach _ _ Hwf x Hx) as [rx Hrx].
    destruct (wf_reach _ _ Hwf y Hy) as [ry Hry].
    destruct (union_spec V uf x y rx ry Hwf Hrx Hry) as (uf2 & Hu & Hwf2 & _).
    rewrite H1 in Hu. by simplify_eq.
Qed.

Lemma alcanzable_wf uf : alcanzable V uf → wf V uf.
Proof.
  induction 1 as [| uf o uf' _ IH Hex]; [apply wf_init | by eapply ejecutar_wf].
Qed.

Lemma alcanzable_foldl uf os uf' :
  alcanzable V uf →
  foldl (λ r o, uf ← r; ejecutar uf o) (Ok uf) os = Ok uf' →
  alcanzable V uf'.
Proof.
  revert uf. induction os as [| o os IH]; intros uf Huf; simpl.
  - by intros [= <-].
  - cbn. destruct (ejecutar uf o) as [uf1 | e] eqn:E.
    + apply IH. by eapply alc_paso.
    + intros H. exfalso. clear -H. induction os as [| o' os IH']; [done |].
      apply IH'. exact H.
Qed.

Lemma wf_raiz_unique uf x : wf V uf → x ∈ V → exists ! r, raiz uf x r.
Proof.
  intros Hwf Hx. destruct (wf_reach _ _ Hwf x Hx) as [r Hr].
  exists r. split; [done |]. intros r' Hr'. by eapply raiz_fun.
Qed.

Lemma wf_acyclic uf x : wf V uf → ¬ ancestro (parent uf) x x.
Proof.
  intros Hwf Hc.
  assert (x ∈ V) as Hx.
  { rewrite <- (wf_dom_parent _ _ Hwf). apply elem_of_dom.
    by eapply ancestro_lookup. }
  destruct (wf_reach _ _ Hwf x Hx) as (r & n & Hr).
  by eapply ancestro_irrefl.
Qed.

(** Ranks along one operation. *)
Lemma ejecutar_rank uf o uf' :
  wf V uf → ejecutar uf o = Ok uf' →
  ∀ v k, rank uf !! v = Some k →
    ∃ k', rank uf' !! v = Some k' ∧ k ≤ k' ∧
      (k < k' →
         ∃ x y rx ry, o = OpUnion x y ∧ raiz uf x rx ∧ raiz uf y ry ∧ rx ≠ ry ∧
           rank uf !! rx = Some k ∧ rank uf !! ry = Some k ∧
           v = rx ∧ k' = k + 1).
Proof.
  intros Hwf Hex v k Hv. destruct o as [x | x y]; simpl in Hex.
  - destruct (find uf x) as [[uf1 r] |] eqn:H1; [| done]. cbn in Hex. simplify_eq.
    pose proof (find_ok_elem _ _ _ _ H1) as Hx. rewrite (wf_dom_parent _ _ Hwf) in Hx.
    destruct (find_raiz V _ _ _ _ Hwf Hx H1) as (_ & -> & _).
    exists k. split_and!; [done | lia | lia].
  - destruct (union uf x y) as [[uf1 b] |] eqn:H1; [| done]. cbn in Hex. simplify_eq.
    destruct (union_ok_elem _ _ _ _ _ Hwf H1) as [Hx Hy].
    destruct (wf_reach _ _ Hwf x Hx) as [rx Hrx].
    destruct (wf_reach _ _ Hwf y Hy) as [ry Hry].
    destruct (union_spec V uf x y rx ry Hwf Hrx Hry) as (uf2 & Hu & _ & Heq & Hne).
    rewrite H1 in Hu. simplify_eq.
    destruct (decide (rx = ry)) as [E | E].
    + destruct (Heq E) as [-> _]. exists k. split_and!; [done | lia | lia].
    + destruct (Hne E) as (j & j' & Hjx & Hjy & _ & _ & ->).
      destruct (decide (j = j')) as [<- | Ej];
        [| exists k; split_and!; [done | lia | lia]].
      destruct (decide (v = rx)) as [-> | Hvr].
      * rewrite lookup_insert_eq. rewrite Hv in Hjx. simplify_eq.
        exists (j + 1). split_and!; [done | lia |]. intros _.
        exists x, y, rx, ry. done.
      * rewrite lookup_insert_ne by done.
        exists k. split_and!; [done | lia | lia].
Qed.
End Reachable.

Lemma uf_profundo_alcanzable :
  alcanzable {["a"; "b"; "c"; "d"]} uf_profundo_estado.
Proof.
  apply (alcanzable_foldl _ (UnionFind_init {["a"; "b"; "c"; "d"]})
           [OpUnion "a" "b"; OpUnion "c" "d"; OpUnion "a" "c"]).
  - apply alc_init.
  - vm_compute. reflexivity.
Qed.

(** * The claims on the structure *)

(** C9.  In every state reachable from the initial one by calls to [find]
    and [union], every vertex leads through the parent links to exactly
    one root, no vertex is a proper ancestor of itself, and along any
    further operation a rank never decreases and grows (by one) only for
    the root kept by a [union] of two distinct roots of equal rank. *)
Theorem alcanzable_invariant (V : gset string) (uf : UnionFind) :
  alcanzable V uf →
  (∀ x, x ∈ V → exists ! r, raiz uf x r) ∧
  (∀ x, ¬ ancestro (parent uf) x x) ∧
  (∀ o uf', ejecutar uf o = Ok uf' →
     ∀ v k, rank uf !! v = Some k →
       ∃ k', rank uf' !! v = Some k' ∧ k ≤ k' ∧
         (k < k' →
            ∃ x y rx ry, o = OpUnion x y ∧ raiz uf x rx ∧ raiz uf y ry ∧ rx ≠ ry ∧
              rank uf !! rx = Some k ∧ rank uf !! ry = Some k ∧
              v = rx ∧ k' = k + 1)).
Proof.
  intros Hwf%alcanzable_wf. split_and!.
  - intros x Hx. by apply (wf_raiz_unique V).
  - intros x. by apply (wf_acyclic V).
  - intros o uf' Hex. by apply (ejecutar_rank V).
Qed.

(** C7.  In a reachable state, two consecutive calls [find(v)] both
    return the root of [v], the same one, and the second call leaves both
    dictionaries as they were. *)
Theorem find_twice (V : gset string) (uf : UnionFind) (v : string) :
  alcanzable V uf → v ∈ V →
  ∃ uf1 r1 uf2 r2,
    find uf v = Ok (uf1, r1) ∧ find uf1 v = Ok (uf2, r2) ∧
    raiz uf v r1 ∧ raiz uf1 v r2 ∧
    r1 = r2 ∧ parent uf2 = parent uf1 ∧ rank uf2 = rank uf1.
Proof.
  intros Hwf%alcanzable_wf Hv.
  destruct (find_spec V uf v Hwf Hv) as (p' & r & Hf & Hru & Hc & Hv' & Hr' & _).
  exists (MkUF p' (rank uf)), r, (MkUF p' (rank uf)), r.
  split_and!; [done | by apply find_flat | done | | done | done | done].
  by apply (compressed_raiz uf).
Qed.

(** C8, as the code has it.  In a reachable state [union(a, a)] returns
    [False] and leaves the ranks as they were; the parent dictionary is
    left as [find(a)] leaves it: compressed along the way from [a] to its
    root, with every vertex keeping its root. *)
Theorem union_self (V : gset string) (uf : UnionFind) (a : string) :
  alcanzable V uf → a ∈ V →
  ∃ uf' r,
    union uf a a = Ok (uf', false) ∧ find uf a = Ok (uf', r) ∧
    rank uf' = rank uf ∧ compressed (parent uf) (parent uf') ∧
    ∀ z q, raiz uf z q ↔ raiz uf' z q.
Proof.
  intros Hwf%alcanzable_wf Ha.
  destruct (find_spec V uf a Hwf Ha) as (p' & r & Hf & _ & Hc & Ha' & Hr' & _).
  exists (MkUF p' (rank uf)), r.
  split_and!; [| done | done | done | intros z q; by apply compressed_raiz].
  unfold union. rewrite Hf. cbn.
  rewrite (find_flat (MkUF p' (rank uf)) a r Ha' Hr'). cbn.
  by rewrite decide_True.
Qed.

Lemma union_self_witness :
  ∃ uf' r,
    union uf_profundo_estado "d" "d" = Ok (uf', false) ∧
    find uf_profundo_estado "d" = Ok (uf', r) ∧
    rank uf' = rank uf_profundo_estado ∧
    compressed (parent uf_profundo_estado) (parent uf') ∧
    ∀ z q, raiz uf_profundo_estado z q ↔ raiz uf' z q.
Proof.
  apply (union_self {["a"; "b"; "c"; "d"]} uf_profundo_estado "d").
  - apply (alcanzable_foldl _ (UnionFind_init {["a"; "b"; "c"; "d"]})
             [OpUnion "a" "b"; OpUnion "c" "d"; OpUnion "a" "c"]).
    + apply alc_init.
    + vm_compute. reflexivity.
  - vm_compute. reflexivity.
Defined.

(** C8, as stated, fails: in the state reached by [union("a","b")],
    [union("c","d")], [union("a","c")], the call [union("d","d")] returns
    [False] but re-points "d" from "c" to the root "a". *)
Lemma union_self_changes_parent :
  alcanzable {["a"; "b"; "c"; "d"]} uf_profundo_estado ∧
  "d" ∈ ({["a"; "b"; "c"; "d"]} : gset string) ∧
  ∃ uf', union uf_profundo_estado "d" "d" = Ok (uf', false) ∧
         parent uf_profundo_estado !! "d" = Some "c" ∧
         parent uf' !! "d" = Some "a" ∧
         parent uf' ≠ parent uf_profundo_estado.
Proof.
  split; [apply uf_profundo_alcanzable |].
  split; [vm_compute; reflexivity |].
  assert (∃ uf', union uf_profundo_estado "d" "d" = Ok (uf', false) ∧
            parent uf_profundo_estado !! "d" = Some "c" ∧
            parent uf' !! "d" = Some "a")
    as (uf' & Hu & Hd & Hd').
  { vm_compute. eexists. split_and!; reflexivity. }
  exists uf'. split_and!; [done | done | done |].
  intros E. rewrite E, Hd in Hd'. done.
Qed.

(** * Sorting *)

Section Sorting.
Context (reverse : bool).

Lemma key_le_total a b : key_le reverse a b = false → key_le reverse b a = true.
Proof. unfold key_le. destruct reverse; lia. Qed.

Lemma key_le_trans a b c :
  key_le reverse a b = true → key_le reverse b c = true → key_le reverse a c = true.
Proof. unfold key_le. destruct reverse; lia. Qed.

Lemma insertar_perm e l : insertar reverse e l ≡ₚ e :: l.
Proof.
  induction l as [| y l IH]; simpl; [done |].
  destruct (key_le reverse (peso e) (peso y)); [done |].
  rewrite IH. apply Permutation_swap.
Qed.

Lemma sorted_perm l : sorted l reverse ≡ₚ l.
Proof.
  induction l as [| e l IH]; simpl; [done |].
  unfold sorted in *. simpl. by rewrite insertar_perm, IH.
Qed.

Lemma insertar_sorted e l :
  StronglySorted (antes reverse) l → StronglySorted (antes reverse) (insertar reverse e l).
Proof.
  induction 1 as [| y l Hl IH Hy]; simpl.
  - repeat constructor.
  - destruct (key_le reverse (peso e) (peso y)) eqn:E.
    + constructor; [by constructor |]. constructor; [done |].
      eapply Forall_impl; [exact Hy |]. intros z Hz. by eapply key_le_trans.
    + constructor; [done |]. rewrite insertar_perm. constructor; [| done].
      by apply key_le_total.
Qed.

Lemma sorted_sorted l : StronglySorted (antes reverse) (sorted l reverse).
Proof.
  induction l as [| e l IH]; [constructor |]. by apply insertar_sorted.
Qed.

(** The sort is stable: edges of equal weight keep their input order. *)
Lemma insertar_filter (k : Z) e l :
  filter (λ a, peso a = k) (insertar reverse e l) = filter (λ a, peso a = k) (e :: l).
Proof.
  induction l as [| y l IH]; simpl; [done |].
  destruct (key_le reverse (peso e) (peso y)) eqn:E; [done |].
  rewrite (filter_cons _ y), IH, !filter_cons.
  destruct (decide (peso y = k)) as [Hy | Hy], (decide (peso e = k)) as [He | He];
    try done.
  exfalso. rewrite Hy, He in E. unfold key_le in E. destruct reverse; lia.
Qed.

Lemma sorted_stable (k : Z) l :
  filter (λ a, peso a = k) (sorted l reverse) = filter (λ a, peso a = k) l.
Proof.
  induction l as [| e l IH]; [done |].
  unfold sorted in *. simpl. by rewrite insertar_filter, !filter_cons, IH.
Qed.
End Sorting.

(** * The vertices and the graph of an edge list *)

Lemma elem_of_nodos_de (aristas : list arista) (x : string) :
  x ∈ nodos_de aristas ↔ ∃ u v w, (u, v, w) ∈ aristas ∧ (x = u ∨ x = v).
Proof.
  unfold nodos_de.
  assert (∀ acc : gset string,
            x ∈ foldl (λ nodos '(u, v, _), (nodos ∪ {[u]}) ∪ {[v]}) acc aristas ↔
            x ∈ acc ∨ ∃ u v w, (u, v, w) ∈ aristas ∧ (x = u ∨ x = v)) as H.
  { induction aristas as [| [[u v] w] l IH]; intros acc; simpl.
    - split; [by left |]. intros [? | (u & v & w & []%elem_of_nil & _)]; done.
    - rewrite IH, !elem_of_union, !elem_of_singleton. split.
      + intros [[[? | ->] | ->] | (u' & v' & w' & Hin & Hx)].
        * by left.
        * right. exists u, v, w. split; [left | by left].
        * right. exists u, v, w. split; [left | by right].
        * right. exists u', v', w'. split; [by right | done].
      + intros [? | (u' & v' & w' & [E | Hin]%elem_of_cons & Hx)].
        * by left; left; left.
        * simplify_eq. left. destruct Hx as [-> | ->]; [left; by right | by right].
        * right. by exists u', v', w'. }
  rewrite H. split; [intros [[]%elem_of_empty | ?]; done | by right].
Qed.

Lemma nodos_de_perm (l1 l2 : list arista) : l1 ≡ₚ l2 → nodos_de l1 = nodos_de l2.
Proof.
  intros Hp. apply set_eq. intros x. rewrite !elem_of_nodos_de.
  by setoid_rewrite Hp.
Qed.

Lemma conn_mono (es es' : list arista) x y :
  (∀ e, e ∈ es → e ∈ es') → conn es x y → conn es' x y.
Proof.
  intros Hsub. induction 1 as [x | u v w Hin | x y _ IH | x y z _ IH1 _ IH2].
  - apply conn_refl.
  - eapply conn_edge, Hsub, Hin.
  - by apply conn_sym.
  - by eapply conn_trans.
Qed.

Lemma conexo_perm (l1 l2 : list arista) : l1 ≡ₚ l2 → conexo l1 → conexo l2.
Proof.
  intros Hp Hc x y Hx Hy. rewrite <- (nodos_de_perm _ _ Hp) in Hx, Hy.
  eapply conn_mono; [| by apply Hc]. intros e. by rewrite Hp.
Qed.

(** * The main loop *)

Section Kruskal.
Context (V : gset string) (orden : gset string → list string).
Hypothesis Horden : orden_de orden V.
Implicit Types uf : UnionFind.

Lemma print_componentes_loop_spec uf ns :
  wf V uf → (∀ n, n ∈ ns → n ∈ V) →
  ∃ uf', print_componentes_loop uf ns = Ok uf' ∧ wf V uf' ∧
         rank uf' = rank uf ∧ compressed (parent uf) (parent uf').
Proof.
  revert uf. induction ns as [| n ns IH]; intros uf Hwf Hns; simpl.
  - exists uf. split_and!; [done | done | done | apply compressed_refl].
  - destruct (find_spec V uf n Hwf) as (p1 & r & Hf & _ & Hc & _ & _ & Hwf1).
    { apply Hns. by left. }
    rewrite Hf. cbn.
    destruct (IH _ Hwf1) as (uf' & Hl & Hwf' & Hrk & Hc').
    { intros m Hm. apply Hns. by right. }
    exists uf'. split_and!; [done | done | done |].
    by eapply compressed_trans.
Qed.

Lemma print_componentes_spec uf :
  wf V uf →
  ∃ uf', print_componentes orden uf V = Ok uf' ∧ wf V uf' ∧
         rank uf' = rank uf ∧ compressed (parent uf) (parent uf').
Proof. intros Hwf. by apply print_componentes_loop_spec. Qed.

Lemma size_raices_remove (X : gset string) a :
  a ∈ X → size X = S (size (X ∖ {[a]})).
Proof.
  intros Ha. rewrite size_difference by set_solver. rewrite size_singleton.
  assert (size ({[a]} : gset string) ≤ size X) as Hle by (apply subseteq_size; set_solver).
  rewrite size_singleton in Hle. lia.
Qed.

(** One turn of the loop keeps the invariant. *)
Lemma paso_spec hechas st u v w :
  inv V hechas st → u ∈ V → v ∈ V →
  ∃ st', paso orden V st (u, v, w) = Ok st' ∧ inv V (hechas ++ [(u, v, w)]) st'.
Proof.
  intros [Hwf Hsound Hcompl Hcount Htraza] Hu Hv.
  destruct st as [uf arb cst tr]. simpl in *.
  destruct (find_spec V uf u Hwf Hu) as (p1 & ru & Hf1 & Hru & Hc1 & _ & _ & Hwf1).
  set (uf1 := MkUF p1 (rank uf)) in *.
  destruct (find_spec V uf1 v Hwf1 Hv) as (p2 & rv & Hf2 & Hrv1 & Hc2 & _ & _ & Hwf2).
  simpl in Hf2, Hwf2. set (uf2 := MkUF p2 (rank uf)) in *.
  assert (∀ z r, raiz uf z r ↔ raiz uf2 z r) as Hraiz.
  { intros z r. rewrite (compressed_raiz uf uf1) by done.
    by apply (compressed_raiz uf1 uf2). }
  assert (raiz uf v rv) as Hrv by (by apply (compressed_raiz uf uf1)).
  clear Hrv1.
  assert (raices p2 = raices (parent uf)) as Hraices.
  { rewrite (compressed_raices _ _ Hc2). apply (compressed_raices _ _ Hc1). }
  assert (∀ a b q, raiz uf a q → raiz uf b q → conn (hechas ++ [(u, v, w)]) a b) as H0.
  { intros a b q Ha Hb. eapply conn_mono; [| by eapply Hsound].
    intros e He. apply elem_of_app. by left. }
  assert (conn (hechas ++ [(u, v, w)]) u v) as Hedge.
  { apply (conn_edge _ u v w). apply elem_of_app. right. by left. }
  cbn. rewrite Hf1. cbn. rewrite Hf2. cbn.
  destruct (decide (ru ≠ rv)) as [Hne | Heq%dec_stable].
  - destruct (union_spec V uf2 u v ru rv Hwf2) as (uf3 & Hun & Hwf3 & _ & Hdiff);
      [by apply Hraiz | by apply Hraiz |].
    destruct (Hdiff Hne) as (krx & kry & _ & _ & Hr3 & Hmove & _).
    set (pierde := if decide (krx < kry) then ru else rv) in *.
    set (gana := if decide (krx < kry) then rv else ru) in *.
    assert (gana = ru ∧ pierde = rv ∨ gana = rv ∧ pierde = ru) as Hgp.
    { unfold gana, pierde. destruct (decide (krx < kry)); auto. }
    clearbody gana pierde.
    rewrite bool_decide_eq_true_2 in Hun by done.
    rewrite Hun. cbn.
    destruct (print_componentes_spec uf3 Hwf3) as (uf4 & Hpc & Hwf4 & _ & Hc4).
    rewrite Hpc. cbn. eexists. split; [done |].
    assert (∀ z r, raiz uf z r →
              raiz uf4 z (if decide (r = pierde) then gana else r)) as Hmove'.
    { intros z r Hz%Hraiz%Hmove. by apply (compressed_raiz uf3 uf4). }
    split; simpl.
    + done.
    + intros x y r Hx Hy.
      destruct (raiz_elem V _ _ _ Hwf4 Hx) as [HxV _].
      destruct (raiz_elem V _ _ _ Hwf4 Hy) as [HyV _].
      destruct (wf_reach _ _ Hwf x HxV) as [rx0 Hx0].
      destruct (wf_reach _ _ Hwf y HyV) as [ry0 Hy0].
      pose proof (raiz_fun _ _ _ _ Hx (Hmove' _ _ Hx0)) as Ex.
      pose proof (raiz_fun _ _ _ _ Hy (Hmove' _ _ Hy0)) as Ey.
      destruct (decide (rx0 = pierde)) as [-> | Hxp];
        destruct (decide (ry0 = pierde)) as [-> | Hyp]; subst.
      * by eapply H0.
      * destruct Hgp as [[-> ->] | [-> ->]].
        -- eapply conn_trans; [by eapply (H0 x v) |].
           eapply conn_trans; [apply conn_sym, Hedge |]. by eapply (H0 u y).
        -- eapply conn_trans; [by eapply (H0 x u) |].
           eapply conn_trans; [apply Hedge |]. by eapply (H0 v y).
      * destruct Hgp as [[E ->] | [E ->]]; rewrite E in *.
        -- eapply conn_trans; [by eapply (H0 x u) |].
           eapply conn_trans; [apply Hedge |]. by eapply (H0 v y).
        -- eapply conn_trans; [by eapply (H0 x v) |].
           eapply conn_trans; [apply conn_sym, Hedge |]. by eapply (H0 u y).
      * by eapply H0.
    + intros u' v' w' [Hin | Hin%list_elem_of_singleton]%elem_of_app.
      * destruct (Hcompl _ _ _ Hin) as (r & Hu' & Hv'). eauto.
      * simplify_eq. exists gana. split.
        -- pose proof (Hmove' _ _ Hru) as H. case_decide; [done |].
           destruct Hgp as [[-> ->] | [-> ->]]; done.
        -- pose proof (Hmove' _ _ Hrv) as H. case_decide; [done |].
           destruct Hgp as [[-> ->] | [-> ->]]; done.
    + rewrite (compressed_raices _ _ Hc4), Hr3. simpl. rewrite Hraices.
      rewrite length_app. simpl.
      assert (pierde ∈ raices (parent uf)) as Hp.
      { apply elem_of_raices.
        destruct Hgp as [[_ ->] | [_ ->]]; by eapply raiz_is_root. }
      rewrite (size_raices_remove _ _ Hp) in Hcount. lia.
    + rewrite fmap_app. simpl. by rewrite Htraza.
  - subst rv.
    destruct (print_componentes_spec uf2 Hwf2) as (uf4 & Hpc & Hwf4 & _ & Hc4).
    rewrite Hpc. cbn. eexists. split; [done |].
    assert (∀ z r, raiz uf z r ↔ raiz uf4 z r) as Hraiz4.
    { intros z r. rewrite Hraiz. by apply (compressed_raiz uf2 uf4). }
    split; simpl.
    + done.
    + intros x y r Hx%Hraiz4 Hy%Hraiz4. by eapply H0.
    + intros u' v' w' [Hin | Hin%list_elem_of_singleton]%elem_of_app.
      * destruct (Hcompl _ _ _ Hin) as (r & Hu' & Hv').
        exists r. split; by apply Hraiz4.
      * simplify_eq. exists ru. split; by apply Hraiz4.
    + rewrite (compressed_raices _ _ Hc4). simpl. by rewrite Hraices.
    + rewrite fmap_app. simpl. by rewrite Htraza.
Qed.

Lemma bucle_spec hechas st es :
  inv V hechas st →
  (∀ u v w, (u, v, w) ∈ es → u ∈ V ∧ v ∈ V) →
  ∃ st', bucle orden V st es = Ok st' ∧ inv V (hechas ++ es) st'.
Proof.
  revert hechas st. induction es as [| [[u v] w] es IH]; intros hechas st Hinv Hes.
  - exists st. rewrite app_nil_r. done.
  - destruct (Hes u v w) as [Hu Hv]; [by left |].
    destruct (paso_spec hechas st u v w Hinv Hu Hv) as (st1 & Hp & Hinv1).
    destruct (IH _ _ Hinv1) as (st' & Hb & Hinv').
    { intros u' v' w' Hin. apply (Hes u' v' w'). by right. }
    exists st'. cbn [bucle]. rewrite Hp. cbn. rewrite Hb.
    rewrite <- app_assoc in Hinv'. done.
Qed.

Lemma inv_init uf0 :
  print_componentes orden (UnionFind_init V) V = Ok uf0 →
  inv V [] (MkEstado uf0 [] 0 []).
Proof.
  intros Hpc.
  destruct (print_componentes_spec _ (wf_init V)) as (uf' & Hpc' & Hwf & _ & Hc).
  rewrite Hpc in Hpc'. simplify_eq.
  assert (∀ z r, raiz uf' z r → r = z) as Hself.
  { intros z r Hz. apply (compressed_raiz (UnionFind_init V) uf' z r Hc) in Hz.
    destruct (raiz_elem V _ _ _ (wf_init V) Hz) as [HzV _].
    eapply raiz_fun; [exact Hz |]. apply raiz_root. by apply init_parent. }
  split; simpl.
  - done.
  - intros x y r Hx%Hself Hy%Hself. subst. apply conn_refl.
  - intros u v w []%elem_of_nil.
  - rewrite (compressed_raices _ _ Hc).
    replace (raices (parent (UnionFind_init V))) with V; [lia |].
    apply set_eq. intros z. rewrite elem_of_raices. split.
    + apply init_parent.
    + intros Hz. rewrite <- (wf_dom_parent _ _ (wf_init V)). apply elem_of_dom. eauto.
  - done.
Qed.
End Kruskal.

Lemma orden_de_elements (V : gset string) : orden_de elements V.
Proof. intros x. by rewrite elem_of_elements. Qed.

Lemma aristas_ordenadas_nodos (aristas : list arista) (tipo : string) u v w :
  (u, v, w) ∈ aristas_ordenadas aristas tipo →
  u ∈ nodos_de aristas ∧ v ∈ nodos_de aristas.
Proof.
  intros Hin.
  assert ((u, v, w) ∈ aristas) as Hin'.
  { unfold aristas_ordenadas in Hin. case_decide; by rewrite sorted_perm in Hin. }
  rewrite !elem_of_nodos_de. split; exists u, v, w; auto.
Qed.

(** [kruskal] runs to the end on every edge list, whatever the order in
    which the set of vertices is visited, and leaves the invariant on the
    whole sorted list. *)
Lemma kruskal_run_con_spec orden (aristas : list arista) (tipo : string) :
  orden_de orden (nodos_de aristas) →
  ∃ st, kruskal_run_con orden aristas tipo = Ok st ∧
        inv (nodos_de aristas) (aristas_ordenadas aristas tipo) st.
Proof.
  intros Horden. unfold kruskal_run_con. cbn zeta.
  destruct (print_componentes_spec _ _ Horden _ (wf_init (nodos_de aristas)))
    as (uf0 & Hpc & _).
  rewrite Hpc. cbn.
  apply (bucle_spec _ _ Horden [] _ _ (inv_init _ _ Horden _ Hpc)).
  apply aristas_ordenadas_nodos.
Qed.

Lemma kruskal_run_spec (aristas : list arista) (tipo : string) :
  ∃ st, kruskal_run aristas tipo = Ok st ∧
        inv (nodos_de aristas) (aristas_ordenadas aristas tipo) st.
Proof. apply kruskal_run_con_spec, orden_de_elements. Qed.

Lemma aristas_ordenadas_perm (aristas : list arista) (tipo : string) :
  aristas_ordenadas aristas tipo ≡ₚ aristas.
Proof. unfold aristas_ordenadas. case_decide; apply sorted_perm. Qed.

(** * The order in which the set of vertices is visited *)

Section Orden.
Context (V : gset string) (orden orden' : gset string → list string).
Hypothesis Horden : orden_de orden V.
Hypothesis Horden' : orden_de orden' V.
Implicit Types uf : UnionFind.

Lemma equiv_compressed uf uf1 :
  rank uf1 = rank uf → compressed (parent uf) (parent uf1) → equiv uf uf1.
Proof. intros Hrk Hc. split; [done |]. intros z r. by apply compressed_raiz. Qed.

Lemma equiv_sym uf uf' : equiv uf uf' → equiv uf' uf.
Proof. intros [Hrk Hr]. split; [done |]. intros z r. by rewrite Hr. Qed.

Lemma equiv_trans uf1 uf2 uf3 : equiv uf1 uf2 → equiv uf2 uf3 → equiv uf1 uf3.
Proof.
  intros [Hrk Hr] [Hrk' Hr']. split; [congruence |].
  intros z r. by rewrite Hr, Hr'.
Qed.

(** Representatives that are moved the same way stay the same. *)
Lemma raiz_transport uf uf' ufA ufB (f : string → string) :
  wf V uf → wf V ufA → wf V ufB →
  (∀ z r, raiz uf z r ↔ raiz uf' z r) →
  (∀ z r, raiz uf z r → raiz ufA z (f r)) →
  (∀ z r, raiz uf' z r → raiz ufB z (f r)) →
  ∀ z q, raiz ufA z q ↔ raiz ufB z q.
Proof.
  intros Hwf HwfA HwfB Heq HA HB z q. split; intros Hz.
  - destruct (raiz_elem V _ _ _ HwfA Hz) as [HzV _].
    destruct (wf_reach _ _ Hwf z HzV) as [r Hr].
    rewrite (raiz_fun _ _ _ _ Hz (HA _ _ Hr)). apply HB. by apply Heq.
  - destruct (raiz_elem V _ _ _ HwfB Hz) as [HzV _].
    destruct (wf_reach _ _ Hwf z HzV) as [r Hr].
    rewrite (raiz_fun _ _ _ _ Hz (HB _ _ (proj1 (Heq _ _) Hr))). by apply HA.
Qed.

Lemma find_equiv uf uf' x :
  wf V uf → wf V uf' → equiv uf uf' → x ∈ V →
  ∃ uf1 uf1' r, find uf x = Ok (uf1, r) ∧ find uf' x = Ok (uf1', r) ∧
    wf V uf1 ∧ wf V uf1' ∧ equiv uf1 uf1'.
Proof.
  intros Hwf Hwf' Heq Hx.
  destruct (find_spec V uf x Hwf Hx) as (p1 & r & Hf & Hr & Hc & _ & _ & Hwf1).
  destruct (find_spec V uf' x Hwf' Hx) as (p1' & r' & Hf' & Hr' & Hc' & _ & _ & Hwf1').
  assert (r' = r) as ->.
  { eapply raiz_fun; [exact Hr' |]. by apply Heq. }
  eexists _, _, r. split_and!; [done | done | done | done |].
  eapply equiv_trans; [apply equiv_sym, equiv_compressed; [| exact Hc]; done |].
  eapply equiv_trans; [exact Heq |]. by apply equiv_compressed.
Qed.

Lemma union_equiv uf uf' x y :
  wf V uf → wf V uf' → equiv uf uf' → x ∈ V → y ∈ V →
  ∃ uf1 uf1' b, union uf x y = Ok (uf1, b) ∧ union uf' x y = Ok (uf1', b) ∧
    wf V uf1 ∧ wf V uf1' ∧ equiv uf1 uf1'.
Proof.
  intros Hwf Hwf' [Hrk Heq] Hx Hy.
  destruct (wf_reach _ _ Hwf x Hx) as [rx Hrx].
  destruct (wf_reach _ _ Hwf y Hy) as [ry Hry].
  destruct (union_spec V uf x y rx ry Hwf Hrx Hry) as (uf1 & Hu & Hwf1 & Hsame & Hdiff).
  destruct (union_spec V uf' x y rx ry Hwf') as (uf1' & Hu' & Hwf1' & Hsame' & Hdiff');
    [by apply Heq | by apply Heq |].
  exists uf1, uf1', (bool_decide (rx ≠ ry)).
  split_and!; [done | done | done | done |].
  destruct (decide (rx = ry)) as [E | E].
  - destruct (Hsame E) as [Hr1 Hc1]. destruct (Hsame' E) as [Hr1' Hc1'].
    eapply equiv_trans; [apply equiv_sym, equiv_compressed; [| exact Hc1]; done |].
    eapply equiv_trans; [split; [exact Hrk | exact Heq] |].
    by apply equiv_compressed.
  - destruct (Hdiff E) as (krx & kry & Hkx & Hky & _ & Hmove & Hr1).
    destruct (Hdiff' E) as (krx' & kry' & Hkx' & Hky' & _ & Hmove' & Hr1').
    rewrite <- Hrk in Hkx', Hky'. rewrite Hkx in Hkx'. rewrite Hky in Hky'.
    simplify_eq. split.
    + rewrite Hr1, Hr1'. by rewrite Hrk.
    + by apply (raiz_transport uf uf' uf1 uf1'
             (λ r, if decide (r = (if decide (krx' < kry') then rx else ry))
                   then (if decide (krx' < kry') then ry else rx) else r)).
Qed.

Lemma print_equiv uf uf' :
  wf V uf → wf V uf' → equiv uf uf' →
  ∃ uf1 uf1', print_componentes orden uf V = Ok uf1 ∧
    print_componentes orden' uf' V = Ok uf1' ∧
    wf V uf1 ∧ wf V uf1' ∧ equiv uf1 uf1'.
Proof.
  intros Hwf Hwf' Heq.
  destruct (print_componentes_spec V orden Horden uf Hwf) as (uf1 & Hp & Hwf1 & Hr & Hc).
  destruct (print_componentes_spec V orden' Horden' uf' Hwf') as (uf1' & Hp' & Hwf1' & Hr' & Hc').
  exists uf1, uf1'. split_and!; [done | done | done | done |].
  eapply equiv_trans; [apply equiv_sym, equiv_compressed; [| exact Hc]; done |].
  eapply equiv_trans; [exact Heq |]. by apply equiv_compressed.
Qed.

Lemma paso_parejos st st' u v w :
  parejos V st st' → u ∈ V → v ∈ V →
  ∃ st1 st1', paso orden V st (u, v, w) = Ok st1 ∧
    paso orden' V st' (u, v, w) = Ok st1' ∧ parejos V st1 st1'.
Proof.
  intros (Hwf & Hwf' & Heq & Ha & Hc & Ht) Hu Hv.
  destruct st as [uf arb cst tr], st' as [uf' arb' cst' tr']. simpl in *. subst.
  destruct (find_equiv uf uf' u Hwf Hwf' Heq Hu)
    as (uf1 & uf1' & ru & Hf1 & Hf1' & Hwf1 & Hwf1' & Heq1).
  destruct (find_equiv uf1 uf1' v Hwf1 Hwf1' Heq1 Hv)
    as (uf2 & uf2' & rv & Hf2 & Hf2' & Hwf2 & Hwf2' & Heq2).
  cbn. rewrite Hf1, Hf1'. cbn. rewrite Hf2, Hf2'. cbn.
  destruct (decide (ru ≠ rv)).
  - destruct (union_equiv uf2 uf2' u v Hwf2 Hwf2' Heq2 Hu Hv)
      as (uf3 & uf3' & b & Hu3 & Hu3' & Hwf3 & Hwf3' & Heq3).
    rewrite Hu3, Hu3'. cbn.
    destruct (print_equiv uf3 uf3' Hwf3 Hwf3' Heq3)
      as (uf4 & uf4' & Hp & Hp' & Hwf4 & Hwf4' & Heq4).
    rewrite Hp, Hp'. cbn. eexists _, _. split_and!; [done | done |].
    exact (conj Hwf4 (conj Hwf4' (conj Heq4 (conj eq_refl (conj eq_refl eq_refl))))).
  - destruct (print_equiv uf2 uf2' Hwf2 Hwf2' Heq2)
      as (uf4 & uf4' & Hp & Hp' & Hwf4 & Hwf4' & Heq4).
    rewrite Hp, Hp'. cbn. eexists _, _. split_and!; [done | done |].
    exact (conj Hwf4 (conj Hwf4' (conj Heq4 (conj eq_refl (conj eq_refl eq_refl))))).
Qed.

Lemma bucle_parejos st st' es :
  parejos V st st' →
  (∀ u v w, (u, v, w) ∈ es → u ∈ V ∧ v ∈ V) →
  ∃ st1 st1', bucle orden V st es = Ok st1 ∧
    bucle orden' V st' es = Ok st1' ∧ parejos V st1 st1'.
Proof.
  revert st st'. induction es as [| [[u v] w] es IH]; intros st st' Hpar Hes.
  - exists st, st'. done.
  - destruct (Hes u v w) as [Hu Hv]; [by left |].
    destruct (paso_parejos st st' u v w Hpar Hu Hv) as (st1 & st1' & Hp & Hp' & Hpar1).
    destruct (IH _ _ Hpar1) as (st2 & st2' & Hb & Hb' & Hpar2).
    { intros u' v' w' Hin. apply (Hes u' v' w'). by right. }
    exists st2, st2'. cbn [bucle]. rewrite Hp, Hp'. cbn. by rewrite Hb, Hb'.
Qed.
End Orden.

(** Whatever the order in which the set of vertices is visited, the run
    tries the same edges, finds the same roots, accepts the same edges
    and returns the same pair. *)
Theorem kruskal_run_con_orden orden (aristas : list arista) (tipo : string) :
  orden_de orden (nodos_de aristas) →
  ∃ st st', kruskal_run_con orden aristas tipo = Ok st ∧
    kruskal_run aristas tipo = Ok st' ∧
    arbol st = arbol st' ∧ coste_total st = coste_total st' ∧ traza st = traza st'.
Proof.
  intros Horden. unfold kruskal_run, kruskal_run_con. cbn zeta.
  set (V := nodos_de aristas) in *.
  destruct (print_equiv V orden elements Horden (orden_de_elements V)
              (UnionFind_init V) (UnionFind_init V) (wf_init V) (wf_init V))
    as (uf0 & uf0' & Hp & Hp' & Hwf0 & Hwf0' & Heq0).
  { by split. }
  rewrite Hp, Hp'. cbn.
  destruct (bucle_parejos V orden elements Horden (orden_de_elements V)
              (MkEstado uf0 [] 0 []) (MkEstado uf0' [] 0 [])
              (aristas_ordenadas aristas tipo))
    as (st & st' & Hb & Hb' & _ & _ & _ & Ha & Hc & Ht).
  { exact (conj Hwf0 (conj Hwf0' (conj Heq0 (conj eq_refl (conj eq_refl eq_refl))))). }
  { apply aristas_ordenadas_nodos. }
  exists st, st'. done.
Qed.

Corollary kruskal_con_orden orden (aristas : list arista) (tipo : string) :
  orden_de orden (nodos_de aristas) →
  kruskal_con orden aristas tipo = kruskal aristas tipo.
Proof.
  intros Horden.
  destruct (kruskal_run_con_orden orden aristas tipo Horden)
    as (st & st' & Hr & Hr' & Ha & Hc & _).
  unfold kruskal, kruskal_con. fold (kruskal_run aristas tipo).
  rewrite Hr, Hr'. cbn. by rewrite Ha, Hc.
Qed.

(** * The claims on kruskal *)

Lemma StronglySorted_mono {A} (R R' : A → A → Prop) (l : list A) :
  (∀ a b, R a b → R' a b) → StronglySorted R l → StronglySorted R' l.
Proof.
  intros HR. induction 1 as [| a l _ IH Ha]; constructor; [done |].
  eapply Forall_impl; [exact Ha | apply HR].
Qed.

(** On integer weights [kruskal] runs to the end and the edges it tries,
    in the order it tries them, are the input edges rearranged by weight:
    never decreasing for "min", never increasing for any other mode. *)
Lemma kruskal_order_enteros (aristas : list arista) (tipo : string) :
  ∃ st, kruskal_run aristas tipo = Ok st ∧
    ev_arista <$> traza st ≡ₚ aristas ∧
    (tipo = "min" →
       StronglySorted (λ a b, (peso a ≤ peso b)%Z) (ev_arista <$> traza st)) ∧
    (tipo ≠ "min" →
       StronglySorted (λ a b, (peso b ≤ peso a)%Z) (ev_arista <$> traza st)).
Proof.
  destruct (kruskal_run_spec aristas tipo) as (st & Hrun & Hinv).
  exists st. rewrite (inv_traza _ _ _ Hinv).
  split_and!; [done | apply aristas_ordenadas_perm | |].
  - intros ->. unfold aristas_ordenadas. rewrite decide_True by done.
    eapply StronglySorted_mono; [| apply sorted_sorted].
    intros a b. unfold antes, key_le. lia.
  - intros Hne. unfold aristas_ordenadas. rewrite decide_False by done.
    eapply StronglySorted_mono; [| apply sorted_sorted].
    intros a b. unfold antes, key_le. lia.
Qed.

Section Counting.
Context (V : gset string) (hechas : list arista) (st : estado).
Hypothesis Hinv : inv V hechas st.

Lemma conn_same_root x y :
  conn hechas x y → ∀ r, raiz (uf_de st) x r ↔ raiz (uf_de st) y r.
Proof.
  induction 1 as [x | u v w Hin | x y _ IH | x y z _ IH1 _ IH2]; intros r.
  - done.
  - destruct (inv_complete _ _ _ Hinv _ _ _ Hin) as (q & Hu & Hv).
    split; intros H.
    + by rewrite (raiz_fun _ _ _ _ H Hu).
    + by rewrite (raiz_fun _ _ _ _ H Hv).
  - by rewrite IH.
  - by rewrite IH1, IH2.
Qed.

Lemma raices_nonempty x : x ∈ V → 0 < size (raices (parent (uf_de st))).
Proof.
  intros Hx. destruct (wf_reach _ _ (inv_wf _ _ _ Hinv) x Hx) as [r Hr].
  apply raiz_is_root, raices_root in Hr.
  destruct (decide (size (raices (parent (uf_de st))) = 0)) as [E | ?]; [| lia].
  apply size_empty_inv in E. set_solver.
Qed.

(** One root is left exactly when every two vertices are joined. *)
Lemma one_root_iff_joined x0 :
  x0 ∈ V →
  size (raices (parent (uf_de st))) = 1 ↔
  ∀ x y, x ∈ V → y ∈ V → conn hechas x y.
Proof.
  intros Hx0. pose proof (inv_wf _ _ _ Hinv) as Hwf. split.
  - intros (q & Hq)%size_1_elem_of x y Hx Hy.
    destruct (wf_reach _ _ Hwf x Hx) as [rx Hrx].
    destruct (wf_reach _ _ Hwf y Hy) as [ry Hry].
    assert (∀ z r, raiz (uf_de st) z r → r = q) as Hall.
    { intros z r Hz%raiz_is_root%raices_root. set_solver. }
    rewrite (Hall _ _ Hrx) in Hrx. rewrite (Hall _ _ Hry) in Hry.
    by eapply (inv_sound _ _ _ Hinv).
  - intros Hall. destruct (wf_reach _ _ Hwf x0 Hx0) as [q Hq].
    replace (raices (parent (uf_de st))) with ({[q]} : gset string);
      [apply size_singleton |].
    apply set_eq. intros r. rewrite elem_of_singleton, elem_of_raices. split.
    + intros ->. by eapply raiz_is_root.
    + intros Hr%raiz_root.
      destruct (raiz_elem V _ _ _ Hwf Hr) as [HrV _].
      apply (conn_same_root _ _ (Hall r x0 HrV Hx0)) in Hq.
      by eapply raiz_fun.
Qed.
End Counting.

(** C6, as the code has it.  For a non-empty edge list, whatever the mode,
    [kruskal] returns and the number of accepted edges is at most the
    number of distinct vertices minus one, with equality exactly when the
    input graph is connected. *)
Theorem kruskal_edge_count (aristas : list arista) (tipo : string) :
  aristas ≠ [] →
  ∃ arb coste, kruskal aristas tipo = Ok (arb, coste) ∧
    (Z.of_nat (length arb) ≤ Z.of_nat (size (nodos_de aristas)) - 1)%Z ∧
    ((Z.of_nat (length arb) = Z.of_nat (size (nodos_de aristas)) - 1)%Z ↔
     conexo aristas).
Proof.
  intros Hne.
  destruct (kruskal_run_spec aristas tipo) as (st & Hrun & Hinv).
  exists (arbol st), (coste_total st).
  unfold kruskal, kruskal_con. fold (kruskal_run aristas tipo). rewrite Hrun. cbn.
  split; [done |].
  assert (∃ x0, x0 ∈ nodos_de aristas) as [x0 Hx0].
  { destruct aristas as [| [[u v] w] l]; [done |].
    exists u. apply elem_of_nodos_de. exists u, v, w. split; [by left | by left]. }
  pose proof (raices_nonempty _ _ _ Hinv x0 Hx0) as Hpos.
  pose proof (inv_count _ _ _ Hinv) as Hcount.
  pose proof (one_root_iff_joined _ _ _ Hinv x0 Hx0) as Hone.
  split; [lia |]. split.
  - intros Heq. assert (size (raices (parent (uf_de st))) = 1) as H1 by lia.
    apply (conexo_perm (aristas_ordenadas aristas tipo));
      [apply aristas_ordenadas_perm |].
    intros x y Hx Hy. rewrite (nodos_de_perm _ _ (aristas_ordenadas_perm aristas tipo)) in Hx, Hy.
    by apply Hone.
  - intros Hcon.
    assert (size (raices (parent (uf_de st))) = 1) as H1; [| lia].
    apply Hone. intros x y Hx Hy.
    eapply conn_mono; [| by apply Hcon].
    intros e. by rewrite aristas_ordenadas_perm.
Qed.

Lemma kruskal_edge_count_witness :
  ∃ arb coste, kruskal [("A", "B", 1%Z); ("C", "D", 2%Z)] "min" = Ok (arb, coste) ∧
    (Z.of_nat (length arb)
     ≤ Z.of_nat (size (nodos_de [("A", "B", 1%Z); ("C", "D", 2%Z)])) - 1)%Z ∧
    ((Z.of_nat (length arb)
      = Z.of_nat (size (nodos_de [("A", "B", 1%Z); ("C", "D", 2%Z)])) - 1)%Z ↔
     conexo [("A", "B", 1%Z); ("C", "D", 2%Z)]).
Proof.
  apply (kruskal_edge_count [("A", "B", 1%Z); ("C", "D", 2%Z)] "min").
  discriminate.
Defined.

(** C6, as stated, fails on the empty edge list: [kruskal] returns no
    edge, there is no vertex, and 0 exceeds 0 - 1. *)
Lemma kruskal_edge_count_empty :
  ∃ arb coste, kruskal [] "min" = Ok (arb, coste) ∧
    ¬ (Z.of_nat (length arb) ≤ Z.of_nat (size (nodos_de [])) - 1)%Z.
Proof.
  exists [], 0%Z. split; [vm_compute; reflexivity |].
  vm_compute. intros H. by apply H.
Qed.

(** C2, as the code has it.  On the empty edge list [kruskal] raises
    nothing: it returns the empty tree and the cost 0, whatever the mode. *)
Theorem kruskal_empty (tipo : string) : kruskal [] tipo = Ok ([], 0%Z).
Proof.
  unfold kruskal, kruskal_con, kruskal_run_con, aristas_ordenadas, print_componentes.
  cbn [nodos_de foldl]. rewrite elements_empty.
  by case_decide.
Qed.

(** C2, as stated, fails: the call on the empty list raises no error. *)
Lemma kruskal_empty_no_error : ¬ ∃ e, kruskal [] "min" = Raise e.
Proof. intros [e H]. vm_compute in H. discriminate. Qed.

(** C4.  On the example graph, the "min" run accepts exactly 5 edges,
    of total cost 12. *)
Theorem kruskal_ejemplo_min :
  ∃ arb, kruskal grafo_ejemplo "min" = Ok (arb, 12%Z) ∧ length arb = 5.
Proof. eexists. split; [vm_compute; reflexivity | reflexivity]. Qed.

(** C1, as the code has it.  On the example graph, the "max" run accepts
    exactly 5 edges, of total cost 32. *)
Theorem kruskal_ejemplo_max :
  ∃ arb, kruskal grafo_ejemplo "max" = Ok (arb, 32%Z) ∧ length arb = 5.
Proof. eexists. split; [vm_compute; reflexivity | reflexivity]. Qed.

(** C1, as stated, fails: the total cost of the "max" run is not 35. *)
Lemma kruskal_ejemplo_max_not_35 :
  ¬ ∃ arb, kruskal grafo_ejemplo "max" = Ok (arb, 35%Z) ∧ length arb = 5.
Proof. intros (arb & H & _). vm_compute in H. discriminate. Qed.

(** * The store *)

Section Store.
Context (nodos : gset string) (a_arbol : nat).

Lemma paso_h_sim (h : heap) uf c arb tr e st' :
  h !! a_arbol = Some arb →
  paso elements nodos (MkEstado uf arb c tr) e = Ok st' →
  ∃ h', paso_h nodos a_arbol (h, uf, c) e = Ok (h', uf_de st', coste_total st') ∧
        h' !! a_arbol = Some (arbol st') ∧
        ∀ b, b ≠ a_arbol → h' !! b = h !! b.
Proof.
  intros Hh. destruct e as [[u v] w]. unfold paso, paso_h. cbn.
  destruct (find uf u) as [[uf1 ru] |]; cbn; [| done].
  destruct (find uf1 v) as [[uf2 rv] |]; cbn; [| done].
  destruct (decide (ru ≠ rv)).
  - destruct (union uf2 u v) as [[uf3 b] |]; cbn; [| done].
    destruct (print_componentes elements uf3 nodos) as [uf4 |]; cbn; [| done].
    intros [= <-]. eexists. split; [done |]. simpl. unfold append. split.
    + by rewrite lookup_alter_eq, Hh.
    + intros b' Hb. by rewrite lookup_alter_ne.
  - destruct (print_componentes elements uf2 nodos) as [uf4 |]; cbn; [| done].
    intros [= <-]. eexists. split; [done |]. simpl. done.
Qed.

Lemma bucle_h_sim (h : heap) uf c arb tr es st' :
  h !! a_arbol = Some arb →
  bucle elements nodos (MkEstado uf arb c tr) es = Ok st' →
  ∃ h', bucle_h nodos a_arbol (h, uf, c) es = Ok (h', uf_de st', coste_total st') ∧
        h' !! a_arbol = Some (arbol st') ∧
        ∀ b, b ≠ a_arbol → h' !! b = h !! b.
Proof.
  revert h uf c arb tr. induction es as [| e es IH]; intros h uf c arb tr Hh.
  - simpl. intros [= <-]. exists h. done.
  - cbn [bucle bucle_h].
    destruct (paso elements nodos (MkEstado uf arb c tr) e) as [[uf1 arb1 c1 tr1] |] eqn:Hp;
      [| by cbn].
    intros Hb. cbn [mbind result_bind bind] in Hb.
    destruct (paso_h_sim h uf c arb tr e _ Hh Hp) as (h1 & Hp1 & Hh1 & Hfr1).
    destruct (IH h1 uf1 c1 arb1 tr1 Hh1 Hb) as (h' & Hb' & Hh' & Hfr').
    exists h'. rewrite Hp1. cbn. split_and!; [done | done |].
    intros b Hne. rewrite Hfr' by done. by apply Hfr1.
Qed.
End Store.

(** C10.  Called on the address of a list, [kruskal] returns and leaves
    that list, and every list that was in the store, as it was; the tree
    it returns is a new object, and the result is the one the function
    computes from the value of the list. *)
Theorem kruskal_keeps_input (h : heap) (a : nat) (l : list arista) (tipo : string) :
  h !! a = Some l →
  ∃ h' a_arbol arb coste,
    kruskal_h h a tipo = Ok (h', a_arbol, coste) ∧
    h' !! a = Some l ∧
    (∀ b, b ∈ dom h → h' !! b = h !! b) ∧
    (a_arbol ∉ dom h) ∧ h' !! a_arbol = Some arb ∧
    kruskal l tipo = Ok (arb, coste).
Proof.
  intros Ha.
  destruct (kruskal_run_spec l tipo) as (st & Hrun & _).
  assert (kruskal l tipo = Ok (arbol st, coste_total st)) as Hk.
  { unfold kruskal, kruskal_con. fold (kruskal_run l tipo). by rewrite Hrun. }
  unfold kruskal_h, new_list. cbn zeta.
  rewrite (lookup_total_correct _ _ _ Ha).
  set (a_ord := fresh (dom h)).
  set (h1 := <[a_ord := aristas_ordenadas l tipo]> h).
  set (a_arbol := fresh (dom h1)).
  set (h2 := <[a_arbol := []]> h1).
  assert (a_ord ∉ dom h) as Hord by apply is_fresh.
  assert (a_arbol ∉ dom h1) as Harb by apply is_fresh.
  assert (a_arbol ≠ a_ord ∧ a_arbol ∉ dom h) as [Hne Harb'].
  { unfold h1 in Harb. rewrite dom_insert_L in Harb. set_solver. }
  assert (h2 !!! a_ord = aristas_ordenadas l tipo) as Hread.
  { apply lookup_total_correct. unfold h2, h1.
    rewrite lookup_insert_ne by done. apply lookup_insert_eq. }
  rewrite Hread. unfold kruskal_run, kruskal_run_con in Hrun. cbn zeta in Hrun.
  destruct (print_componentes elements (UnionFind_init (nodos_de l)) (nodos_de l))
    as [uf0 |]; cbn in Hrun |- *; [| done].
  destruct (bucle_h_sim (nodos_de l) a_arbol h2 uf0 0%Z [] []
              (aristas_ordenadas l tipo) st) as (h' & Hb & Hh' & Hfr);
    [apply lookup_insert_eq | done |].
  rewrite Hb. cbn.
  assert (∀ b, b ∈ dom h → h' !! b = h !! b) as Hframe.
  { intros b Hb'. rewrite Hfr by set_solver. unfold h2, h1.
    rewrite !lookup_insert_ne by set_solver. done. }
  exists h', a_arbol, (arbol st), (coste_total st).
  split_and!; [done | | done | done | done | done].
  rewrite Hframe; [done |]. apply elem_of_dom. eauto.
Qed.

(** C3, as the code has it.  On the two separate edges (A,B,1) and
    (C,D,2), whatever the mode, [kruskal] accepts exactly 2 edges, of
    total cost 3, fewer than the 4 vertices minus one; what it returns is
    the pair of the accepted edges and the cost, with no flag and no
    label in it. *)
Theorem kruskal_inconexo (tipo : string) :
  ∃ arb ret, kruskal grafo_inconexo tipo = Ok (arb, 3%Z) ∧ length arb = 2 ∧
    2 < size (nodos_de grafo_inconexo) - 1 ∧
    kruskal_return grafo_inconexo tipo = Ok ret ∧
    ret = PTuple [PList (py_arista <$> arb); PInt 3] ∧
    (∀ b, ¬ lleva_bandera ret b) ∧ ¬ lleva_etiqueta ret.
Proof.
  assert (∀ arb, (∀ b, ¬ lleva_bandera (PTuple [PList (py_arista <$> arb); PInt 3]) b) ∧
                 ¬ lleva_etiqueta (PTuple [PList (py_arista <$> arb); PInt 3]))
    as Hno.
  { intros arb. split.
    - intros b (campos & [= <-] & Hin).
      apply elem_of_cons in Hin as [? | Hin]; [done |].
      apply list_elem_of_singleton in Hin. done.
    - intros (campos & s & [= <-] & Hin).
      apply elem_of_cons in Hin as [? | Hin]; [done |].
      apply list_elem_of_singleton in Hin. done. }
  unfold kruskal_return, kruskal, kruskal_con, kruskal_run_con, aristas_ordenadas.
  case_decide.
  - set (arb := [("A", "B", 1%Z); ("C", "D", 2%Z)]).
    exists arb, (PTuple [PList (py_arista <$> arb); PInt 3]).
    split_and!; [vm_compute; reflexivity | done | vm_compute; lia
                | vm_compute; reflexivity | done
                | apply (proj1 (Hno _)) | apply (proj2 (Hno _))].
  - set (arb := [("C", "D", 2%Z); ("A", "B", 1%Z)]).
    exists arb, (PTuple [PList (py_arista <$> arb); PInt 3]).
    split_and!; [vm_compute; reflexivity | done | vm_compute; lia
                | vm_compute; reflexivity | done
                | apply (proj1 (Hno _)) | apply (proj2 (Hno _))].
Qed.

(** C3, as stated, fails: the value returned for the two separate edges
    carries neither a flag saying that the graph is not connected nor a
    label telling a forest from a tree. *)
Lemma kruskal_inconexo_no_flag :
  ¬ ∃ arb ret,
      kruskal grafo_inconexo "min" = Ok (arb, 3%Z) ∧ length arb = 2 ∧
      kruskal_return grafo_inconexo "min" = Ok ret ∧
      (lleva_bandera ret false ∨ lleva_etiqueta ret).
Proof.
  intros (arb & ret & _ & _ & Hret & [(campos & -> & Hin) | (campos & s & -> & Hin)]);
    vm_compute in Hret; injection Hret as <-;
    (apply elem_of_cons in Hin as [? | Hin]; [done |]);
    apply list_elem_of_singleton in Hin; done.
Qed.

Lemma find_twice_witness :
  ∃ uf1 r1 uf2 r2,
    find uf_profundo_estado "d" = Ok (uf1, r1) ∧ find uf1 "d" = Ok (uf2, r2) ∧
    raiz uf_profundo_estado "d" r1 ∧ raiz uf1 "d" r2 ∧
    r1 = r2 ∧ parent uf2 = parent uf1 ∧ rank uf2 = rank uf1.
Proof.
  apply (find_twice {["a"; "b"; "c"; "d"]} uf_profundo_estado "d").
  - apply (alcanzable_foldl _ (UnionFind_init {["a"; "b"; "c"; "d"]})
             [OpUnion "a" "b"; OpUnion "c" "d"; OpUnion "a" "c"]).
    + apply alc_init.
    + vm_compute. reflexivity.
  - vm_compute. reflexivity.
Defined.

Lemma alcanzable_invariant_witness :
  (∀ x, x ∈ ({["a"; "b"; "c"; "d"]} : gset string) →
        exists ! r, raiz uf_profundo_estado x r) ∧
  (∀ x, ¬ ancestro (parent uf_profundo_estado) x x) ∧
  (∀ o uf', ejecutar uf_profundo_estado o = Ok uf' →
     ∀ v k, rank uf_profundo_estado !! v = Some k →
       ∃ k', rank uf' !! v = Some k' ∧ k ≤ k' ∧
         (k < k' →
            ∃ x y rx ry, o = OpUnion x y ∧
              raiz uf_profundo_estado x rx ∧ raiz uf_profundo_estado y ry ∧ rx ≠ ry ∧
              rank uf_profundo_estado !! rx = Some k ∧
              rank uf_profundo_estado !! ry = Some k ∧
              v = rx ∧ k' = k + 1)).
Proof.
  apply (alcanzable_invariant {["a"; "b"; "c"; "d"]} uf_profundo_estado).
  apply (alcanzable_foldl _ (UnionFind_init {["a"; "b"; "c"; "d"]})
           [OpUnion "a" "b"; OpUnion "c" "d"; OpUnion "a" "c"]).
  - apply alc_init.
  - vm_compute. reflexivity.
Defined.

Lemma kruskal_keeps_input_witness :
  ∃ h' a_arbol arb coste,
    kruskal_h {[0 := grafo_ejemplo]} 0 "min" = Ok (h', a_arbol, coste) ∧
    h' !! 0 = Some grafo_ejemplo ∧
    (∀ b, b ∈ dom ({[0 := grafo_ejemplo]} : heap) →
          h' !! b = ({[0 := grafo_ejemplo]} : heap) !! b) ∧
    (a_arbol ∉ dom ({[0 := grafo_ejemplo]} : heap)) ∧ h' !! a_arbol = Some arb ∧
    kruskal grafo_ejemplo "min" = Ok (arb, coste).
Proof.
  apply (kruskal_keeps_input {[0 := grafo_ejemplo]} 0 grafo_ejemplo "min").
  vm_compute. reflexivity.
Defined.

(** * The accepted edges *)

Local Open Scope list_scope.

Lemma suma_app (l k : list arista) : suma (l ++ k) = (suma l + suma k)%Z.
Proof. induction l as [| e l IH]; simpl; [done |]. rewrite IH. lia. Qed.

Lemma suma_perm (l k : list arista) : l ≡ₚ k → suma l = suma k.
Proof. induction 1; simpl; lia. Qed.

Lemma aceptadas_snoc (t : list evento) (ev : evento) :
  aceptadas (t ++ [ev]) =
  if ev_aceptada ev then (aceptadas t ++ [ev_arista ev])%list else aceptadas t.
Proof.
  unfold aceptadas. rewrite filter_app, fmap_app.
  destruct (ev_aceptada ev) eqn:E.
  - by rewrite (filter_cons_True _ ev []) by done.
  - rewrite (filter_cons_False _ ev []) by congruence. apply app_nil_r.
Qed.

Lemma conn_nil x y : conn [] x y → x = y.
Proof.
  induction 1 as [x | u v w Hin | x y _ IH | x y z _ IH1 _ IH2];
    [done | by apply elem_of_nil in Hin | done | congruence].
Qed.

(** A forest, by positions. *)
Lemma bosque_split (l : list arista) :
  bosque l ↔ ∀ l1 u v w l2, l = l1 ++ (u, v, w) :: l2 → ¬ conn l1 u v.
Proof.
  split.
  - induction 1 as [| l u v w Hl IH Hn]; intros l1 u' v' w' l2 E.
    + by destruct l1.
    + destruct l2 as [| e l2 _] using rev_ind.
      * apply app_inj_tail in E as [-> E]. by simplify_eq.
      * rewrite app_comm_cons, app_assoc in E.
        apply app_inj_tail in E as [-> _]. by eapply IH.
  - induction l as [| [[u v] w] l IH] using rev_ind; intros H; [constructor |].
    constructor.
    + apply IH. intros l1 u' v' w' l2 ->. apply (H l1 u' v' w' (l2 ++ [(u, v, w)])).
      by rewrite <- app_assoc.
    + by apply (H l u v w []).
Qed.

Lemma bosque_filter (P : arista → Prop) `{!∀ e, Decision (P e)} (l : list arista) :
  bosque l → bosque (filter P l).
Proof.
  induction 1 as [| l u v w Hl IH Hn]; [constructor |].
  rewrite filter_app. destruct (decide (P (u, v, w))) as [HP | HP].
  - rewrite (filter_cons_True _ _ []) by done. constructor; [done |].
    intros Hc. apply Hn. eapply conn_mono; [| exact Hc].
    intros e. rewrite list_elem_of_filter. tauto.
  - rewrite (filter_cons_False _ _ []) by done. by rewrite app_nil_r.
Qed.

(** A greedy trace, by positions. *)
Lemma voraz_lookup (t : list evento) :
  voraz t →
  ∀ i ev, t !! i = Some ev →
    (ev_aceptada ev = true ↔
     ¬ conn (aceptadas (take i t)) (ev_arista ev).1.1 (ev_arista ev).1.2).
Proof.
  induction 1 as [| t ev' Ht IH Hev]; intros i ev Hi; [done |].
  destruct (decide (i < length t)) as [Hlt | Hge].
  - rewrite lookup_app_l in Hi by done. rewrite take_app_le by lia. by apply IH.
  - rewrite lookup_app_r in Hi by lia.
    destruct (i - length t) as [| k] eqn:E; [| by destruct k].
    simpl in Hi. simplify_eq.
    assert (i = length t) as -> by lia. by rewrite take_app_length.
Qed.

Section Voraz.
Context (V : gset string) (orden : gset string → list string).
Hypothesis Horden : orden_de orden V.
Implicit Types uf : UnionFind.

Lemma misma_fun uf x y r : misma uf x y → raiz uf x r → raiz uf y r.
Proof. intros (q & Hx & Hy) Hr. by rewrite (raiz_fun _ _ _ _ Hr Hx). Qed.

Lemma misma_refl uf x : wf V uf → x ∈ V → misma uf x x.
Proof. intros Hwf Hx. destruct (wf_reach _ _ Hwf x Hx) as [r Hr]. by exists r. Qed.

Lemma misma_sym uf x y : misma uf x y → misma uf y x.
Proof. intros (r & Hx & Hy). by exists r. Qed.

Lemma misma_trans uf x y z : misma uf x y → misma uf y z → misma uf x z.
Proof. intros (r & Hx & Hy) Hyz. exists r. split; [done |]. by eapply misma_fun. Qed.

Lemma misma_elem uf x y : wf V uf → misma uf x y → x ∈ V ∧ y ∈ V.
Proof.
  intros Hwf (r & Hx & Hy).
  destruct (raiz_elem V _ _ _ Hwf Hx). destruct (raiz_elem V _ _ _ Hwf Hy). done.
Qed.

Lemma misma_iff uf uf' :
  (∀ z r, raiz uf z r ↔ raiz uf' z r) → ∀ x y, misma uf x y ↔ misma uf' x y.
Proof.
  intros H x y. unfold misma. split; intros (r & Hx & Hy); exists r; split; by apply H.
Qed.

(** Edges whose end points have the same representative connect only
    vertices with the same representative. *)
Lemma conn_misma uf (l : list arista) x y :
  (∀ u v w, (u, v, w) ∈ l → misma uf u v) →
  conn l x y → ∀ r, raiz uf x r ↔ raiz uf y r.
Proof.
  intros Hl. induction 1 as [x | u v w Hin | x y _ IH | x y z _ IH1 _ IH2]; intros r.
  - done.
  - pose proof (Hl _ _ _ Hin) as Hm. split; intros H.
    + by eapply misma_fun.
    + eapply misma_fun; [by apply misma_sym | done].
  - by rewrite IH.
  - by rewrite IH1, IH2.
Qed.

(** The effect of merging the classes of [u] and [v]. *)
Lemma misma_merge uf uf' u v ru rv gana pierde :
  wf V uf → wf V uf' → raiz uf u ru → raiz uf v rv →
  (gana = ru ∧ pierde = rv ∨ gana = rv ∧ pierde = ru) →
  (∀ z r, raiz uf z r → raiz uf' z (if decide (r = pierde) then gana else r)) →
  ∀ x y, misma uf' x y ↔
         misma uf x y ∨ misma uf x u ∧ misma uf y v ∨ misma uf x v ∧ misma uf y u.
Proof.
  intros Hwf Hwf' Hu Hv Hgp Hmove x y. split.
  - intros (r & Hx & Hy).
    destruct (raiz_elem V _ _ _ Hwf' Hx) as [HxV _].
    destruct (raiz_elem V _ _ _ Hwf' Hy) as [HyV _].
    destruct (wf_reach _ _ Hwf x HxV) as [rx0 Hx0].
    destruct (wf_reach _ _ Hwf y HyV) as [ry0 Hy0].
    pose proof (raiz_fun _ _ _ _ Hx (Hmove _ _ Hx0)) as Ex.
    pose proof (raiz_fun _ _ _ _ Hy (Hmove _ _ Hy0)) as Ey.
    destruct (decide (rx0 = pierde)) as [Exp | Hxp],
      (decide (ry0 = pierde)) as [Eyp | Hyp]; simpl in Ex, Ey.
    + rewrite Exp in Hx0. rewrite Eyp in Hy0. left. by exists pierde.
    + rewrite Exp in Hx0. assert (ry0 = gana) as -> by congruence.
      destruct Hgp as [[-> ->] | [-> ->]].
      * right; right. split; [by exists rv | by exists ru].
      * right; left. split; [by exists ru | by exists rv].
    + rewrite Eyp in Hy0. assert (rx0 = gana) as -> by congruence.
      destruct Hgp as [[-> ->] | [-> ->]].
      * right; left. split; [by exists ru | by exists rv].
      * right; right. split; [by exists rv | by exists ru].
    + assert (rx0 = ry0) as -> by congruence. left. by exists ry0.
  - assert (∀ a b, misma uf a b → misma uf' a b) as Hkeep.
    { intros a b (r & Ha & Hb). eexists. split; by apply Hmove. }
    assert (misma uf' u v) as Huv.
    { exists gana. split.
      - pose proof (Hmove _ _ Hu) as H. case_decide; [done |].
        destruct Hgp as [[-> ->] | [-> ->]]; done.
      - pose proof (Hmove _ _ Hv) as H. case_decide; [done |].
        destruct Hgp as [[-> ->] | [-> ->]]; done. }
    intros [H | [[Hxu Hyv] | [Hxv Hyu]]].
    + by apply Hkeep.
    + eapply misma_trans; [by apply Hkeep |].
      eapply misma_trans; [exact Huv |]. by apply misma_sym, Hkeep.
    + eapply misma_trans; [by apply Hkeep |].
      eapply misma_trans; [apply misma_sym, Huv |]. by apply misma_sym, Hkeep.
Qed.

(** What one turn of the main loop does. *)
Lemma paso_efecto st u v w :
  wf V (uf_de st) → u ∈ V → v ∈ V →
  ∃ st' ru rv,
    paso orden V st (u, v, w) = Ok st' ∧ wf V (uf_de st') ∧
    raiz (uf_de st) u ru ∧ raiz (uf_de st) v rv ∧
    traza st' = traza st ++ [MkEvento (u, v, w) ru rv (bool_decide (ru ≠ rv))] ∧
    (ru = rv →
       arbol st' = arbol st ∧ coste_total st' = coste_total st ∧
       ∀ z r, raiz (uf_de st) z r ↔ raiz (uf_de st') z r) ∧
    (ru ≠ rv →
       arbol st' = arbol st ++ [(u, v, w)] ∧
       coste_total st' = (coste_total st + w)%Z ∧
       size (raices (parent (uf_de st))) = S (size (raices (parent (uf_de st')))) ∧
       ∃ gana pierde,
         (gana = ru ∧ pierde = rv ∨ gana = rv ∧ pierde = ru) ∧
         ∀ z r, raiz (uf_de st) z r →
                raiz (uf_de st') z (if decide (r = pierde) then gana else r)).
Proof.
  intros Hwf Hu Hv. destruct st as [uf arb cst tr]. simpl in *.
  destruct (find_spec V uf u Hwf Hu) as (p1 & ru & Hf1 & Hru & Hc1 & _ & _ & Hwf1).
  set (uf1 := MkUF p1 (rank uf)) in *.
  destruct (find_spec V uf1 v Hwf1 Hv) as (p2 & rv & Hf2 & Hrv1 & Hc2 & _ & _ & Hwf2).
  simpl in Hf2, Hwf2. set (uf2 := MkUF p2 (rank uf)) in *.
  assert (∀ z r, raiz uf z r ↔ raiz uf2 z r) as Hraiz.
  { intros z r. rewrite (compressed_raiz uf uf1) by done.
    by apply (compressed_raiz uf1 uf2). }
  assert (raiz uf v rv) as Hrv by (by apply (compressed_raiz uf uf1)).
  assert (raices p2 = raices (parent uf)) as Hraices.
  { rewrite (compressed_raices _ _ Hc2). apply (compressed_raices _ _ Hc1). }
  cbn. rewrite Hf1. cbn. rewrite Hf2. cbn.
  destruct (decide (ru ≠ rv)) as [Hne | Heq%dec_stable].
  - destruct (union_spec V uf2 u v ru rv Hwf2) as (uf3 & Hun & Hwf3 & _ & Hdiff);
      [by apply Hraiz | by apply Hraiz |].
    destruct (Hdiff Hne) as (krx & kry & _ & _ & Hr3 & Hmove & _).
    set (pierde := if decide (krx < kry) then ru else rv) in *.
    set (gana := if decide (krx < kry) then rv else ru) in *.
    assert (gana = ru ∧ pierde = rv ∨ gana = rv ∧ pierde = ru) as Hgp.
    { unfold gana, pierde. destruct (decide (krx < kry)); auto. }
    clearbody gana pierde.
    rewrite bool_decide_eq_true_2 in Hun by done. rewrite Hun. cbn.
    destruct (print_componentes_spec V orden Horden uf3 Hwf3)
      as (uf4 & Hpc & Hwf4 & _ & Hc4).
    rewrite Hpc. cbn. eexists _, ru, rv.
    rewrite bool_decide_eq_true_2 by done.
    split_and!; [done | done | done | done | done | done |].
    intros _. simpl. split_and!; [done | done | |].
    + rewrite (compressed_raices _ _ Hc4), Hr3. simpl. rewrite Hraices.
      apply (size_raices_remove _ _ Horden), elem_of_raices.
      destruct Hgp as [[_ ->] | [_ ->]]; by eapply raiz_is_root.
    + exists gana, pierde. split; [done |].
      intros z r Hz%Hraiz%Hmove. by apply (compressed_raiz uf3 uf4).
  - subst rv.
    destruct (print_componentes_spec V orden Horden uf2 Hwf2)
      as (uf4 & Hpc & Hwf4 & _ & Hc4).
    rewrite Hpc. cbn. eexists _, ru, ru.
    rewrite bool_decide_eq_false_2 by auto.
    split_and!; [done | done | done | done | done | | done].
    intros _. simpl. split_and!; [done | done |].
    intros z r. rewrite Hraiz. by apply (compressed_raiz uf2 uf4).
Qed.

(** One turn of the loop keeps what is known of the accepted edges. *)
Lemma paso_voraz hechas st u v w :
  inv_voraz V hechas st → u ∈ V → v ∈ V →
  ∃ st', paso orden V st (u, v, w) = Ok st' ∧
         inv_voraz V (hechas ++ [(u, v, w)]) st'.
Proof.
  intros [Hwf Hsound Hhechas Hsub Hsuma Hbos Hacc Htr Hvor] Hu Hv.
  destruct (paso_efecto st u v w Hwf Hu Hv)
    as (st' & ru & rv & Hp & Hwf' & Hru & Hrv & Ht' & Hsame & Hdiff).
  exists st'. split; [done |].
  assert (∀ x y, conn (arbol st) x y → ∀ r, raiz (uf_de st) x r ↔ raiz (uf_de st) y r)
    as Hconn.
  { intros x y. apply conn_misma. intros u' v' w' Hin.
    eapply Hhechas, elem_of_sublist; [exact Hin | exact Hsub]. }
  destruct (decide (ru = rv)) as [E | E].
  - destruct (Hsame E) as (Ha & Hc & Hraiz). subst rv.
    rewrite bool_decide_eq_false_2 in Ht' by auto.
    split.
    + done.
    + intros x y Hm. rewrite Ha. by apply Hsound, (misma_iff _ _ Hraiz).
    + intros u' v' w' [Hin | Hin%list_elem_of_singleton]%elem_of_app.
      * by apply (misma_iff _ _ Hraiz), (Hhechas _ _ w').
      * simplify_eq. apply (misma_iff _ _ Hraiz). by exists ru.
    + rewrite Ha. by apply sublist_inserts_r.
    + by rewrite Hc, Ha.
    + by rewrite Ha.
    + by rewrite Ha, Ht', aceptadas_snoc.
    + by rewrite Ht', fmap_app, Htr.
    + rewrite Ht'. constructor; [done |]. simpl. split; [done |].
      intros Hn. exfalso. apply Hn. rewrite <- Hacc. apply Hsound. by exists ru.
  - destruct (Hdiff E) as (Ha & Hc & _ & gana & pierde & Hgp & Hmove).
    rewrite bool_decide_eq_true_2 in Ht' by done.
    pose proof (misma_merge _ _ u v ru rv gana pierde Hwf Hwf' Hru Hrv Hgp Hmove)
      as Hmerge.
    assert (¬ conn (arbol st) u v) as Hnc.
    { intros Hc'. apply E. eapply raiz_fun; [exact Hru |]. by apply (Hconn _ _ Hc'). }
    assert (∀ a b, misma (uf_de st) a b → conn (arbol st ++ [(u, v, w)]) a b) as H0.
    { intros a b Hm. eapply conn_mono; [| by apply Hsound].
      intros e He. apply elem_of_app. by left. }
    assert (conn (arbol st ++ [(u, v, w)]) u v) as Hedge.
    { apply (conn_edge _ u v w). apply elem_of_app. right. by left. }
    split.
    + done.
    + intros x y [Hm | [[Hxu Hyv] | [Hxv Hyu]]]%Hmerge; rewrite Ha.
      * by apply H0.
      * eapply conn_trans; [by apply H0 |].
        eapply conn_trans; [exact Hedge |]. by apply conn_sym, H0.
      * eapply conn_trans; [by apply H0 |].
        eapply conn_trans; [apply conn_sym, Hedge |]. by apply conn_sym, H0.
    + intros u' v' w' [Hin | Hin%list_elem_of_singleton]%elem_of_app; apply Hmerge.
      * left. by apply (Hhechas _ _ w').
      * simplify_eq. right; left. split; [by exists ru | by exists rv].
    + rewrite Ha. apply sublist_app; [done | reflexivity].
    + rewrite Hc, Ha, suma_app, Hsuma. simpl. unfold peso. simpl. lia.
    + rewrite Ha. by constructor.
    + by rewrite Ha, Ht', aceptadas_snoc, <- Hacc.
    + by rewrite Ht', fmap_app, Htr.
    + rewrite Ht'. constructor; [done |]. simpl. by rewrite <- Hacc.
Qed.

Lemma bucle_voraz hechas st es :
  inv_voraz V hechas st →
  (∀ u v w, (u, v, w) ∈ es → u ∈ V ∧ v ∈ V) →
  ∃ st', bucle orden V st es = Ok st' ∧ inv_voraz V (hechas ++ es) st'.
Proof.
  revert hechas st. induction es as [| [[u v] w] es IH]; intros hechas st Hinv Hes.
  - exists st. rewrite app_nil_r. done.
  - destruct (Hes u v w) as [Hu Hv]; [by left |].
    destruct (paso_voraz hechas st u v w Hinv Hu Hv) as (st1 & Hp & Hinv1).
    destruct (IH _ _ Hinv1) as (st' & Hb & Hinv').
    { intros u' v' w' Hin. apply (Hes u' v' w'). by right. }
    exists st'. cbn [bucle]. rewrite Hp. cbn. rewrite Hb.
    rewrite <- app_assoc in Hinv'. done.
Qed.

Lemma inv_voraz_init uf0 :
  print_componentes orden (UnionFind_init V) V = Ok uf0 →
  inv_voraz V [] (MkEstado uf0 [] 0 []).
Proof.
  intros Hpc.
  destruct (print_componentes_spec V orden Horden _ (wf_init V))
    as (uf' & Hpc' & Hwf & _ & Hc).
  rewrite Hpc in Hpc'. simplify_eq.
  assert (∀ z r, raiz uf' z r → r = z) as Hself.
  { intros z r Hz. apply (compressed_raiz (UnionFind_init V) uf' z r Hc) in Hz.
    destruct (raiz_elem V _ _ _ (wf_init V) Hz) as [HzV _].
    eapply raiz_fun; [exact Hz |]. apply raiz_root. by apply init_parent. }
  split; simpl; try done.
  - intros x y (r & Hx%Hself & Hy%Hself). subst. apply conn_refl.
  - intros u v w []%elem_of_nil.
  - constructor.
  - constructor.
Qed.
End Voraz.

Lemma kruskal_run_voraz (aristas : list arista) (tipo : string) :
  ∃ st, kruskal_run aristas tipo = Ok st ∧
        inv_voraz (nodos_de aristas) (aristas_ordenadas aristas tipo) st.
Proof.
  unfold kruskal_run, kruskal_run_con. cbn zeta.
  pose proof (orden_de_elements (nodos_de aristas)) as Horden.
  destruct (print_componentes_spec _ _ Horden _ (wf_init (nodos_de aristas)))
    as (uf0 & Hpc & _).
  rewrite Hpc. cbn.
  apply (bucle_voraz _ _ Horden [] _ _ (inv_voraz_init _ _ Horden _ Hpc)).
  apply aristas_ordenadas_nodos.
Qed.

Lemma conn_nodos (l : list arista) x y :
  conn l x y → x = y ∨ x ∈ nodos_de l ∧ y ∈ nodos_de l.
Proof.
  induction 1 as [x | u v w Hin | x y _ IH | x y z _ IH1 _ IH2].
  - by left.
  - right. rewrite !elem_of_nodos_de. split; exists u, v, w; auto.
  - destruct IH as [-> | [? ?]]; auto.
  - destruct IH1 as [-> | [? ?]]; [done |].
    destruct IH2 as [<- | [? ?]]; auto.
Qed.

(** ** Properties of the run *)

(** The decisions of the run, apart from the structure: the accepted edges
    are the edges of the trace marked accepted, and each edge tried was
    accepted exactly when the edges accepted before it did not already
    connect its two end points. *)
Theorem kruskal_voraz (aristas : list arista) (tipo : string) :
  ∃ st, kruskal_run aristas tipo = Ok st ∧
    arbol st = aceptadas (traza st) ∧
    ∀ i ev, traza st !! i = Some ev →
      (ev_aceptada ev = true ↔
       ¬ conn (aceptadas (take i (traza st))) (ev_arista ev).1.1 (ev_arista ev).1.2).
Proof.
  destruct (kruskal_run_voraz aristas tipo) as (st & Hrun & Hinv).
  exists st. split_and!; [done | apply Hinv |].
  apply voraz_lookup, Hinv.
Qed.

(** The cost returned is the sum of the weights of the edges returned. *)
Theorem kruskal_coste_suma (aristas : list arista) (tipo : string) :
  ∃ arb coste, kruskal aristas tipo = Ok (arb, coste) ∧ coste = suma arb.
Proof.
  destruct (kruskal_run_voraz aristas tipo) as (st & Hrun & Hinv).
  exists (arbol st), (coste_total st).
  unfold kruskal, kruskal_con. fold (kruskal_run aristas tipo). rewrite Hrun.
  split; [done | apply Hinv].
Qed.

(** The edges returned are edges of the input, in the order of the sorted
    list: what is returned is the sorted list with some edges left out. *)
Theorem kruskal_arbol_sublist (aristas : list arista) (tipo : string) :
  ∃ arb coste, kruskal aristas tipo = Ok (arb, coste) ∧
    arb `sublist_of` sorted aristas (bool_decide (tipo ≠ "min")) ∧
    ∀ e, e ∈ arb → e ∈ aristas.
Proof.
  destruct (kruskal_run_voraz aristas tipo) as (st & Hrun & Hinv).
  exists (arbol st), (coste_total st).
  unfold kruskal, kruskal_con. fold (kruskal_run aristas tipo). rewrite Hrun.
  pose proof (iv_sub _ _ _ Hinv) as Hsub.
  split_and!; [done | |].
  - unfold aristas_ordenadas in Hsub. case_decide.
    + by rewrite bool_decide_eq_false_2 by auto.
    + by rewrite bool_decide_eq_true_2.
  - intros e He. rewrite <- (aristas_ordenadas_perm aristas tipo).
    by eapply elem_of_sublist.
Qed.

(** The edges returned span the graph: they connect two vertices exactly
    when the edges of the input do. *)
Theorem kruskal_spanning (aristas : list arista) (tipo : string) :
  ∃ arb coste, kruskal aristas tipo = Ok (arb, coste) ∧
    ∀ x y, conn arb x y ↔ conn aristas x y.
Proof.
  destruct (kruskal_run_voraz aristas tipo) as (st & Hrun & Hinv).
  exists (arbol st), (coste_total st).
  unfold kruskal, kruskal_con. fold (kruskal_run aristas tipo). rewrite Hrun.
  split; [done |]. intros x y. split; intros Hc.
  - eapply conn_mono; [| exact Hc]. intros e He.
    rewrite <- (aristas_ordenadas_perm aristas tipo).
    eapply elem_of_sublist; [exact He | apply Hinv].
  - destruct (conn_nodos _ _ _ Hc) as [-> | [Hx Hy]]; [apply conn_refl |].
    apply (iv_sound _ _ _ Hinv).
    destruct (wf_reach _ _ (iv_wf _ _ _ Hinv) x Hx) as [r Hr].
    exists r. split; [done |].
    refine (proj1 (conn_misma _ (aristas_ordenadas aristas tipo) x y _ _ r) Hr);
      [apply Hinv |].
    eapply conn_mono; [| exact Hc]. intros e. by rewrite aristas_ordenadas_perm.
Qed.

(** The edges returned have no cycle: each of them joins two vertices
    that the edges returned before it do not connect. *)
Theorem kruskal_sin_ciclos (aristas : list arista) (tipo : string) :
  ∃ arb coste, kruskal aristas tipo = Ok (arb, coste) ∧
    ∀ l1 u v w l2, arb = l1 ++ (u, v, w) :: l2 → ¬ conn l1 u v.
Proof.
  destruct (kruskal_run_voraz aristas tipo) as (st & Hrun & Hinv).
  exists (arbol st), (coste_total st).
  unfold kruskal, kruskal_con. fold (kruskal_run aristas tipo). rewrite Hrun.
  split; [done |]. apply bosque_split, Hinv.
Qed.

(** A self-loop is never accepted. *)
Theorem kruskal_sin_lazos (aristas : list arista) (tipo : string) :
  ∃ arb coste, kruskal aristas tipo = Ok (arb, coste) ∧
    ∀ u w, (u, u, w) ∉ arb.
Proof.
  destruct (kruskal_run_voraz aristas tipo) as (st & Hrun & Hinv).
  exists (arbol st), (coste_total st).
  unfold kruskal, kruskal_con. fold (kruskal_run aristas tipo). rewrite Hrun.
  split; [done |]. intros u w (l1 & l2 & E)%list_elem_of_split.
  eapply (proj1 (bosque_split _) (iv_bosque _ _ _ Hinv)); [exact E |].
  apply conn_refl.
Qed.

(** Edges of the same weight are tried in the order of the input list. *)
Theorem kruskal_desempate (aristas : list arista) (tipo : string) (k : Z) :
  ∃ st, kruskal_run aristas tipo = Ok st ∧
    filter (λ e, peso e = k) (ev_arista <$> traza st)
    = filter (λ e, peso e = k) aristas.
Proof.
  destruct (kruskal_run_voraz aristas tipo) as (st & Hrun & Hinv).
  exists st. split; [done |]. rewrite (iv_traza _ _ _ Hinv).
  unfold aristas_ordenadas. case_decide; apply sorted_stable.
Qed.

(** When the run is over, the two end points of every edge of the input,
    accepted or not, have the same representative. *)
Theorem kruskal_extremos_unidos (aristas : list arista) (tipo : string) :
  ∃ st, kruskal_run aristas tipo = Ok st ∧
    ∀ u v w, (u, v, w) ∈ aristas →
      ∃ uf1 uf2 r, find (uf_de st) u = Ok (uf1, r) ∧ find uf1 v = Ok (uf2, r).
Proof.
  destruct (kruskal_run_voraz aristas tipo) as (st & Hrun & Hinv).
  exists st. split; [done |]. intros u v w Hin.
  rewrite <- (aristas_ordenadas_perm aristas tipo) in Hin.
  destruct (iv_hechas _ _ _ Hinv _ _ _ Hin) as (r & Hu & Hv).
  pose proof (iv_wf _ _ _ Hinv) as Hwf.
  destruct (raiz_elem _ _ _ _ Hwf Hu) as [HuV _].
  destruct (raiz_elem _ _ _ _ Hwf Hv) as [HvV _].
  destruct (find_spec _ _ u Hwf HuV) as (p1 & r1 & Hf1 & Hr1 & Hc1 & _ & _ & Hwf1).
  destruct (find_spec _ _ v Hwf1 HvV) as (p2 & r2 & Hf2 & Hr2 & _).
  rewrite (raiz_fun _ _ _ _ Hr1 Hu) in Hf1.
  assert (r2 = r) as ->.
  { eapply raiz_fun; [exact Hr2 |]. by apply (compressed_raiz (uf_de st)). }
  eauto.
Qed.

(** * More on the structure *)

Section Rep.
Context (V : gset string).
Implicit Types uf : UnionFind.

Lemma rep_raiz uf z r : wf V uf → rep uf z = Ok r ↔ raiz uf z r.
Proof.
  intros Hwf. unfold rep. split.
  - destruct (find uf z) as [[uf' r'] |] eqn:Hf; [| done]. cbn. intros [= ->].
    pose proof (find_ok_elem _ _ _ _ Hf) as Hz. rewrite (wf_dom_parent _ _ Hwf) in Hz.
    by destruct (find_raiz V _ _ _ _ Hwf Hz Hf) as (? & _).
  - intros Hr. destruct (raiz_elem V _ _ _ Hwf Hr) as [Hz _].
    destruct (find_spec V uf z Hwf Hz) as (p' & r' & Hf & Hr' & _).
    rewrite Hf. cbn. by rewrite (raiz_fun _ _ _ _ Hr Hr').
Qed.

Lemma find_fuera uf z : wf V uf → z ∉ V → find uf z = Raise KeyError.
Proof.
  intros Hwf Hz. unfold find. simpl.
  rewrite <- (wf_dom_parent _ _ Hwf) in Hz. apply not_elem_of_dom in Hz.
  by rewrite Hz.
Qed.

Lemma rep_fuera uf z : wf V uf → z ∉ V → rep uf z = Raise KeyError.
Proof. intros Hwf Hz. unfold rep. by rewrite find_fuera. Qed.

Lemma rep_dentro uf z : wf V uf → z ∈ V → ∃ r, rep uf z = Ok r ∧ raiz uf z r.
Proof.
  intros Hwf Hz. destruct (wf_reach _ _ Hwf z Hz) as [r Hr].
  exists r. split; [by apply rep_raiz | done].
Qed.

(** Structures over the same vertices, in which every vertex has the same
    representative, answer [find] the same way. *)
Lemma rep_ext uf uf' :
  wf V uf → wf V uf' → (∀ z r, raiz uf z r ↔ raiz uf' z r) →
  ∀ z, rep uf' z = rep uf z.
Proof.
  intros Hwf Hwf' H z. destruct (decide (z ∈ V)) as [Hz | Hz].
  - destruct (rep_dentro uf z Hwf Hz) as (r & -> & Hr).
    apply rep_raiz; [done |]. by apply H.
  - by rewrite !rep_fuera.
Qed.

Lemma rep_misma uf x y :
  wf V uf → x ∈ V → rep uf x = rep uf y ↔ misma uf x y.
Proof.
  intros Hwf Hx. destruct (rep_dentro uf x Hwf Hx) as (r & Hrx & Hr). split.
  - intros E. exists r. split; [done |]. apply rep_raiz; [done |]. congruence.
  - intros Hm. rewrite Hrx. symmetry. apply rep_raiz; [done |].
    by eapply misma_fun.
Qed.

(** [union], read backwards from its result. *)
Lemma union_inv uf x y uf' b :
  wf V uf → union uf x y = Ok (uf', b) →
  ∃ uf2 rx ry,
    x ∈ V ∧ y ∈ V ∧ wf V uf2 ∧ rank uf2 = rank uf ∧
    compressed (parent uf) (parent uf2) ∧
    raiz uf x rx ∧ raiz uf y ry ∧
    parent uf2 !! rx = Some rx ∧ parent uf2 !! ry = Some ry ∧
    (rx = ry ∧ b = false ∧ uf' = uf2 ∨
     rx ≠ ry ∧ b = true ∧
     ∃ krx kry, rank uf !! rx = Some krx ∧ rank uf !! ry = Some kry ∧
       (krx < kry ∧ uf' = MkUF (<[rx := ry]> (parent uf2)) (rank uf) ∨
        kry < krx ∧ uf' = MkUF (<[ry := rx]> (parent uf2)) (rank uf) ∨
        krx = kry ∧
        uf' = MkUF (<[ry := rx]> (parent uf2)) (<[rx := krx + 1]> (rank uf)))).
Proof.
  intros Hwf Hu.
  destruct (union_ok_elem V _ _ _ _ _ Hwf Hu) as [Hx Hy].
  destruct (find_spec V uf x Hwf Hx) as (p1 & rx & Hf1 & Hrx & Hc1 & _ & _ & Hwf1).
  set (uf1 := MkUF p1 (rank uf)) in *.
  destruct (find_spec V uf1 y Hwf1 Hy) as (p2 & ry & Hf2 & Hry1 & Hc2 & _ & Hry2 & Hwf2).
  simpl in Hf2, Hwf2, Hc2. set (uf2 := MkUF p2 (rank uf)) in *.
  assert (compressed (parent uf) p2) as Hc by (by eapply compressed_trans).
  assert (raiz uf y ry) as Hry by (by apply (compressed_raiz uf uf1)).
  assert (p2 !! rx = Some rx) as Hrx2.
  { apply (compressed_root _ _ _ Hc). by eapply raiz_is_root. }
  exists uf2, rx, ry.
  split_and!; [done | done | done | done | done | done | done | done | done |].
  revert Hu. unfold union. rewrite Hf1. cbn. rewrite Hf2. cbn.
  destruct (decide (rx = ry)) as [E | E].
  - intros [= <- <-]. by left.
  - assert (is_Some (rank uf !! rx)) as [krx Hkrx].
    { apply elem_of_dom. rewrite (wf_dom_rank _ _ Hwf).
      by destruct (raiz_elem V _ _ _ Hwf Hrx). }
    assert (is_Some (rank uf !! ry)) as [kry Hkry].
    { apply elem_of_dom. rewrite (wf_dom_rank _ _ Hwf).
      by destruct (raiz_elem V _ _ _ Hwf Hry). }
    unfold getitem. simpl. rewrite Hkrx, Hkry. cbn.
    intros Hu. right. split; [done |].
    destruct (decide (krx < kry)); [| destruct (decide (kry < krx))];
      injection Hu as <- <-; (split; [done |]); exists krx, kry;
      (split; [done |]); (split; [done |]).
    + by left.
    + right; by left.
    + right; right. split; [lia | done].
Qed.
End Rep.

Lemma unidos_mono (ops ops' : list operacion) x y :
  (∀ o, o ∈ ops → o ∈ ops') → unidos ops x y → unidos ops' x y.
Proof.
  intros Hsub. induction 1 as [x | x y Hin | x y _ IH | x y z _ IH1 _ IH2].
  - apply unidos_refl.
  - by apply unidos_op, Hsub.
  - by apply unidos_sym.
  - by eapply unidos_trans.
Qed.

Lemma unidos_misma (uf : UnionFind) (ops : list operacion) x y :
  (∀ a b, OpUnion a b ∈ ops → misma uf a b) →
  unidos ops x y → ∀ r, raiz uf x r ↔ raiz uf y r.
Proof.
  intros Hops. induction 1 as [x | x y Hin | x y _ IH | x y z _ IH1 _ IH2]; intros r.
  - done.
  - pose proof (Hops _ _ Hin) as Hm. split; intros H.
    + by eapply misma_fun.
    + eapply misma_fun; [by apply misma_sym | done].
  - by rewrite IH.
  - by rewrite IH1, IH2.
Qed.

Lemma ejecutar_todas_snoc (uf : UnionFind) (ops : list operacion) (o : operacion) :
  ejecutar_todas uf (ops ++ [o]) = (uf' ← ejecutar_todas uf ops; ejecutar uf' o).
Proof. unfold ejecutar_todas. by rewrite foldl_app. Qed.

Section Operaciones.
Context (V : gset string).
Implicit Types uf : UnionFind.

(** What a call to [union] does to the representatives. *)
Lemma union_misma uf x y :
  wf V uf → x ∈ V → y ∈ V →
  ∃ uf' rx ry,
    union uf x y = Ok (uf', bool_decide (rx ≠ ry)) ∧ wf V uf' ∧
    raiz uf x rx ∧ raiz uf y ry ∧
    (rx = ry → rank uf' = rank uf ∧ ∀ z r, raiz uf z r ↔ raiz uf' z r) ∧
    (rx ≠ ry → size (raices (parent uf)) = S (size (raices (parent uf')))) ∧
    ∀ a b, misma uf' a b ↔
           misma uf a b ∨ misma uf a x ∧ misma uf b y ∨ misma uf a y ∧ misma uf b x.
Proof.
  intros Hwf Hx Hy.
  destruct (wf_reach _ _ Hwf x Hx) as [rx Hrx].
  destruct (wf_reach _ _ Hwf y Hy) as [ry Hry].
  destruct (union_spec V uf x y rx ry Hwf Hrx Hry) as (uf' & Hu & Hwf' & Hsame & Hdiff).
  exists uf', rx, ry. split_and!; [done | done | done | done | | |].
  - intros E. destruct (Hsame E) as [Hrk Hc]. split; [done |].
    intros z r. by apply compressed_raiz.
  - intros E. destruct (Hdiff E) as (krx & kry & _ & _ & Hr & _).
    rewrite Hr. apply (size_raices_remove V elements (orden_de_elements V)).
    apply elem_of_raices. case_decide; by eapply raiz_is_root.
  - destruct (decide (rx = ry)) as [E | E].
    + destruct (Hsame E) as [_ Hc]. subst ry.
      assert (misma uf x y) as Hxy by (by exists rx).
      intros a b. rewrite <- (misma_iff uf uf') by (intros z r; by apply compressed_raiz).
      split; [by left |].
      intros [H | [[Ha Hb] | [Ha Hb]]]; [done | |].
      * eapply misma_trans; [exact Ha |].
        eapply misma_trans; [exact Hxy |]. by apply misma_sym.
      * eapply misma_trans; [exact Ha |].
        eapply misma_trans; [apply misma_sym, Hxy |]. by apply misma_sym.
    + destruct (Hdiff E) as (krx & kry & _ & _ & _ & Hmove & _).
      apply (misma_merge V uf uf' x y rx ry
               (if decide (krx < kry) then ry else rx)
               (if decide (krx < kry) then rx else ry)); try done.
      case_decide; auto.
Qed.
End Operaciones.

(** ** Properties of [find] and [union] *)

(** [find] on a known vertex returns a root and leaves that vertex and the
    root pointing at the root; it changes no rank and no representative:
    every later [find] returns what it would have returned before. *)
Theorem find_conserva (V : gset string) (uf : UnionFind) (x : string) :
  alcanzable V uf → x ∈ V →
  ∃ uf' r, find uf x = Ok (uf', r) ∧
    parent uf' !! x = Some r ∧ parent uf' !! r = Some r ∧
    rank uf' = rank uf ∧ ∀ z, rep uf' z = rep uf z.
Proof.
  intros Hwf%alcanzable_wf Hx.
  destruct (find_spec V uf x Hwf Hx) as (p' & r & Hf & _ & Hc & Hx' & Hr' & Hwf').
  exists (MkUF p' (rank uf)), r. split_and!; [done | done | done | done |].
  apply (rep_ext V); [done | done |]. intros z q. by apply compressed_raiz.
Qed.

Lemma find_conserva_witness :
  ∃ uf' r, find uf_profundo_estado "d" = Ok (uf', r) ∧
    parent uf' !! "d" = Some r ∧ parent uf' !! r = Some r ∧
    rank uf' = rank uf_profundo_estado ∧ ∀ z, rep uf' z = rep uf_profundo_estado z.
Proof.
  apply (find_conserva {["a"; "b"; "c"; "d"]} uf_profundo_estado "d").
  - apply (alcanzable_foldl _ (UnionFind_init {["a"; "b"; "c"; "d"]})
             [OpUnion "a" "b"; OpUnion "c" "d"; OpUnion "a" "c"]).
    + apply alc_init.
    + vm_compute. reflexivity.
  - vm_compute. reflexivity.
Defined.

(** In a reachable state [find] returns on the vertices of the structure
    and raises [KeyError] on every other key; it never runs out of depth. *)
Theorem find_keyerror (V : gset string) (uf : UnionFind) (x : string) :
  alcanzable V uf →
  (x ∈ V → ∃ uf' r, find uf x = Ok (uf', r)) ∧
  (x ∉ V → find uf x = Raise KeyError).
Proof.
  intros Hwf%alcanzable_wf. split.
  - intros Hx. destruct (find_spec V uf x Hwf Hx) as (p' & r & Hf & _). eauto.
  - by apply find_fuera.
Qed.

Lemma find_keyerror_witness :
  ("d" ∈ ({["a"; "b"; "c"; "d"]} : gset string) →
   ∃ uf' r, find uf_profundo_estado "d" = Ok (uf', r)) ∧
  ("d" ∉ ({["a"; "b"; "c"; "d"]} : gset string) →
   find uf_profundo_estado "d" = Raise KeyError).
Proof.
  apply (find_keyerror {["a"; "b"; "c"; "d"]} uf_profundo_estado "d").
  apply (alcanzable_foldl _ (UnionFind_init {["a"; "b"; "c"; "d"]})
           [OpUnion "a" "b"; OpUnion "c" "d"; OpUnion "a" "c"]).
  - apply alc_init.
  - vm_compute. reflexivity.
Defined.

(** In a reachable state [union] returns when both arguments are vertices
    of the structure and raises [KeyError] as soon as one is not. *)
Theorem union_keyerror (V : gset string) (uf : UnionFind) (x y : string) :
  alcanzable V uf →
  (x ∈ V ∧ y ∈ V → ∃ uf' b, union uf x y = Ok (uf', b)) ∧
  (x ∉ V ∨ y ∉ V → union uf x y = Raise KeyError).
Proof.
  intros Hwf%alcanzable_wf. split.
  - intros [Hx Hy].
    destruct (union_misma V uf x y Hwf Hx Hy) as (uf' & rx & ry & Hu & _). eauto.
  - intros Hout. unfold union. destruct (decide (x ∈ V)) as [Hx | Hx].
    + destruct Hout as [? | Hy]; [done |].
      destruct (find_spec V uf x Hwf Hx) as (p' & r & Hf & _ & _ & _ & _ & Hwf').
      rewrite Hf. cbn. by rewrite (find_fuera V).
    + by rewrite (find_fuera V).
Qed.

Lemma union_keyerror_witness :
  ("d" ∈ ({["a"; "b"; "c"; "d"]} : gset string) ∧
   "z" ∈ ({["a"; "b"; "c"; "d"]} : gset string) →
   ∃ uf' b, union uf_profundo_estado "d" "z" = Ok (uf', b)) ∧
  ("d" ∉ ({["a"; "b"; "c"; "d"]} : gset string) ∨
   "z" ∉ ({["a"; "b"; "c"; "d"]} : gset string) →
   union uf_profundo_estado "d" "z" = Raise KeyError).
Proof.
  apply (union_keyerror {["a"; "b"; "c"; "d"]} uf_profundo_estado "d" "z").
  apply (alcanzable_foldl _ (UnionFind_init {["a"; "b"; "c"; "d"]})
           [OpUnion "a" "b"; OpUnion "c" "d"; OpUnion "a" "c"]).
  - apply alc_init.
  - vm_compute. reflexivity.
Defined.

(** [union(x, y)] returns [True] exactly when [x] and [y] had different
    representatives.  Afterwards they have the same one, and two vertices
    have the same representative exactly when they had before or when one
    was with [x] and the other with [y]: the two classes are merged and no
    other class is touched. *)
Theorem union_une (V : gset string) (uf : UnionFind) (x y : string) :
  alcanzable V uf → x ∈ V → y ∈ V →
  ∃ uf' b, union uf x y = Ok (uf', b) ∧
    (b = true ↔ rep uf x ≠ rep uf y) ∧
    rep uf' x = rep uf' y ∧
    ∀ z1 z2, z1 ∈ V → z2 ∈ V →
      (rep uf' z1 = rep uf' z2 ↔
       rep uf z1 = rep uf z2 ∨
       rep uf z1 = rep uf x ∧ rep uf z2 = rep uf y ∨
       rep uf z1 = rep uf y ∧ rep uf z2 = rep uf x).
Proof.
  intros Hwf%alcanzable_wf Hx Hy.
  destruct (union_misma V uf x y Hwf Hx Hy)
    as (uf' & rx & ry & Hu & Hwf' & Hrx & Hry & _ & _ & Hm).
  exists uf', (bool_decide (rx ≠ ry)). split_and!; [done | | |].
  - rewrite bool_decide_eq_true.
    rewrite (proj2 (rep_raiz V uf x rx Hwf) Hrx), (proj2 (rep_raiz V uf y ry Hwf) Hry).
    split; [congruence |]. intros H ->. by apply H.
  - apply (rep_misma V); [done | done |]. apply Hm. right; left.
    split; by apply (misma_refl V).
  - intros z1 z2 Hz1 Hz2.
    rewrite (rep_misma V uf' z1 z2 Hwf' Hz1), Hm.
    rewrite !(rep_misma V uf) by done. done.
Qed.

Lemma union_une_witness :
  ∃ uf' b, union uf_profundo_estado "d" "b" = Ok (uf', b) ∧
    (b = true ↔ rep uf_profundo_estado "d" ≠ rep uf_profundo_estado "b") ∧
    rep uf' "d" = rep uf' "b" ∧
    ∀ z1 z2, z1 ∈ ({["a"; "b"; "c"; "d"]} : gset string) →
             z2 ∈ ({["a"; "b"; "c"; "d"]} : gset string) →
      (rep uf' z1 = rep uf' z2 ↔
       rep uf_profundo_estado z1 = rep uf_profundo_estado z2 ∨
       rep uf_profundo_estado z1 = rep uf_profundo_estado "d" ∧
       rep uf_profundo_estado z2 = rep uf_profundo_estado "b" ∨
       rep uf_profundo_estado z1 = rep uf_profundo_estado "b" ∧
       rep uf_profundo_estado z2 = rep uf_profundo_estado "d").
Proof.
  apply (union_une {["a"; "b"; "c"; "d"]} uf_profundo_estado "d" "b").
  - apply (alcanzable_foldl _ (UnionFind_init {["a"; "b"; "c"; "d"]})
             [OpUnion "a" "b"; OpUnion "c" "d"; OpUnion "a" "c"]).
    + apply alc_init.
    + vm_compute. reflexivity.
  - vm_compute. reflexivity.
  - vm_compute. reflexivity.
Defined.

(** A [union] that returns [False] changes no rank and no representative;
    one that returns [True] leaves one root fewer. *)
Theorem union_cuenta (V : gset string) (uf : UnionFind) (x y : string) :
  alcanzable V uf → x ∈ V → y ∈ V →
  ∃ uf' b, union uf x y = Ok (uf', b) ∧
    (b = false → rank uf' = rank uf ∧ (∀ z, rep uf' z = rep uf z) ∧
                 raices (parent uf') = raices (parent uf)) ∧
    (b = true → size (raices (parent uf)) = S (size (raices (parent uf')))).
Proof.
  intros Hwf%alcanzable_wf Hx Hy.
  destruct (wf_reach _ _ Hwf x Hx) as [rx Hrx].
  destruct (wf_reach _ _ Hwf y Hy) as [ry Hry].
  destruct (union_spec V uf x y rx ry Hwf Hrx Hry) as (uf' & Hu & Hwf' & Hsame & Hdiff).
  exists uf', (bool_decide (rx ≠ ry)). split_and!; [done | |].
  - intros E%bool_decide_eq_false%dec_stable. destruct (Hsame E) as [Hrk Hc].
    split_and!; [done | | by apply compressed_raices].
    apply (rep_ext V); [done | done |]. intros z q. by apply compressed_raiz.
  - intros E%bool_decide_eq_true. destruct (Hdiff E) as (krx & kry & _ & _ & Hr & _).
    rewrite Hr. apply (size_raices_remove V elements (orden_de_elements V)).
    apply elem_of_raices. case_decide; by eapply raiz_is_root.
Qed.

Lemma union_cuenta_witness :
  ∃ uf' b, union uf_profundo_estado "d" "b" = Ok (uf', b) ∧
    (b = false → rank uf' = rank uf_profundo_estado ∧
                 (∀ z, rep uf' z = rep uf_profundo_estado z) ∧
                 raices (parent uf') = raices (parent uf_profundo_estado)) ∧
    (b = true →
     size (raices (parent uf_profundo_estado)) = S (size (raices (parent uf')))).
Proof.
  apply (union_cuenta {["a"; "b"; "c"; "d"]} uf_profundo_estado "d" "b").
  - apply (alcanzable_foldl _ (UnionFind_init {["a"; "b"; "c"; "d"]})
             [OpUnion "a" "b"; OpUnion "c" "d"; OpUnion "a" "c"]).
    + apply alc_init.
    + vm_compute. reflexivity.
  - vm_compute. reflexivity.
  - vm_compute. reflexivity.
Defined.

(** Calling [union] again on the same two vertices, in either order,
    returns [False]. *)
Theorem union_repetida (V : gset string) (uf : UnionFind) (x y : string) :
  alcanzable V uf → x ∈ V → y ∈ V →
  ∃ uf1 b uf2 uf3,
    union uf x y = Ok (uf1, b) ∧
    union uf1 x y = Ok (uf2, false) ∧ union uf1 y x = Ok (uf3, false).
Proof.
  intros Hwf%alcanzable_wf Hx Hy.
  destruct (union_misma V uf x y Hwf Hx Hy)
    as (uf1 & rx & ry & Hu & Hwf1 & _ & _ & _ & _ & Hm).
  assert (misma uf1 x y) as (r & Hrx & Hry).
  { apply Hm. right; left. split; by apply (misma_refl V). }
  destruct (union_spec V uf1 x y r r Hwf1 Hrx Hry) as (uf2 & Hu2 & _).
  destruct (union_spec V uf1 y x r r Hwf1 Hry Hrx) as (uf3 & Hu3 & _).
  rewrite bool_decide_eq_false_2 in Hu2, Hu3 by auto.
  by exists uf1, (bool_decide (rx ≠ ry)), uf2, uf3.
Qed.

Lemma union_repetida_witness :
  ∃ uf1 b uf2 uf3,
    union (UnionFind_init {["a"; "b"]}) "a" "b" = Ok (uf1, b) ∧
    union uf1 "a" "b" = Ok (uf2, false) ∧ union uf1 "b" "a" = Ok (uf3, false).
Proof.
  apply (union_repetida {["a"; "b"]} (UnionFind_init {["a"; "b"]}) "a" "b").
  - apply alc_init.
  - vm_compute. reflexivity.
  - vm_compute. reflexivity.
Defined.

(** After any sequence of calls to [find] and [union] on a new structure,
    two vertices have the same representative exactly when a chain of the
    calls to [union] links them. *)
Theorem union_find_correcto (V : gset string) (ops : list operacion) (uf : UnionFind) :
  ejecutar_todas (UnionFind_init V) ops = Ok uf →
  ∀ x y, x ∈ V → y ∈ V → (rep uf x = rep uf y ↔ unidos ops x y).
Proof.
  intros Hrun.
  assert (wf V uf ∧ (∀ x y, misma uf x y → unidos ops x y) ∧
          (∀ a b, OpUnion a b ∈ ops → misma uf a b)) as (Hwf & Hsound & Hcompl).
  { revert uf Hrun. induction ops as [| o ops IH] using rev_ind; intros uf Hrun.
    - injection Hrun as <-. split_and!; [apply wf_init | |].
      + intros x y (r & Hx & Hy).
        assert (∀ z q, raiz (UnionFind_init V) z q → q = z) as Hself.
        { intros z q Hz. destruct (raiz_elem V _ _ _ (wf_init V) Hz) as [HzV _].
          eapply raiz_fun; [exact Hz |]. apply raiz_root. by apply init_parent. }
        rewrite <- (Hself _ _ Hx), (Hself _ _ Hy). apply unidos_refl.
      + intros a b []%elem_of_nil.
    - rewrite ejecutar_todas_snoc in Hrun.
      destruct (ejecutar_todas (UnionFind_init V) ops) as [uf0 |] eqn:E0; [| done].
      cbn in Hrun. destruct (IH uf0 eq_refl) as (Hwf0 & Hs0 & Hc0).
      assert (∀ x y, unidos ops x y → unidos (ops ++ [o]) x y) as Hmono.
      { intros x y. apply unidos_mono. intros o' Ho'. apply elem_of_app. by left. }
      destruct o as [x | x y]; simpl in Hrun.
      + destruct (find uf0 x) as [[uf1 r] |] eqn:Hf; [| done]. cbn in Hrun.
        simplify_eq.
        pose proof (find_ok_elem _ _ _ _ Hf) as Hx.
        rewrite (wf_dom_parent _ _ Hwf0) in Hx.
        destruct (find_raiz V _ _ _ _ Hwf0 Hx Hf) as (_ & _ & Hc & _ & _ & Hwf1).
        assert (∀ a b, misma uf0 a b ↔ misma uf a b) as Hiff.
        { apply misma_iff. intros z q. by apply compressed_raiz. }
        split_and!; [done | |].
        * intros a b Hm%Hiff. by apply Hmono, Hs0.
        * intros a b [Hin | Hin%list_elem_of_singleton]%elem_of_app; [| done].
          by apply Hiff, Hc0.
      + destruct (union uf0 x y) as [[uf1 b] |] eqn:Hu; [| done]. cbn in Hrun.
        simplify_eq.
        destruct (union_ok_elem V _ _ _ _ _ Hwf0 Hu) as [Hx Hy].
        destruct (union_misma V uf0 x y Hwf0 Hx Hy)
          as (uf' & rx & ry & Hu' & Hwf' & _ & _ & _ & _ & Hm).
        rewrite Hu in Hu'. simplify_eq.
        assert (unidos (ops ++ [OpUnion x y]) x y) as Hxy.
        { apply unidos_op, elem_of_app. right. by left. }
        split_and!; [done | |].
        * intros a b [H | [[Ha Hb] | [Ha Hb]]]%Hm.
          -- by apply Hmono, Hs0.
          -- eapply unidos_trans; [by apply Hmono, Hs0 |].
             eapply unidos_trans; [exact Hxy |]. by apply unidos_sym, Hmono, Hs0.
          -- eapply unidos_trans; [by apply Hmono, Hs0 |].
             eapply unidos_trans; [apply unidos_sym, Hxy |].
             by apply unidos_sym, Hmono, Hs0.
        * intros a b [Hin | Hin%list_elem_of_singleton]%elem_of_app; apply Hm.
          -- left. by apply Hc0.
          -- simplify_eq. right; left. split; by apply (misma_refl V). }
  intros x y Hx Hy. rewrite (rep_misma V uf x y Hwf Hx). split; [apply Hsound |].
  intros Hu. destruct (wf_reach _ _ Hwf x Hx) as [r Hr]. exists r. split; [done |].
  by apply (unidos_misma uf ops x y Hcompl Hu).
Qed.

Lemma union_find_correcto_witness :
  rep uf_profundo_estado "b" = rep uf_profundo_estado "d" ↔
  unidos [OpUnion "a" "b"; OpUnion "c" "d"; OpUnion "a" "c"] "b" "d".
Proof.
  apply (union_find_correcto {["a"; "b"; "c"; "d"]}
           [OpUnion "a" "b"; OpUnion "c" "d"; OpUnion "a" "c"] uf_profundo_estado).
  - vm_compute. reflexivity.
  - set_solver.
  - set_solver.
Defined.

(** ** Union by rank *)

Section Rangos.
Context (V : gset string).
Implicit Types uf : UnionFind.

Lemma reach_rank uf x r n kx :
  rangos_crecen uf → reach (parent uf) x r n → rank uf !! x = Some kx →
  ∃ kr, rank uf !! r = Some kr ∧ kx + n ≤ kr.
Proof.
  intros Hrc H. revert kx. induction H as [r Hr | x y r n Hx Hne Hy IH]; intros kx Hkx.
  - exists kx. split; [done | lia].
  - destruct (Hrc x y Hx Hne) as (kx' & ky & Hkx' & Hky & Hlt).
    rewrite Hkx in Hkx'. simplify_eq.
    destruct (IH ky Hky) as (kr & Hkr & Hle). exists kr. split; [done | lia].
Qed.

Lemma rangos_compressed p p' rk :
  rangos_crecen (MkUF p rk) → compressed p p' → rangos_crecen (MkUF p' rk).
Proof.
  intros Hrc Hc x y Hx Hne. simpl in *.
  destruct (Hc x) as [Heq | (r & n & Hx' & Hr)].
  - rewrite Heq in Hx. by apply Hrc.
  - rewrite Hx in Hx'. simplify_eq.
    inversion Hr as [? Hroot | ? y0 ? m Hy0 Hne0 Hreach]; subst; [done |].
    destruct (Hrc x y0 Hy0 Hne0) as (kx & ky0 & Hkx & Hky0 & Hlt).
    destruct (reach_rank (MkUF p rk) y0 r m ky0 Hrc Hreach Hky0) as (kr & Hkr & Hle).
    exists kx, kr. split_and!; [done | done | lia].
Qed.

(** Linking the root [a] under the root [b], whose rank may grow. *)
Lemma rangos_link p2 rk2 rk' a b ka kb kb0 :
  rangos_crecen (MkUF p2 rk2) →
  p2 !! b = Some b →
  rk' !! a = Some ka → rk' !! b = Some kb → ka < kb →
  rk2 !! b = Some kb0 → kb0 ≤ kb →
  (∀ z, z ≠ b → rk' !! z = rk2 !! z) →
  rangos_crecen (MkUF (<[a := b]> p2) rk').
Proof.
  intros Hrc Hb Hka Hkb Hlt Hkb0 Hle Hsame z y Hz Hne. simpl in *.
  destruct (decide (z = a)) as [-> | Hza].
  - rewrite lookup_insert_eq in Hz. simplify_eq. by exists ka, kb.
  - rewrite lookup_insert_ne in Hz by done.
    destruct (Hrc z y Hz Hne) as (kz & ky & Hkz & Hky & Hlt'). simpl in Hkz, Hky.
    assert (z ≠ b) as Hzb.
    { intros ->. rewrite Hb in Hz. by simplify_eq. }
    rewrite <- (Hsame z Hzb) in Hkz.
    destruct (decide (y = b)) as [-> | Hyb].
    + rewrite Hkb0 in Hky. simplify_eq. exists kz, kb. split_and!; [done | done | lia].
    + rewrite <- (Hsame y Hyb) in Hky. by exists kz, ky.
Qed.

Lemma ejecutar_rangos uf o uf' :
  wf V uf → rangos_crecen uf → ejecutar uf o = Ok uf' → rangos_crecen uf'.
Proof.
  intros Hwf Hrc. destruct o as [x | x y]; simpl.
  - destruct (find uf x) as [[uf1 r] |] eqn:Hf; [| done]. cbn. intros [= <-].
    pose proof (find_ok_elem _ _ _ _ Hf) as Hx. rewrite (wf_dom_parent _ _ Hwf) in Hx.
    destruct (find_raiz V _ _ _ _ Hwf Hx Hf) as (_ & Hrk & Hc & _).
    destruct uf as [p rk], uf1 as [p1 rk1]. simpl in *. subst rk1.
    by eapply rangos_compressed.
  - destruct (union uf x y) as [[uf1 b] |] eqn:Hu; [| done]. cbn. intros [= <-].
    destruct (union_inv V _ _ _ _ _ Hwf Hu)
      as (uf2 & rx & ry & _ & _ & Hwf2 & Hrk2 & Hc & Hrx & Hry & Hrx2 & Hry2 & Hcase).
    destruct uf as [p rk], uf2 as [p2 rk2]. simpl in *. subst rk2.
    assert (rangos_crecen (MkUF p2 rk)) as Hrc2 by (by eapply rangos_compressed).
    destruct Hcase as [(_ & _ & ->) | (Hne & _ & krx & kry & Hkx & Hky & Hcase)];
      [done |].
    destruct Hcase as [[Hlt ->] | [[Hlt ->] | [-> ->]]].
    + by apply (rangos_link p2 rk rk rx ry krx kry kry).
    + by apply (rangos_link p2 rk rk ry rx kry krx krx).
    + apply (rangos_link p2 rk (<[rx := kry + 1]> rk) ry rx kry (kry + 1) kry);
        try done.
      * by rewrite lookup_insert_ne.
      * apply lookup_insert_eq.
      * lia.
      * lia.
      * intros z Hz. by rewrite lookup_insert_ne.
Qed.

Lemma init_rangos : rangos_crecen (UnionFind_init V).
Proof.
  intros x y Hx Hne. simpl in Hx.
  apply lookup_set_to_map in Hx as (z & _ & ?); [by simplify_eq | naive_solver].
Qed.

Lemma alcanzable_rangos_crecen uf : alcanzable V uf → rangos_crecen uf.
Proof.
  induction 1 as [| uf o uf' Halc IH Hex]; [apply init_rangos |].
  eapply ejecutar_rangos; [by apply alcanzable_wf | done | done].
Qed.

(** *** The size of the classes *)

Lemma elem_of_clase uf z r : wf V uf → z ∈ clase uf r ↔ raiz uf z r.
Proof.
  intros Hwf. unfold clase. rewrite elem_of_filter, (rep_raiz V) by done.
  split; [by intros [? _] |]. intros Hr. split; [done |].
  rewrite (wf_dom_parent _ _ Hwf). by destruct (raiz_elem V _ _ _ Hwf Hr).
Qed.

Lemma clase_ext uf uf' r :
  wf V uf → wf V uf' → (∀ z, raiz uf z r ↔ raiz uf' z r) → clase uf' r = clase uf r.
Proof.
  intros Hwf Hwf' H. apply set_eq. intros z. by rewrite !elem_of_clase, H.
Qed.

Lemma clase_sub uf r : wf V uf → size (clase uf r) ≤ size V.
Proof.
  intros Hwf. apply subseteq_size. intros z [_ Hz]%elem_of_filter.
  by rewrite <- (wf_dom_parent _ _ Hwf).
Qed.

Lemma ejecutar_clases uf o uf' :
  wf V uf → clases_grandes uf → ejecutar uf o = Ok uf' → clases_grandes uf'.
Proof.
  intros Hwf Hcg. destruct o as [x | x y]; simpl.
  - destruct (find uf x) as [[uf1 r] |] eqn:Hf; [| done]. cbn. intros [= <-].
    pose proof (find_ok_elem _ _ _ _ Hf) as Hx. rewrite (wf_dom_parent _ _ Hwf) in Hx.
    destruct (find_raiz V _ _ _ _ Hwf Hx Hf) as (_ & Hrk & Hc & _ & _ & Hwf1).
    intros q k Hq Hk. rewrite Hrk in Hk.
    rewrite (clase_ext uf uf1 q Hwf Hwf1) by (intros z; by apply compressed_raiz).
    apply Hcg; [| done]. by apply (compressed_root _ _ _ Hc).
  - destruct (union uf x y) as [[uf1 b] |] eqn:Hu; [| done]. cbn. intros [= <-].
    destruct (union_ok_elem V _ _ _ _ _ Hwf Hu) as [Hx Hy].
    destruct (wf_reach _ _ Hwf x Hx) as [rx Hrx].
    destruct (wf_reach _ _ Hwf y Hy) as [ry Hry].
    destruct (union_spec V uf x y rx ry Hwf Hrx Hry) as (uf' & Hu' & Hwf' & Hsame & Hdiff).
    rewrite Hu in Hu'. simplify_eq.
    destruct (decide (rx = ry)) as [E | E].
    + destruct (Hsame E) as [Hrk Hc]. intros q k Hq Hk. rewrite Hrk in Hk.
      rewrite (clase_ext uf uf' q Hwf Hwf') by (intros z; by apply compressed_raiz).
      apply Hcg; [| done]. by apply (compressed_root _ _ _ Hc).
    + destruct (Hdiff E) as (krx & kry & Hkx & Hky & Hr & Hmove & Hrk).
      pose proof (raiz_is_root _ _ _ Hrx) as Hrootx.
      pose proof (raiz_is_root _ _ _ Hry) as Hrooty.
      pose proof (Hcg rx krx Hrootx Hkx) as Hsx.
      pose proof (Hcg ry kry Hrooty Hky) as Hsy.
      set (pierde := if decide (krx < kry) then rx else ry) in *.
      set (gana := if decide (krx < kry) then ry else rx) in *.
      assert (gana ≠ pierde) as Hgp.
      { unfold gana, pierde. destruct (decide (krx < kry)); auto. }
      assert (∀ z q, raiz uf' z q ↔
                ∃ q0, raiz uf z q0 ∧ q = (if decide (q0 = pierde) then gana else q0))
        as Hchar.
      { intros z q. split.
        - intros Hz. destruct (raiz_elem V _ _ _ Hwf' Hz) as [HzV _].
          destruct (wf_reach _ _ Hwf z HzV) as [q0 Hq0]. exists q0. split; [done |].
          eapply raiz_fun; [exact Hz | by apply Hmove].
        - intros (q0 & Hq0 & ->). by apply Hmove. }
      assert (clase uf' gana = clase uf gana ∪ clase uf pierde) as Hgana.
      { apply set_eq. intros z.
        rewrite elem_of_union, !elem_of_clase, Hchar by done. split.
        - intros (q0 & Hq0 & Eq).
          destruct (decide (q0 = pierde)) as [-> | Hn]; [by right | left; by subst].
        - intros [Hz | Hz]; eexists; (split; [exact Hz |]).
          + by rewrite decide_False.
          + by rewrite decide_True. }
      assert (clase uf gana ## clase uf pierde) as Hdisj.
      { intros z Hz1%elem_of_clase Hz2%elem_of_clase; [| done | done].
        apply Hgp. by eapply raiz_fun. }
      assert (size (clase uf' gana) = size (clase uf rx) + size (clase uf ry)) as Hsize.
      { rewrite Hgana, size_union by done. unfold gana, pierde.
        destruct (decide (krx < kry)); lia. }
      intros q k Hq Hk.
      assert (q ∈ raices (parent uf')) as Hq' by (by apply elem_of_raices).
      rewrite Hr in Hq'. apply elem_of_difference in Hq' as [Hq0%elem_of_raices Hqp].
      rewrite elem_of_singleton in Hqp.
      destruct (decide (q = gana)) as [-> | Hqg].
      * rewrite Hsize. rewrite Hrk in Hk. unfold gana in Hk.
        destruct (decide (krx = kry)) as [-> | Hk'].
        -- rewrite decide_False in Hk by lia. rewrite lookup_insert_eq in Hk.
           simplify_eq. rewrite Nat.add_1_r, Nat.pow_succ_r'. lia.
        -- destruct (decide (krx < kry)); rewrite Hk in *; simplify_eq; lia.
      * assert (clase uf' q = clase uf q) as ->.
        { apply set_eq. intros z. rewrite !elem_of_clase, Hchar by done. split.
          - intros (q0 & Hq0' & Eq).
            destruct (decide (q0 = pierde)) as [-> | Hn]; [done | by subst].
          - intros Hz. exists q. split; [done |]. by rewrite decide_False. }
        apply Hcg; [done |]. rewrite Hrk in Hk.
        destruct (decide (krx = kry)); [| done].
        rewrite lookup_insert_ne in Hk; [done |].
        intros <-. apply Hqg. unfold gana. by rewrite decide_False by lia.
Qed.

Lemma init_clases : clases_grandes (UnionFind_init V).
Proof.
  intros r k Hr Hk. simpl in Hk.
  apply lookup_gset_to_gmap_Some in Hk as [HrV <-]. simpl.
  assert (r ∈ clase (UnionFind_init V) r) as Hin.
  { apply elem_of_clase; [apply wf_init |]. by apply raiz_root. }
  destruct (decide (size (clase (UnionFind_init V) r) = 0)) as [E | ?]; [| lia].
  apply size_empty_inv in E. set_solver.
Qed.

Lemma alcanzable_clases uf : alcanzable V uf → clases_grandes uf.
Proof.
  induction 1 as [| uf o uf' Halc IH Hex]; [apply init_clases |].
  eapply ejecutar_clases; [by apply alcanzable_wf | done | done].
Qed.
End Rangos.

(** In a reachable state the rank grows along every proper parent link,
    so the number of links from a vertex to its root is at most the rank
    of the root. *)
Theorem alcanzable_rangos (V : gset string) (uf : UnionFind) :
  alcanzable V uf →
  (∀ x y, parent uf !! x = Some y → y ≠ x →
     ∃ kx ky, rank uf !! x = Some kx ∧ rank uf !! y = Some ky ∧ kx < ky) ∧
  (∀ x r n, reach (parent uf) x r n → ∃ k, rank uf !! r = Some k ∧ n ≤ k).
Proof.
  intros Halc. pose proof (alcanzable_wf V uf Halc) as Hwf.
  pose proof (alcanzable_rangos_crecen V uf Halc) as Hrc.
  split; [exact Hrc |]. intros x r n Hr.
  assert (is_Some (rank uf !! x)) as [kx Hkx].
  { apply elem_of_dom. rewrite (wf_dom_rank _ _ Hwf).
    rewrite <- (wf_dom_parent _ _ Hwf). apply elem_of_dom. by eapply reach_lookup. }
  destruct (reach_rank uf x r n kx Hrc Hr Hkx) as (kr & Hkr & Hle).
  exists kr. split; [done | lia].
Qed.

Lemma alcanzable_rangos_witness :
  (∀ x y, parent uf_profundo_estado !! x = Some y → y ≠ x →
     ∃ kx ky, rank uf_profundo_estado !! x = Some kx ∧
              rank uf_profundo_estado !! y = Some ky ∧ kx < ky) ∧
  (∀ x r n, reach (parent uf_profundo_estado) x r n →
     ∃ k, rank uf_profundo_estado !! r = Some k ∧ n ≤ k).
Proof.
  apply (alcanzable_rangos {["a"; "b"; "c"; "d"]} uf_profundo_estado).
  apply (alcanzable_foldl _ (UnionFind_init {["a"; "b"; "c"; "d"]})
           [OpUnion "a" "b"; OpUnion "c" "d"; OpUnion "a" "c"]).
  - apply alc_init.
  - vm_compute. reflexivity.
Defined.

(** In a reachable state a root of rank [k] represents at least [2 ^ k]
    vertices, so a vertex that is [n] links away from its root lives in a
    structure of at least [2 ^ n] vertices: [find] recurses no deeper than
    the logarithm of the number of vertices. *)
Theorem alcanzable_profundidad (V : gset string) (uf : UnionFind) :
  alcanzable V uf →
  (∀ r k, parent uf !! r = Some r → rank uf !! r = Some k →
          2 ^ k ≤ size (clase uf r)) ∧
  (∀ x r n, reach (parent uf) x r n → 2 ^ n ≤ size V).
Proof.
  intros Halc. pose proof (alcanzable_wf V uf Halc) as Hwf.
  pose proof (alcanzable_rangos_crecen V uf Halc) as Hrc.
  pose proof (alcanzable_clases V uf Halc) as Hcg.
  split; [exact Hcg |]. intros x r n Hr.
  assert (is_Some (rank uf !! x)) as [kx Hkx].
  { apply elem_of_dom. rewrite (wf_dom_rank _ _ Hwf).
    rewrite <- (wf_dom_parent _ _ Hwf). apply elem_of_dom. by eapply reach_lookup. }
  destruct (reach_rank uf x r n kx Hrc Hr Hkx) as (kr & Hkr & Hle).
  pose proof (Hcg r kr (reach_is_root _ _ _ _ Hr) Hkr) as Hsz.
  pose proof (clase_sub V uf r Hwf) as Hsub.
  assert (2 ^ n ≤ 2 ^ kr) by (apply Nat.pow_le_mono_r; lia). lia.
Qed.

Lemma alcanzable_profundidad_witness :
  (∀ r k, parent uf_profundo_estado !! r = Some r →
          rank uf_profundo_estado !! r = Some k →
          2 ^ k ≤ size (clase uf_profundo_estado r)) ∧
  (∀ x r n, reach (parent uf_profundo_estado) x r n →
            2 ^ n ≤ size ({["a"; "b"; "c"; "d"]} : gset string)).
Proof.
  apply (alcanzable_profundidad {["a"; "b"; "c"; "d"]} uf_profundo_estado).
  apply (alcanzable_foldl _ (UnionFind_init {["a"; "b"; "c"; "d"]})
           [OpUnion "a" "b"; OpUnion "c" "d"; OpUnion "a" "c"]).
  - apply alc_init.
  - vm_compute. reflexivity.
Defined.

(** * The best forest *)

Lemma size_le_surj (X Y : gset string) (f : string → string) :
  (∀ y, y ∈ Y → ∃ x, x ∈ X ∧ f x = y) → size Y ≤ size X.
Proof.
  intros Hsurj.
  assert (elements Y ⊆+ f <$> elements X) as Hsub.
  { apply NoDup_submseteq; [apply NoDup_elements |].
    intros y (x & Hx & <-)%elem_of_elements%Hsurj.
    apply list_elem_of_fmap. exists x. by rewrite elem_of_elements. }
  apply submseteq_length in Hsub. by rewrite length_fmap in Hsub.
Qed.

Lemma bucle_app orden V st (l1 l2 : list arista) :
  bucle orden V st (l1 ++ l2) = (st1 ← bucle orden V st l1; bucle orden V st1 l2).
Proof.
  revert st. induction l1 as [| e l1 IH]; intros st; [done |].
  cbn [bucle app]. destruct (paso orden V st e) as [st' |]; cbn; [apply IH | done].
Qed.

Lemma conn_sub (l k : list arista) x y :
  (∀ u v w, (u, v, w) ∈ l → conn k u v) → conn l x y → conn k x y.
Proof.
  intros Hl. induction 1 as [x | u v w Hin | x y _ IH | x y z _ IH1 _ IH2].
  - apply conn_refl.
  - by eapply Hl.
  - by apply conn_sym.
  - by eapply conn_trans.
Qed.

Section Corrida.
Context (V : gset string).

(** The loop runs to the end on any list of edges between vertices of
    [V], and keeps both invariants. *)
Lemma bucle_invs hechas st (l : list arista) :
  inv V hechas st → inv_voraz V hechas st →
  (∀ u v w, (u, v, w) ∈ l → u ∈ V ∧ v ∈ V) →
  ∃ st', bucle elements V st l = Ok st' ∧
         inv V (hechas ++ l) st' ∧ inv_voraz V (hechas ++ l) st'.
Proof.
  intros Hinv Hvor Hl.
  destruct (bucle_spec V elements (orden_de_elements V) hechas st l Hinv Hl)
    as (st1 & Hb1 & Hinv1).
  destruct (bucle_voraz V elements (orden_de_elements V) hechas st l Hvor Hl)
    as (st2 & Hb2 & Hvor2).
  rewrite Hb1 in Hb2. simplify_eq. eauto.
Qed.

Lemma corrida_invs (l : list arista) :
  (∀ u v w, (u, v, w) ∈ l → u ∈ V ∧ v ∈ V) →
  ∃ st, corrida V l = Ok st ∧ inv V l st ∧ inv_voraz V l st.
Proof.
  intros Hl. unfold corrida.
  destruct (print_componentes_spec V elements (orden_de_elements V) _ (wf_init V))
    as (uf0 & Hpc & _).
  rewrite Hpc. cbn.
  apply (bucle_invs [] _ l); [| | done].
  - by apply (inv_init V elements (orden_de_elements V)).
  - by apply (inv_voraz_init V elements (orden_de_elements V)).
Qed.

Lemma corrida_app (l1 l2 : list arista) :
  corrida V (l1 ++ l2) = (st1 ← corrida V l1; bucle elements V st1 l2).
Proof.
  unfold corrida.
  destruct (print_componentes elements (UnionFind_init V) V) as [uf0 |]; cbn; [| done].
  apply bucle_app.
Qed.

(** The loop only adds accepted edges, taken from the edges it goes
    through. *)
Lemma bucle_arbol hechas st (l : list arista) st' :
  inv V hechas st → inv_voraz V hechas st →
  (∀ u v w, (u, v, w) ∈ l → u ∈ V ∧ v ∈ V) →
  bucle elements V st l = Ok st' →
  ∃ ext, arbol st' = arbol st ++ ext ∧ ext `sublist_of` l.
Proof.
  revert hechas st. induction l as [| [[u v] w] l IH]; intros hechas st Hinv Hvor Hl.
  - intros [= <-]. exists []. by rewrite app_nil_r.
  - destruct (Hl u v w) as [Hu Hv]; [by left |].
    destruct (bucle_invs hechas st [(u, v, w)] Hinv Hvor) as (st1 & Hb1 & Hinv1 & Hvor1).
    { intros u' v' w' [= -> -> ->]%list_elem_of_singleton. done. }
    cbn [bucle] in Hb1 |- *.
    destruct (paso elements V st (u, v, w)) as [st1' |] eqn:Hp; [| done].
    cbn in Hb1 |- *. simplify_eq. intros Hb.
    assert (∀ u' v' w', (u', v', w') ∈ l → u' ∈ V ∧ v' ∈ V) as Hl'.
    { intros u' v' w' Hin. apply (Hl u' v' w'). by right. }
    destruct (IH _ _ Hinv1 Hvor1 Hl' Hb) as (ext & Hext & Hsub).
    destruct (paso_efecto V elements (orden_de_elements V) st u v w
                (inv_wf _ _ _ Hinv) Hu Hv)
      as (st2 & ru & rv & Hp2 & _ & _ & _ & _ & Hsame & Hdiff).
    rewrite Hp in Hp2. simplify_eq.
    destruct (decide (ru = rv)) as [E | E].
    + destruct (Hsame E) as (Ha & _). exists ext. rewrite Hext, Ha.
      split; [done | by apply sublist_cons].
    + destruct (Hdiff E) as (Ha & _). exists ((u, v, w) :: ext).
      rewrite Hext, Ha, <- app_assoc. split; [done | by apply sublist_skip].
Qed.

(** On a forest the loop accepts every edge. *)
Lemma corrida_bosque (F : list arista) :
  bosque F → (∀ u v w, (u, v, w) ∈ F → u ∈ V ∧ v ∈ V) →
  ∃ st, corrida V F = Ok st ∧ arbol st = F ∧ inv V F st.
Proof.
  induction 1 as [| l u v w Hl IH Hn]; intros HF.
  - destruct (corrida_invs []) as (st & Hc & Hinv & Hvor); [by intros ? ? ? ?%elem_of_nil |].
    exists st. split_and!; [done | | done].
    pose proof (iv_sub _ _ _ Hvor) as Hsub. by apply sublist_nil_r in Hsub.
  - destruct IH as (st & Hc & Ha & Hinv).
    { intros u' v' w' Hin. apply (HF u' v' w'), elem_of_app. by left. }
    destruct (HF u v w) as [Hu Hv]; [apply elem_of_app; right; by left |].
    rewrite corrida_app, Hc. cbn [mbind result_bind bind bucle].
    destruct (paso_spec V elements (orden_de_elements V) l st u v w Hinv Hu Hv)
      as (st' & Hp & Hinv').
    destruct (paso_efecto V elements (orden_de_elements V) st u v w
                (inv_wf _ _ _ Hinv) Hu Hv)
      as (st2 & ru & rv & Hp2 & _ & Hru & Hrv & _ & _ & Hdiff).
    rewrite Hp in Hp2. simplify_eq.
    rewrite Hp. cbn. exists st2. split_and!; [done | | done].
    assert (ru ≠ rv) as E.
    { intros ->. apply Hn. by apply (inv_sound _ _ _ Hinv u v rv). }
    destruct (Hdiff E) as (Ha & _). by rewrite Ha.
Qed.

(** A forest whose edges join vertices that [G] connects has no more edges
    than the loop accepts on [G]. *)
Lemma bosque_corto (F G : list arista) st :
  bosque F →
  (∀ u v w, (u, v, w) ∈ F → u ∈ V ∧ v ∈ V ∧ conn G u v) →
  (∀ u v w, (u, v, w) ∈ G → u ∈ V ∧ v ∈ V) →
  corrida V G = Ok st →
  length F ≤ length (arbol st).
Proof.
  intros HF HFG HG Hc.
  destruct (corrida_invs G HG) as (st' & Hc' & HinvG & _).
  rewrite Hc in Hc'. simplify_eq.
  destruct (corrida_bosque F HF) as (stF & _ & HaF & HinvF).
  { intros u v w Hin. by destruct (HFG u v w Hin) as (? & ? & _). }
  pose proof (inv_count _ _ _ HinvF) as HcF. rewrite HaF in HcF.
  pose proof (inv_count _ _ _ HinvG) as HcG.
  pose proof (inv_wf _ _ _ HinvF) as HwfF.
  pose proof (inv_wf _ _ _ HinvG) as HwfG.
  assert (size (raices (parent (uf_de st'))) ≤ size (raices (parent (uf_de stF))));
    [| lia].
  apply (size_le_surj _ _
           (λ r, match rep (uf_de st') r with Ok q => q | Raise _ => r end)).
  intros q Hq%elem_of_raices.
  pose proof (raiz_root _ _ Hq) as Hqq.
  destruct (raiz_elem V _ _ _ HwfG Hqq) as [HqV _].
  destruct (wf_reach _ _ HwfF q HqV) as [r Hr].
  exists r. split; [by eapply elem_of_raices, raiz_is_root |].
  assert (conn G q r) as Hconn.
  { apply (conn_sub F); [intros u v w Hin; by destruct (HFG u v w Hin) as (_ & _ & ?) |].
    apply (inv_sound _ _ _ HinvF q r r); [done |].
    by eapply raiz_root, raiz_is_root. }
  apply (conn_same_root V G st' HinvG q r Hconn) in Hqq.
  by rewrite (proj2 (rep_raiz V _ r q HwfG) Hqq).
Qed.
End Corrida.

Lemma filter_todos {A} (P : A → Prop) `{!∀ x, Decision (P x)} (l : list A) :
  Forall P l → filter P l = l.
Proof.
  induction 1 as [| x l Hx _ IH]; [done |]. by rewrite filter_cons_True, IH.
Qed.

Lemma filter_ninguno {A} (P : A → Prop) `{!∀ x, Decision (P x)} (l : list A) :
  Forall (λ x, ¬ P x) l → filter P l = [].
Proof.
  induction 1 as [| x l Hx _ IH]; [done |]. by rewrite filter_cons_False.
Qed.

Section Mayoriza.
Context (reverse : bool).

Local Abbreviation hasta t := (λ e : arista, key_le reverse (peso e) t = true).

Lemma key_le_refl a : key_le reverse a a = true.
Proof. unfold key_le. destruct reverse; lia. Qed.

Lemma key_le_suma a b c d :
  key_le reverse a b = true → key_le reverse c d = true →
  key_le reverse (a + c) (b + d) = true.
Proof. unfold key_le. destruct reverse; lia. Qed.

(** A list sorted by [sorted] is, for every threshold, the edges up to the
    threshold followed by the others. *)
Lemma sorted_split (t : Z) (S : list arista) :
  StronglySorted (antes reverse) S →
  S = filter (hasta t) S ++ filter (λ e, ¬ hasta t e) S.
Proof.
  induction 1 as [| e S HS IH He]; [done |].
  rewrite !filter_cons. destruct (decide (hasta t e)) as [Ht | Ht].
  - rewrite decide_False by auto. simpl. by rewrite <- IH.
  - rewrite decide_True by done.
    assert (Forall (λ e', ¬ hasta t e') S) as Hall.
    { eapply Forall_impl; [exact He |]. intros e' Hee' Ht'. apply Ht.
      exact (key_le_trans reverse _ _ _ Hee' Ht'). }
    assert (filter (hasta t) S = []) as ->.
    { by apply filter_ninguno. }
    simpl. f_equal. symmetry. by apply filter_todos.
Qed.

Lemma ex_max (l : list arista) :
  l ≠ [] →
  ∃ m l', l ≡ₚ m :: l' ∧ Forall (λ e, key_le reverse (peso e) (peso m) = true) l'.
Proof.
  induction l as [| x l IH]; [done |]. intros _.
  destruct l as [| y l]; [by exists x, [] |].
  destruct IH as (m & l' & Hp & Hall); [done |].
  destruct (key_le reverse (peso x) (peso m)) eqn:E.
  - exists m, (x :: l'). split; [| by constructor].
    rewrite Hp. apply Permutation_swap.
  - exists x, (m :: l'). split; [by rewrite Hp |].
    apply key_le_total in E. constructor; [done |].
    eapply Forall_impl; [exact Hall |]. intros e He.
    exact (key_le_trans reverse _ _ _ He E).
Qed.

Lemma cuenta_todos (t : Z) (m : arista) (l : list arista) :
  Forall (λ e, key_le reverse (peso e) (peso m) = true) l →
  key_le reverse (peso m) t = true →
  length (filter (hasta t) l) = length l.
Proof.
  intros Hall Hm. f_equal. apply filter_todos.
  eapply Forall_impl; [exact Hall |]. intros e He.
  exact (key_le_trans reverse _ _ _ He Hm).
Qed.

(** If, for every threshold, [A] has at least as many edges up to the
    threshold as [B], and both have the same length, then the sum of [A]
    comes first. *)
Lemma mayoriza (A B : list arista) :
  length A = length B →
  (∀ t, length (filter (hasta t) B) ≤ length (filter (hasta t) A)) →
  key_le reverse (suma A) (suma B) = true.
Proof.
  remember (length A) as n eqn:En. revert A B En.
  induction n as [| n IH]; intros A B EA EB Hdom.
  - destruct A; [| done]. destruct B; [| done]. apply key_le_refl.
  - destruct (ex_max A) as (a & A' & HpA & HA); [by destruct A |].
    destruct (ex_max B) as (b & B' & HpB & HB); [by destruct B |].
    assert (length A' = n) as EA'.
    { apply Permutation_length in HpA. simpl in HpA. lia. }
    assert (length B' = n) as EB'.
    { apply Permutation_length in HpB. simpl in HpB. lia. }
    assert (∀ t, length (filter (hasta t) (b :: B'))
                 ≤ length (filter (hasta t) (a :: A'))) as Hdom'.
    { intros t. rewrite <- HpA, <- HpB. apply Hdom. }
    assert (key_le reverse (peso a) (peso b) = true) as Hab.
    { destruct (key_le reverse (peso a) (peso b)) eqn:E; [done |]. exfalso.
      specialize (Hdom' (peso b)). rewrite !filter_cons in Hdom'.
      rewrite decide_True in Hdom' by apply key_le_refl.
      rewrite decide_False in Hdom' by congruence. simpl in Hdom'.
      rewrite (cuenta_todos (peso b) b B' HB (key_le_refl _)) in Hdom'.
      pose proof (length_filter (hasta (peso b)) A'). lia. }
    rewrite (suma_perm _ _ HpA), (suma_perm _ _ HpB). simpl.
    apply key_le_suma; [done |]. apply IH; [done | done |].
    intros t. specialize (Hdom' t). rewrite !filter_cons in Hdom'.
    destruct (decide (hasta t b)) as [Hb | Hb].
    + rewrite decide_True in Hdom' by exact (key_le_trans reverse _ _ _ Hab Hb).
      simpl in Hdom'. lia.
    + destruct (decide (hasta t a)) as [Ha | Ha]; simpl in Hdom'; [| done].
      rewrite (cuenta_todos t a A' HA Ha).
      pose proof (length_filter (hasta t) B'). lia.
Qed.
End Mayoriza.

Lemma aristas_ordenadas_sorted (aristas : list arista) (tipo : string) :
  aristas_ordenadas aristas tipo = sorted aristas (bool_decide (tipo ≠ "min")).
Proof.
  unfold aristas_ordenadas. case_decide.
  - by rewrite bool_decide_eq_false_2 by auto.
  - by rewrite bool_decide_eq_true_2.
Qed.

Lemma aristas_nodos (aristas : list arista) u v w :
  (u, v, w) ∈ aristas → u ∈ nodos_de aristas ∧ v ∈ nodos_de aristas.
Proof. intros Hin. rewrite !elem_of_nodos_de. split; exists u, v, w; auto. Qed.

(** The edges of weight up to a threshold that the run accepts are as many
    as the loop accepts on the edges up to the threshold alone. *)
Lemma arbol_umbral (aristas : list arista) (reverse : bool) (t : Z) st :
  corrida (nodos_de aristas) (sorted aristas reverse) = Ok st →
  ∃ st_t,
    corrida (nodos_de aristas)
      (filter (λ e, key_le reverse (peso e) t = true) (sorted aristas reverse))
    = Ok st_t ∧
    length (filter (λ e, key_le reverse (peso e) t = true) (arbol st))
    = length (arbol st_t).
Proof.
  set (V := nodos_de aristas). set (S := sorted aristas reverse).
  set (P := λ e : arista, key_le reverse (peso e) t = true).
  intros Hc.
  assert (∀ u v w, (u, v, w) ∈ S → u ∈ V ∧ v ∈ V) as HS.
  { intros u v w Hin. apply (aristas_nodos aristas u v w).
    unfold S in Hin. by rewrite sorted_perm in Hin. }
  pose proof (sorted_split reverse t S (sorted_sorted reverse aristas)) as Esplit.
  fold P in Esplit.
  set (S1 := filter P S) in *. set (S2 := filter (λ e, ¬ P e) S) in *.
  assert (∀ u v w, (u, v, w) ∈ S1 → u ∈ V ∧ v ∈ V) as HS1.
  { intros u v w [_ Hin]%list_elem_of_filter. by apply (HS u v w). }
  assert (∀ u v w, (u, v, w) ∈ S2 → u ∈ V ∧ v ∈ V) as HS2.
  { intros u v w [_ Hin]%list_elem_of_filter. by apply (HS u v w). }
  destruct (corrida_invs V S1 HS1) as (st1 & Hc1 & Hinv1 & Hvor1).
  exists st1. split; [done |].
  rewrite Esplit, corrida_app, Hc1 in Hc. cbn in Hc.
  destruct (bucle_arbol V S1 st1 S2 st Hinv1 Hvor1 HS2 Hc) as (ext & Hext & Hsub).
  rewrite Hext, filter_app, length_app.
  assert (filter P (arbol st1) = arbol st1) as ->.
  { apply filter_todos, Forall_forall. intros e He.
    assert (e ∈ S1) as [HP _]%list_elem_of_filter; [| done].
    eapply elem_of_sublist; [exact He | apply Hvor1]. }
  assert (filter P ext = []) as ->; [| simpl; lia].
  apply filter_ninguno, Forall_forall. intros e He.
  assert (e ∈ S2) as [HP _]%list_elem_of_filter; [| done].
  by eapply elem_of_sublist.
Qed.

(** The cost of the run against the cost of any spanning forest of the
    graph: it comes first in the order of the sort. *)
Lemma optimo_gen (aristas F : list arista) (tipo : string) st :
  bosque F → (∀ e, e ∈ F → e ∈ aristas) →
  (∀ x y, conn aristas x y → conn F x y) →
  kruskal_run aristas tipo = Ok st →
  key_le (bool_decide (tipo ≠ "min")) (suma (arbol st)) (suma F) = true.
Proof.
  intros HF Hsub Hspan Hrun.
  set (reverse := bool_decide (tipo ≠ "min")).
  set (V := nodos_de aristas).
  assert (corrida V (sorted aristas reverse) = Ok st) as Hc.
  { unfold reverse. rewrite <- aristas_ordenadas_sorted. exact Hrun. }
  assert (∀ u v w, (u, v, w) ∈ sorted aristas reverse → u ∈ V ∧ v ∈ V) as HS.
  { intros u v w Hin. apply (aristas_nodos aristas u v w).
    by rewrite sorted_perm in Hin. }
  assert (∀ u v w, (u, v, w) ∈ F → u ∈ V ∧ v ∈ V) as HFV.
  { intros u v w Hin. by apply (aristas_nodos aristas u v w), Hsub. }
  destruct (corrida_invs V _ HS) as (st' & Hc' & Hinv & Hvor).
  rewrite Hc in Hc'. simplify_eq.
  assert (∀ e, e ∈ arbol st' → e ∈ aristas) as Harb.
  { intros e He. rewrite <- (sorted_perm reverse aristas).
    eapply elem_of_sublist; [exact He | apply Hvor]. }
  apply mayoriza.
  - apply Nat.le_antisymm.
    + destruct (corrida_bosque V F HF HFV) as (stF & HcF & HaF & _).
      assert (length (arbol st') ≤ length (arbol stF)) as Hle;
        [| by rewrite HaF in Hle].
      apply (bosque_corto V (arbol st') F stF); [apply Hvor | | done | done].
      intros u v w Hin%Harb. destruct (aristas_nodos aristas u v w Hin).
      split_and!; [done | done |]. by eapply Hspan, conn_edge.
    + apply (bosque_corto V F (sorted aristas reverse) st'); [done | | done | done].
      intros u v w Hin. destruct (HFV u v w Hin).
      split_and!; [done | done |]. apply (conn_edge _ u v w).
      rewrite sorted_perm. by apply Hsub.
  - intros t. destruct (arbol_umbral aristas reverse t st' Hc) as (st_t & Hct & ->).
    apply (bosque_corto V _
             (filter (λ e, key_le reverse (peso e) t = true) (sorted aristas reverse))
             st_t); [by apply bosque_filter | | | done].
    + intros u v w [HP Hin]%list_elem_of_filter. destruct (HFV u v w Hin).
      split_and!; [done | done |]. apply (conn_edge _ u v w).
      apply list_elem_of_filter. split; [done |]. rewrite sorted_perm. by apply Hsub.
    + intros u v w [_ Hin]%list_elem_of_filter. by apply (HS u v w).
Qed.

Lemma conectados_spec (l : list arista) x y :
  conectados l x y = true ↔ conn l x y.
Proof.
  unfold conectados.
  destruct (corrida_invs (nodos_de l) l (aristas_nodos l)) as (st & -> & Hinv & _).
  pose proof (inv_wf _ _ _ Hinv) as Hwf.
  rewrite orb_true_iff, andb_true_iff, !bool_decide_eq_true. split.
  - intros [-> | [Hx Hrep]]; [apply conn_refl |].
    apply (rep_misma _ _ x y Hwf Hx) in Hrep as (r & Hrx & Hry).
    by apply (inv_sound _ _ _ Hinv x y r).
  - intros Hc. destruct (conn_nodos _ _ _ Hc) as [-> | [Hx Hy]]; [by left |].
    right. split; [done |]. apply (rep_misma _ _ x y Hwf Hx).
    destruct (wf_reach _ _ Hwf x Hx) as [r Hr]. exists r. split; [done |].
    by apply (conn_same_root _ _ _ Hinv x y Hc).
Qed.

Lemma kruskal_run_generador (aristas : list arista) (tipo : string) st :
  kruskal_run aristas tipo = Ok st → bosque_generador aristas (arbol st).
Proof.
  intros Hrun. destruct (kruskal_run_voraz aristas tipo) as (st' & Hrun' & Hinv).
  rewrite Hrun in Hrun'. simplify_eq. split_and!.
  - apply Hinv.
  - intros e He. rewrite <- (aristas_ordenadas_perm aristas tipo).
    eapply elem_of_sublist; [exact He | apply Hinv].
  - intros x y Hc. destruct (conn_nodos _ _ _ Hc) as [-> | [Hx Hy]]; [apply conn_refl |].
    apply (iv_sound _ _ _ Hinv).
    destruct (wf_reach _ _ (iv_wf _ _ _ Hinv) x Hx) as [r Hr].
    exists r. split; [done |].
    refine (proj1 (conn_misma _ (aristas_ordenadas aristas tipo) x y _ _ r) Hr);
      [apply Hinv |].
    eapply conn_mono; [| exact Hc]. intros e. by rewrite aristas_ordenadas_perm.
Qed.

Lemma kruskal_de_run (aristas : list arista) (tipo : string) st :
  kruskal_run aristas tipo = Ok st →
  kruskal aristas tipo = Ok (arbol st, coste_total st).
Proof.
  intros Hrun. unfold kruskal, kruskal_con. fold (kruskal_run aristas tipo).
  by rewrite Hrun.
Qed.

Lemma triangulo_generador : bosque_generador triangulo triangulo_arbol.
Proof.
  split_and!.
  - apply (bosque_snoc [("B", "C", 2%Z)] "A" "C" 3%Z).
    + apply (bosque_snoc [] "B" "C" 2%Z); [constructor |].
      intros H%conectados_spec. vm_compute in H. done.
    + intros H%conectados_spec. vm_compute in H. done.
  - intros e He. unfold triangulo_arbol, triangulo in *. set_solver.
  - intros x y. apply conn_sub. intros u v w Hin. apply conectados_spec.
    unfold triangulo in Hin.
    repeat (apply elem_of_cons in Hin as [[= -> -> ->] | Hin];
            [vm_compute; reflexivity |]).
    by apply elem_of_nil in Hin.
Qed.

(** ** The result is the best spanning forest *)

(** With "min", the edges returned are a spanning forest of the graph and
    no spanning forest of the graph costs less. *)
Theorem kruskal_min_optimo (aristas F : list arista) :
  bosque_generador aristas F →
  ∃ arb coste, kruskal aristas "min" = Ok (arb, coste) ∧
    bosque_generador aristas arb ∧ (coste ≤ suma F)%Z.
Proof.
  intros (HF & Hsub & Hspan).
  destruct (kruskal_run_voraz aristas "min") as (st & Hrun & Hinv).
  exists (arbol st), (coste_total st).
  split_and!; [by apply kruskal_de_run | by eapply kruskal_run_generador |].
  pose proof (optimo_gen aristas F "min" st HF Hsub Hspan Hrun) as Hle.
  rewrite bool_decide_eq_false_2 in Hle by auto.
  unfold key_le in Hle. rewrite (iv_suma _ _ _ Hinv). lia.
Qed.

Lemma kruskal_min_optimo_witness :
  ∃ arb coste, kruskal triangulo "min" = Ok (arb, coste) ∧
    bosque_generador triangulo arb ∧ (coste ≤ suma triangulo_arbol)%Z.
Proof.
  apply (kruskal_min_optimo triangulo triangulo_arbol).
  apply triangulo_generador.
Defined.

(** With any other mode ("max"), the edges returned are a spanning forest
    of the graph and no spanning forest of the graph costs more. *)
Theorem kruskal_max_optimo (aristas F : list arista) (tipo : string) :
  tipo ≠ "min" → bosque_generador aristas F →
  ∃ arb coste, kruskal aristas tipo = Ok (arb, coste) ∧
    bosque_generador aristas arb ∧ (suma F ≤ coste)%Z.
Proof.
  intros Htipo (HF & Hsub & Hspan).
  destruct (kruskal_run_voraz aristas tipo) as (st & Hrun & Hinv).
  exists (arbol st), (coste_total st).
  split_and!; [by apply kruskal_de_run | by eapply kruskal_run_generador |].
  pose proof (optimo_gen aristas F tipo st HF Hsub Hspan Hrun) as Hle.
  rewrite bool_decide_eq_true_2 in Hle by done.
  unfold key_le in Hle. rewrite (iv_suma _ _ _ Hinv). lia.
Qed.

Lemma kruskal_max_optimo_witness :
  ∃ arb coste, kruskal triangulo "max" = Ok (arb, coste) ∧
    bosque_generador triangulo arb ∧ (suma triangulo_arbol ≤ coste)%Z.
Proof.
  apply (kruskal_max_optimo triangulo triangulo_arbol "max").
  - discriminate.
  - apply triangulo_generador.
Defined.

(** The cost returned does not depend on the order of the edges in the
    input list (the edges returned may). *)
Theorem kruskal_coste_perm (aristas aristas' : list arista) (tipo : string) :
  aristas ≡ₚ aristas' →
  ∃ arb arb' coste,
    kruskal aristas tipo = Ok (arb, coste) ∧ kruskal aristas' tipo = Ok (arb', coste).
Proof.
  intros Hp.
  destruct (kruskal_run_voraz aristas tipo) as (st & Hrun & Hinv).
  destruct (kruskal_run_voraz aristas' tipo) as (st' & Hrun' & Hinv').
  exists (arbol st), (arbol st'), (coste_total st).
  split; [by apply kruskal_de_run |].
  rewrite (kruskal_de_run _ _ _ Hrun'). do 2 f_equal.
  destruct (kruskal_run_generador _ _ _ Hrun) as (HF & Hsub & Hspan).
  destruct (kruskal_run_generador _ _ _ Hrun') as (HF' & Hsub' & Hspan').
  assert (∀ x y, conn aristas x y ↔ conn aristas' x y) as Hconn.
  { intros x y. split; apply conn_mono; intros e; by rewrite Hp. }
  pose proof (optimo_gen aristas (arbol st') tipo st HF') as H1.
  pose proof (optimo_gen aristas' (arbol st) tipo st' HF) as H2.
  rewrite (iv_suma _ _ _ Hinv), (iv_suma _ _ _ Hinv').
  unfold key_le in H1, H2.
  assert (∀ a b : Z, (if bool_decide (tipo ≠ "min") then (b <=? a)%Z else (a <=? b)%Z) = true →
                     (if bool_decide (tipo ≠ "min") then (a <=? b)%Z else (b <=? a)%Z) = true →
                     b = a) as Hanti.
  { intros a b. destruct (bool_decide (tipo ≠ "min")); lia. }
  apply (Hanti (suma (arbol st)) (suma (arbol st'))).
  - apply H1; [| | done].
    + intros e He. rewrite Hp. by apply Hsub'.
    + intros x y Hc. by apply Hspan', Hconn.
  - apply H2; [| | done].
    + intros e He. rewrite <- Hp. by apply Hsub.
    + intros x y Hc. by apply Hspan, Hconn.
Qed.

Lemma kruskal_coste_perm_witness :
  ∃ arb arb' coste,
    kruskal triangulo "min" = Ok (arb, coste) ∧
    kruskal [("B", "C", 2%Z); ("A", "B", 1%Z); ("A", "C", 3%Z)] "min" = Ok (arb', coste).
Proof.
  apply (kruskal_coste_perm triangulo
           [("B", "C", 2%Z); ("A", "B", 1%Z); ("A", "C", 3%Z)] "min").
  apply Permutation_swap.
Defined.

(** Whatever the order in which the set of vertices yields its elements,
    [kruskal] raises nothing and returns the same edges and the same
    cost. *)
Theorem kruskal_orden_indiferente (orden : gset string → list string)
    (aristas : list arista) (tipo : string) :
  orden_de orden (nodos_de aristas) →
  ∃ arb coste,
    kruskal_con orden aristas tipo = Ok (arb, coste) ∧
    kruskal aristas tipo = Ok (arb, coste).
Proof.
  intros Horden.
  destruct (kruskal_run_con_orden orden aristas tipo Horden)
    as (st & st' & Hr & Hr' & Ha & Hc & _).
  exists (arbol st'), (coste_total st'). split; [| by apply kruskal_de_run].
  unfold kruskal_con. rewrite Hr. cbn. by rewrite Ha, Hc.
Qed.

Lemma kruskal_orden_indiferente_witness :
  ∃ arb coste,
    kruskal_con (λ s, reverse (elements s)) grafo_ejemplo "min" = Ok (arb, coste) ∧
    kruskal grafo_ejemplo "min" = Ok (arb, coste).
Proof.
  apply (kruskal_orden_indiferente (λ s, reverse (elements s)) grafo_ejemplo "min").
  intros x. rewrite elem_of_reverse. apply elem_of_elements.
Defined.

(** * print_componentes *)

Section Componentes.
Context (V : gset string).
Implicit Types uf : UnionFind.

Lemma componentes_loop_spec uf0 uf comp (hechos ns : list string) :
  wf V uf0 → wf V uf → (∀ z r, raiz uf0 z r ↔ raiz uf z r) →
  (∀ n, n ∈ ns → n ∈ V) →
  (∀ r l, comp !! r = Some l ↔
          l ≠ [] ∧ l = filter (λ n, rep uf0 n = Ok r) hechos) →
  ∃ uf' comp',
    componentes_loop uf comp ns = Ok (uf', comp') ∧
    print_componentes_loop uf ns = Ok uf' ∧
    ∀ r l, comp' !! r = Some l ↔
           l ≠ [] ∧ l = filter (λ n, rep uf0 n = Ok r) (hechos ++ ns).
Proof.
  intros Hwf0. revert uf comp hechos.
  induction ns as [| n ns IH]; intros uf comp hechos Hwf Hraiz Hns Hcomp.
  - exists uf, comp. rewrite app_nil_r. done.
  - assert (n ∈ V) as Hn by (apply Hns; by left).
    destruct (find_spec V uf n Hwf Hn) as (p1 & r0 & Hf & Hr0 & Hc & _ & _ & Hwf1).
    cbn [componentes_loop print_componentes_loop]. rewrite Hf. cbn.
    assert (rep uf0 n = Ok r0) as Hrep.
    { apply (rep_raiz V); [done |]. by apply Hraiz. }
    set (comp1 := if decide (r0 ∉ dom comp) then <[r0 := []]> comp else comp).
    set (l0 := filter (λ m, rep uf0 m = Ok r0) hechos).
    assert (comp1 !! r0 = Some l0) as Hl0.
    { unfold comp1. destruct (decide (r0 ∉ dom comp)) as [Hd | Hd%dec_stable].
      - rewrite lookup_insert_eq. f_equal. symmetry.
        destruct l0 as [| m l0'] eqn:El0; [done |]. exfalso. apply Hd, elem_of_dom.
        exists (m :: l0'). apply Hcomp. split; [done |]. by rewrite <- El0.
      - apply elem_of_dom in Hd as [l Hl].
        rewrite Hl. f_equal. by apply Hcomp in Hl as [_ ->]. }
    unfold getitem. rewrite Hl0. cbn.
    destruct (IH (MkUF p1 (rank uf)) (<[r0 := l0 ++ [n]]> comp1) (hechos ++ [n]))
      as (uf' & comp' & Hloop & Hpc & Hfin); [done | | | | ].
    + intros z r. rewrite Hraiz. by apply (compressed_raiz uf).
    + intros m Hm. apply Hns. by right.
    + intros r l. rewrite filter_app, filter_cons, filter_nil.
      destruct (decide (r = r0)) as [-> | Hne].
      * rewrite lookup_insert_eq, decide_True by done. fold l0. split.
        -- intros [= <-]. split; [by destruct l0 | done].
        -- by intros [_ ->].
      * rewrite lookup_insert_ne by done.
        rewrite decide_False by congruence. rewrite app_nil_r.
        unfold comp1.
        destruct (decide (r0 ∉ dom comp)); [rewrite lookup_insert_ne by done |];
          apply Hcomp.
    + exists uf', comp'. rewrite <- app_assoc in Hfin. done.
Qed.

(** A vertex points at its root. *)
Lemma plano_compressed (p p' : gmap string string) x r :
  compressed p p' → p !! x = Some r → p !! r = Some r →
  p' !! x = Some r ∧ p' !! r = Some r.
Proof.
  intros Hc Hx Hr. split; [| by apply (compressed_root _ _ _ Hc)].
  destruct (Hc x) as [-> | (q & n & Hx' & Hq)]; [done |].
  rewrite Hx'. f_equal.
  assert (∃ m, reach p x r m) as [m Hm].
  { destruct (decide (r = x)) as [-> | Hne].
    - exists 0. by constructor.
    - exists 1. econstructor; [done | done | by constructor]. }
  by destruct (reach_fun _ _ _ _ _ _ Hq Hm).
Qed.

Lemma print_componentes_loop_plano uf (ns : list string) :
  wf V uf → (∀ n, n ∈ ns → n ∈ V) →
  ∃ uf', print_componentes_loop uf ns = Ok uf' ∧
    ∀ x, x ∈ ns → ∃ r, parent uf' !! x = Some r ∧ parent uf' !! r = Some r.
Proof.
  revert uf. induction ns as [| n ns IH]; intros uf Hwf Hns.
  - exists uf. split; [done |]. by intros x ?%elem_of_nil.
  - assert (n ∈ V) as Hn by (apply Hns; by left).
    destruct (find_spec V uf n Hwf Hn) as (p1 & r0 & Hf & _ & _ & Hn1 & Hr1 & Hwf1).
    cbn [print_componentes_loop]. rewrite Hf. cbn.
    assert (∀ m, m ∈ ns → m ∈ V) as Hns' by (intros m Hm; apply Hns; by right).
    destruct (IH _ Hwf1 Hns') as (uf' & Hloop & Hplano).
    destruct (print_componentes_loop_spec V _ ns Hwf1 Hns') as (uf'' & Hloop' & _ & _ & Hc).
    rewrite Hloop in Hloop'. simplify_eq.
    exists uf''. split; [done |].
    intros x [-> | Hx]%elem_of_cons; [| by apply Hplano].
    exists r0. by apply (plano_compressed p1).
Qed.
End Componentes.

(** The dictionary that [print_componentes] builds lists, under each
    root, exactly the vertices visited that the root represents, in the
    order of the visit; a root with no such vertex is not a key.  The
    structure is left as the calls to [find] leave it. *)
Theorem componentes_particion (V : gset string) (orden : gset string → list string)
    (uf : UnionFind) :
  alcanzable V uf → orden_de orden V →
  ∃ uf' comp,
    componentes orden uf V = Ok (uf', comp) ∧
    print_componentes orden uf V = Ok uf' ∧
    ∀ r l, comp !! r = Some l ↔
           l ≠ [] ∧ l = filter (λ n, rep uf n = Ok r) (orden V).
Proof.
  intros Hwf%alcanzable_wf Horden.
  destruct (componentes_loop_spec V uf uf ∅ [] (orden V) Hwf Hwf)
    as (uf' & comp & Hc & Hp & Hfin); [done | done | | by eauto].
  intros r l. rewrite lookup_empty, filter_nil. split; [done |]. by intros [? ->].
Qed.

Lemma componentes_particion_witness :
  ∃ uf' comp,
    componentes elements uf_profundo_estado {["a"; "b"; "c"; "d"]} = Ok (uf', comp) ∧
    print_componentes elements uf_profundo_estado {["a"; "b"; "c"; "d"]} = Ok uf' ∧
    ∀ r l, comp !! r = Some l ↔
           l ≠ [] ∧
           l = filter (λ n, rep uf_profundo_estado n = Ok r)
                 (elements ({["a"; "b"; "c"; "d"]} : gset string)).
Proof.
  apply (componentes_particion {["a"; "b"; "c"; "d"]} elements uf_profundo_estado).
  - apply (alcanzable_foldl _ (UnionFind_init {["a"; "b"; "c"; "d"]})
             [OpUnion "a" "b"; OpUnion "c" "d"; OpUnion "a" "c"]).
    + apply alc_init.
    + vm_compute. reflexivity.
  - intros x. apply elem_of_elements.
Defined.

(** After [print_componentes] has visited every vertex, each vertex points
    directly at its root; no rank and no representative has changed. *)
Theorem print_componentes_aplana (V : gset string) (orden : gset string → list string)
    (uf : UnionFind) :
  alcanzable V uf → (∀ x, x ∈ orden V ↔ x ∈ V) →
  ∃ uf', print_componentes orden uf V = Ok uf' ∧
    rank uf' = rank uf ∧ (∀ z, rep uf' z = rep uf z) ∧
    ∀ x, x ∈ V → ∃ r, parent uf' !! x = Some r ∧ parent uf' !! r = Some r.
Proof.
  intros Hwf%alcanzable_wf Horden.
  assert (∀ n, n ∈ orden V → n ∈ V) as Hns by (intros n; apply Horden).
  destruct (print_componentes_loop_spec V uf (orden V) Hwf Hns)
    as (uf' & Hloop & Hwf' & Hrk & Hc).
  destruct (print_componentes_loop_plano V uf (orden V) Hwf Hns) as (uf'' & Hloop' & Hpl).
  rewrite Hloop in Hloop'. simplify_eq.
  exists uf''. split_and!; [done | done | |].
  - apply (rep_ext V); [done | done |]. intros z r. by apply compressed_raiz.
  - intros x Hx. by apply Hpl, Horden.
Qed.

Lemma print_componentes_aplana_witness :
  ∃ uf', print_componentes elements uf_profundo_estado {["a"; "b"; "c"; "d"]} = Ok uf' ∧
    rank uf' = rank uf_profundo_estado ∧
    (∀ z, rep uf' z = rep uf_profundo_estado z) ∧
    ∀ x, x ∈ ({["a"; "b"; "c"; "d"]} : gset string) →
         ∃ r, parent uf' !! x = Some r ∧ parent uf' !! r = Some r.
Proof.
  apply (print_componentes_aplana {["a"; "b"; "c"; "d"]} elements uf_profundo_estado).
  - apply (alcanzable_foldl _ (UnionFind_init {["a"; "b"; "c"; "d"]})
             [OpUnion "a" "b"; OpUnion "c" "d"; OpUnion "a" "c"]).
    + apply alc_init.
    + vm_compute. reflexivity.
  - intros x. apply elem_of_elements.
Defined.

(** * Both trees from the same list *)

Lemma kruskal_h_spec (h : heap) (a : nat) (l : list arista) (tipo : string) :
  h !! a = Some l →
  ∃ h' a_arbol arb coste,
    kruskal_h h a tipo = Ok (h', a_arbol, coste) ∧
    (∀ b, b ∈ dom h → h' !! b = h !! b) ∧
    (a_arbol ∉ dom h) ∧ h' !! a_arbol = Some arb ∧
    kruskal l tipo = Ok (arb, coste).
Proof.
  intros Ha.
  destruct (kruskal_run_spec l tipo) as (st & Hrun & _).
  pose proof (kruskal_de_run _ _ _ Hrun) as Hk.
  unfold kruskal_h, new_list. cbn zeta.
  rewrite (lookup_total_correct _ _ _ Ha).
  set (a_ord := fresh (dom h)).
  set (h1 := <[a_ord := aristas_ordenadas l tipo]> h).
  set (a_arbol := fresh (dom h1)).
  set (h2 := <[a_arbol := []]> h1).
  assert (a_ord ∉ dom h) as Hord by apply is_fresh.
  assert (a_arbol ∉ dom h1) as Harb by apply is_fresh.
  assert (a_arbol ≠ a_ord ∧ a_arbol ∉ dom h) as [Hne Harb'].
  { unfold h1 in Harb. rewrite dom_insert_L in Harb. set_solver. }
  assert (h2 !!! a_ord = aristas_ordenadas l tipo) as Hread.
  { apply lookup_total_correct. unfold h2, h1.
    rewrite lookup_insert_ne by done. apply lookup_insert_eq. }
  rewrite Hread. unfold kruskal_run, kruskal_run_con in Hrun. cbn zeta in Hrun.
  destruct (print_componentes elements (UnionFind_init (nodos_de l)) (nodos_de l))
    as [uf0 |]; cbn in Hrun |- *; [| done].
  destruct (bucle_h_sim (nodos_de l) a_arbol h2 uf0 0%Z [] []
              (aristas_ordenadas l tipo) st) as (h' & Hb & Hh' & Hfr);
    [apply lookup_insert_eq | done |].
  rewrite Hb. cbn.
  exists h', a_arbol, (arbol st), (coste_total st).
  split_and!; [done | | done | done | done].
  intros b Hb'. rewrite Hfr by set_solver. unfold h2, h1.
  rewrite !lookup_insert_ne by set_solver. done.
Qed.

(** In the "both" workflow the second run works on the list as the caller
    made it, and both trees are there at the end: each run returns what
    [kruskal] returns on that list alone, in two different new objects,
    and the caller's list is unchanged. *)
Theorem ambos_independientes (h : heap) (a : nat) (l : list arista) :
  h !! a = Some l →
  ∃ h2 a_min coste_min a_max coste_max arb_min arb_max,
    ambos_h h a = Ok (h2, (a_min, coste_min), (a_max, coste_max)) ∧
    kruskal l "min" = Ok (arb_min, coste_min) ∧
    kruskal l "max" = Ok (arb_max, coste_max) ∧
    h2 !! a_min = Some arb_min ∧ h2 !! a_max = Some arb_max ∧
    a_min ≠ a_max ∧ h2 !! a = Some l.
Proof.
  intros Ha.
  destruct (kruskal_h_spec h a l "min" Ha)
    as (h1 & a_min & arb_min & c_min & Hk1 & Hfr1 & Hnew1 & Harb1 & Hres1).
  assert (a ∈ dom h) as Hdom by (apply elem_of_dom; eauto).
  assert (h1 !! a = Some l) as Ha1 by (by rewrite Hfr1).
  destruct (kruskal_h_spec h1 a l "max" Ha1)
    as (h2 & a_max & arb_max & c_max & Hk2 & Hfr2 & Hnew2 & Harb2 & Hres2).
  assert (a_min ∈ dom h1) as Hmin1 by (apply elem_of_dom; eauto).
  exists h2, a_min, c_min, a_max, c_max, arb_min, arb_max.
  unfold ambos_h. rewrite Hk1. cbn [mbind result_bind bind]. rewrite Hk2. cbn.
  split_and!; [done | done | done | | done | |].
  - by rewrite Hfr2.
  - intros ->. done.
  - rewrite Hfr2; [done |]. apply elem_of_dom. eauto.
Qed.

Lemma ambos_independientes_witness :
  ∃ h2 a_min coste_min a_max coste_max arb_min arb_max,
    ambos_h {[0 := grafo_ejemplo]} 0 = Ok (h2, (a_min, coste_min), (a_max, coste_max)) ∧
    kruskal grafo_ejemplo "min" = Ok (arb_min, coste_min) ∧
    kruskal grafo_ejemplo "max" = Ok (arb_max, coste_max) ∧
    h2 !! a_min = Some arb_min ∧ h2 !! a_max = Some arb_max ∧
    a_min ≠ a_max ∧ h2 !! 0 = Some grafo_ejemplo.
Proof.
  apply (ambos_independientes {[0 := grafo_ejemplo]} 0 grafo_ejemplo).
  vm_compute. reflexivity.
Defined.

(** * Sorting with [<] alone *)

Lemma en_take {A} (x : A) (n : nat) (l : list A) : x ∈ take n l → x ∈ l.
Proof. intros (i & Hi & _)%elem_of_take. by eapply list_elem_of_lookup_2. Qed.

Section ListSort.
Context {A : Type} (lt : A → A → bool).

Lemma binsert_split fuel pivot (l : list A) :
  length l ≤ fuel →
  ∃ l1 l2, Pesos.binsert lt fuel pivot l = l1 ++ pivot :: l2 ∧ l = l1 ++ l2.
Proof.
  revert l. induction fuel as [| fuel IH]; intros l Hlen.
  - destruct l; [| simpl in Hlen; lia]. by exists [], [].
  - cbn [Pesos.binsert]. destruct (l !! (length l / 2)) as [p |] eqn:Hp.
    + assert (length l / 2 < length l) as Hm by (by apply lookup_lt_Some in Hp).
      destruct (lt pivot p).
      * destruct (IH (take (length l / 2) l)) as (l1 & l2 & -> & Hl).
        { rewrite length_take. lia. }
        exists l1, (l2 ++ drop (length l / 2) l). split.
        -- by rewrite <- app_assoc.
        -- rewrite app_assoc, <- Hl. by rewrite take_drop.
      * destruct (IH (drop (S (length l / 2)) l)) as (l1 & l2 & -> & Hl).
        { rewrite length_drop. lia. }
        exists (take (S (length l / 2)) l ++ l1), l2. split.
        -- by rewrite <- app_assoc.
        -- rewrite <- app_assoc, <- Hl. by rewrite take_drop.
    + exists [], l. done.
Qed.

Lemma binsert_perm pivot (l : list A) :
  Pesos.binsert lt (length l) pivot l ≡ₚ pivot :: l.
Proof.
  destruct (binsert_split (length l) pivot l) as (l1 & l2 & -> & Hl); [done |].
  rewrite <- Permutation_middle. by f_equiv; rewrite <- Hl.
Qed.

Lemma binarysort_perm (run rest : list A) :
  Pesos.binarysort lt run rest ≡ₚ run ++ rest.
Proof.
  revert run. induction rest as [| x rest IH]; intros run; simpl.
  - by rewrite app_nil_r.
  - unfold Pesos.binarysort in *. simpl. rewrite IH, binsert_perm.
    simpl. apply Permutation_middle.
Qed.

Lemma list_sort_perm (l : list A) : Pesos.list_sort lt l ≡ₚ l.
Proof.
  unfold Pesos.list_sort. destruct (Pesos.count_run lt l) as [n d].
  rewrite binarysort_perm. destruct d; [rewrite reverse_Permutation |];
    by rewrite take_drop.
Qed.

(** ** When [<] orders the items *)

Context (P : A → Prop).
Hypothesis asim : ∀ a b, P a → P b → lt a b = true → lt b a = false.
Hypothesis trans :
  ∀ a b c, P a → P b → P c → lt b a = false → lt c b = false → lt c a = false.

(** [a] may stand before [b]. *)
Local Abbreviation le := (λ a b : A, lt b a = false).
Local Abbreviation gt := (λ a b : A, lt b a = true).

Lemma lt_transitivo a b c :
  P a → P b → P c → lt a b = true → lt b c = true → lt a c = true.
Proof.
  intros Ha Hb Hc Hab Hbc. destruct (lt a c) eqn:E; [done |].
  assert (lt b c = false); [| congruence].
  apply (trans c a b); auto.
Qed.

Lemma binsert_ordered fuel pivot (l : list A) :
  length l ≤ fuel → P pivot → Forall P l → StronglySorted le l →
  ∃ l1 l2, Pesos.binsert lt fuel pivot l = l1 ++ pivot :: l2 ∧ l = l1 ++ l2 ∧
           Forall (λ x, lt pivot x = false) l1 ∧ Forall (λ x, lt pivot x = true) l2.
Proof.
  revert l. induction fuel as [| fuel IH]; intros l Hlen Hpiv HP Hs.
  - destruct l; [| simpl in Hlen; lia]. by exists [], [].
  - cbn [Pesos.binsert]. destruct (l !! (length l / 2)) as [p |] eqn:Hp.
    + assert (length l / 2 < length l) as Hm by (by apply lookup_lt_Some in Hp).
      pose proof (take_drop_middle _ _ _ Hp) as Hl.
      set (m := length l / 2) in *. clearbody m.
      assert (P p) as HPp.
      { rewrite Forall_forall in HP. apply HP. by eapply list_elem_of_lookup_2. }
      rewrite <- Hl in Hs, HP.
      apply StronglySorted_app in Hs as (Hcross & Hs1 & Hs2).
      apply Forall_app in HP as [HP1 HP2].
      apply StronglySorted_inv in Hs2 as [Hs2 Hp2].
      apply Forall_cons in HP2 as [_ HP2].
      destruct (lt pivot p) eqn:E.
      * destruct (IH (take m l)) as (l1 & l2 & -> & Ht & H1 & H2); auto.
        { rewrite length_take. lia. }
        exists l1, (l2 ++ drop m l). split_and!.
        -- by rewrite <- app_assoc.
        -- rewrite app_assoc, <- Ht. by rewrite take_drop.
        -- done.
        -- apply Forall_app. split; [done |].
           rewrite <- Hl at 1. rewrite drop_app_length'; [| by rewrite length_take; lia].
           constructor; [done |].
           rewrite Forall_forall in Hp2, HP2 |- *. intros x Hx.
           destruct (lt pivot x) eqn:E'; [done |].
           assert (lt pivot p = false); [| congruence].
           apply (trans p x pivot); auto.
      * destruct (IH (drop (S m) l)) as (l1 & l2 & -> & Ht & H1 & H2); auto.
        { rewrite length_drop. lia. }
        exists (take (S m) l ++ l1), l2. split_and!.
        -- by rewrite <- app_assoc.
        -- rewrite <- app_assoc, <- Ht. by rewrite take_drop.
        -- apply Forall_app. split; [| done].
           rewrite (take_S_r _ _ _ Hp). apply Forall_app. split; [| by repeat constructor].
           rewrite Forall_forall in HP1 |- *. intros x Hx.
           apply (trans x p pivot); auto.
           apply Hcross; [done | by left].
        -- done.
    + apply lookup_ge_None in Hp.
      assert (l = []) as ->.
      { destruct l as [| a l]; [done |].
        pose proof (Nat.div_lt (length (a :: l)) 2 ltac:(simpl; lia) ltac:(lia)). lia. }
      by exists [], [].
Qed.

Lemma binsert_sorted pivot (l : list A) :
  P pivot → Forall P l → StronglySorted le l →
  StronglySorted le (Pesos.binsert lt (length l) pivot l).
Proof.
  intros Hpiv HP Hs.
  destruct (binsert_ordered (length l) pivot l) as (l1 & l2 & -> & Hl & H1 & H2); auto.
  subst l. apply StronglySorted_app in Hs as (Hcross & Hs1 & Hs2).
  apply Forall_app in HP as [HP1 HP2].
  apply StronglySorted_app_2; [| done |].
  - intros x1 x2 Hx1 [-> | Hx2]%elem_of_cons.
    + rewrite Forall_forall in H1. by apply H1.
    + by apply Hcross.
  - constructor; [done |].
    rewrite Forall_forall in H2, HP2 |- *. intros x Hx. apply asim; auto.
Qed.

Lemma binarysort_sorted (run rest : list A) :
  Forall P run → Forall P rest → StronglySorted le run →
  StronglySorted le (Pesos.binarysort lt run rest).
Proof.
  revert run. induction rest as [| x rest IH]; intros run Hrun Hrest Hs; [done |].
  apply Forall_cons in Hrest as [Hx Hrest].
  unfold Pesos.binarysort in *. simpl. apply IH; [| done |].
  - rewrite binsert_perm. by constructor.
  - by apply binsert_sorted.
Qed.

Lemma run_asc_sorted prev (l : list A) :
  P prev → Forall P l →
  StronglySorted le (prev :: take (Pesos.run_asc lt prev l) l).
Proof.
  revert prev. induction l as [| x l IH]; intros prev Hprev Hl; simpl.
  - repeat constructor.
  - apply Forall_cons in Hl as [Hx Hl].
    destruct (lt x prev) eqn:E; simpl; [repeat constructor |].
    pose proof (IH x Hx Hl) as Hs. constructor; [done |].
    constructor; [done |].
    apply StronglySorted_inv in Hs as [_ Hs].
    rewrite Forall_forall in Hs, Hl |- *. intros y Hy.
    apply (trans prev x y); auto.
    apply Hl. by eapply en_take.
Qed.

Lemma run_desc_sorted prev (l : list A) :
  P prev → Forall P l →
  StronglySorted gt (prev :: take (Pesos.run_desc lt prev l) l).
Proof.
  revert prev. induction l as [| x l IH]; intros prev Hprev Hl; simpl.
  - repeat constructor.
  - apply Forall_cons in Hl as [Hx Hl].
    destruct (lt x prev) eqn:E; simpl; [| repeat constructor].
    pose proof (IH x Hx Hl) as Hs. constructor; [done |].
    constructor; [done |].
    apply StronglySorted_inv in Hs as [_ Hs].
    rewrite Forall_forall in Hs, Hl |- *. intros y Hy.
    apply (lt_transitivo y x prev); auto.
    apply Hl. by eapply en_take.
Qed.

Lemma desc_reverse_sorted (l : list A) :
  Forall P l → StronglySorted gt l → StronglySorted le (reverse l).
Proof.
  intros HP. induction 1 as [| x l Hs IH Hx]; [constructor |].
  apply Forall_cons in HP as [HPx HP].
  rewrite reverse_cons. apply StronglySorted_app_2; [| by apply IH | repeat constructor].
  intros x1 x2 Hx1 ->%list_elem_of_singleton.
  rewrite elem_of_reverse in Hx1. rewrite Forall_forall in Hx, HP.
  apply (asim x1 x); [by apply HP | done | by apply Hx].
Qed.

Lemma list_sort_sorted (l : list A) :
  Forall P l → StronglySorted le (Pesos.list_sort lt l).
Proof.
  intros HP. unfold Pesos.list_sort.
  destruct (Pesos.count_run lt l) as [n d] eqn:Hc.
  assert (Forall P (take n l)) as HPt by (by apply Forall_take).
  assert (Forall P (drop n l)) as HPd by (by apply Forall_drop).
  apply binarysort_sorted; [destruct d; [by apply Forall_reverse | done] | done |].
  destruct l as [| x [| y l]]; simpl in Hc.
  - injection Hc as <- <-. constructor.
  - injection Hc as <- <-. repeat constructor.
  - apply Forall_cons in HP as [Hx HP]. apply Forall_cons in HP as [Hy HP].
    destruct (lt y x) eqn:E; injection Hc as <- <-.
    + apply desc_reverse_sorted; [done |]. simpl.
      pose proof (run_desc_sorted y l Hy HP) as Hs.
      constructor; [done |]. constructor; [done |].
      apply StronglySorted_inv in Hs as [_ Hs].
      rewrite Forall_forall in Hs, HP |- *. intros z Hz.
      apply (lt_transitivo z y x); auto.
      apply HP. by eapply en_take.
    + simpl. pose proof (run_asc_sorted y l Hy HP) as Hs.
      constructor; [done |]. constructor; [done |].
      apply StronglySorted_inv in Hs as [_ Hs].
      rewrite Forall_forall in Hs, HP |- *. intros z Hz.
      apply (trans x y z); auto.
      apply HP. by eapply en_take.
Qed.
End ListSort.

Lemma StronglySorted_reverse {A} (R : A → A → Prop) (l : list A) :
  StronglySorted R l → StronglySorted (flip R) (reverse l).
Proof.
  induction 1 as [| x l Hs IH Hx]; [constructor |].
  rewrite reverse_cons. apply StronglySorted_app_2; [| done | repeat constructor].
  intros x1 x2 Hx1 ->%list_elem_of_singleton. rewrite elem_of_reverse in Hx1.
  rewrite Forall_forall in Hx. by apply Hx.
Qed.

(** ** The sort is stable *)

Section Estable.
Context {A : Type} (lt : A → A → bool) (P : A → Prop).
Hypothesis asim : ∀ a b, P a → P b → lt a b = true → lt b a = false.
Hypothesis trans :
  ∀ a b c, P a → P b → P c → lt b a = false → lt c b = false → lt c a = false.
(** [Q] picks items none of which is less than another. *)
Context (Q : A → Prop) `{!∀ a, Decision (Q a)}.
Hypothesis iguales : ∀ a b, Q a → Q b → lt a b = false.

Lemma filter_nada (l : list A) : Forall (λ x, ¬ Q x) l → filter Q l = [].
Proof.
  induction 1 as [| x l Hx _ IH]; [done |]. by rewrite filter_cons_False.
Qed.

Lemma binsert_stable pivot (l : list A) :
  P pivot → Forall P l → StronglySorted (λ a b, lt b a = false) l →
  filter Q (Pesos.binsert lt (length l) pivot l) = filter Q (l ++ [pivot]).
Proof.
  intros Hpiv HP Hs.
  destruct (binsert_ordered lt P trans (length l) pivot l)
    as (l1 & l2 & -> & Hl & H1 & H2); auto.
  subst l. rewrite <- !app_assoc, !filter_app, !filter_cons, filter_nil.
  destruct (decide (Q pivot)) as [Hq | Hq]; [| by rewrite app_nil_r].
  rewrite (filter_nada l2); [done |].
  eapply Forall_impl; [exact H2 |]. intros x Hx Hqx. simpl in Hx.
  rewrite (iguales pivot x Hq Hqx) in Hx. done.
Qed.

Lemma binarysort_stable (run rest : list A) :
  Forall P run → Forall P rest → StronglySorted (λ a b, lt b a = false) run →
  filter Q (Pesos.binarysort lt run rest) = filter Q (run ++ rest).
Proof.
  revert run. induction rest as [| x rest IH]; intros run Hrun Hrest Hs.
  - by rewrite app_nil_r.
  - apply Forall_cons in Hrest as [Hx Hrest].
    unfold Pesos.binarysort in *. simpl. rewrite IH; [| | done |].
    + rewrite filter_app, binsert_stable by done.
      by rewrite <- filter_app, <- app_assoc.
    + rewrite binsert_perm. by constructor.
    + by apply (binsert_sorted lt P asim trans).
Qed.

Lemma desc_reverse_stable (l : list A) :
  StronglySorted (λ a b, lt b a = true) l → filter Q (reverse l) = filter Q l.
Proof.
  induction 1 as [| x l Hs IH Hx]; [done |].
  rewrite reverse_cons, filter_app, IH, !filter_cons, filter_nil.
  destruct (decide (Q x)) as [Hq | Hq]; [| by rewrite app_nil_r].
  rewrite (filter_nada l); [done |].
  eapply Forall_impl; [exact Hx |]. intros y Hy Hqy. simpl in Hy.
  rewrite (iguales y x Hqy Hq) in Hy. done.
Qed.

Lemma list_sort_stable (l : list A) :
  Forall P l → filter Q (Pesos.list_sort lt l) = filter Q l.
Proof.
  intros HP.
  pose proof (list_sort_sorted lt P asim trans l HP) as Hsorted.
  unfold Pesos.list_sort in *.
  destruct (Pesos.count_run lt l) as [n d] eqn:Hc.
  assert (Forall P (take n l)) as HPt by (by apply Forall_take).
  assert (Forall P (drop n l)) as HPd by (by apply Forall_drop).
  assert (StronglySorted (λ a b, lt b a = false)
            (if d then reverse (take n l) else take n l) ∧
          filter Q (if d then reverse (take n l) else take n l) = filter Q (take n l))
    as [Hs Hf].
  { destruct l as [| x [| y l]]; simpl in Hc.
    - injection Hc as <- <-. split; [constructor | done].
    - injection Hc as <- <-. split; [repeat constructor | done].
    - apply Forall_cons in HP as [Hx HP]. apply Forall_cons in HP as [Hy HP].
      destruct (lt y x) eqn:E; injection Hc as <- <-.
      + assert (StronglySorted (λ a b, lt b a = true)
                  (take (2 + Pesos.run_desc lt y l) (x :: y :: l))) as Hd.
        { simpl. pose proof (run_desc_sorted lt P asim trans y l Hy HP) as Hs.
          constructor; [done |]. constructor; [done |].
          apply StronglySorted_inv in Hs as [_ Hs].
          rewrite Forall_forall in Hs, HP |- *. intros z Hz.
          apply (lt_transitivo lt P asim trans z y x); auto.
          apply HP. by eapply en_take. }
        split; [by apply (desc_reverse_sorted lt P asim) | by apply desc_reverse_stable].
      + split; [| done]. simpl.
        pose proof (run_asc_sorted lt P trans y l Hy HP) as Hs.
        constructor; [done |]. constructor; [done |].
        apply StronglySorted_inv in Hs as [_ Hs].
        rewrite Forall_forall in Hs, HP |- *. intros z Hz.
        apply (trans x y z); auto.
        apply HP. by eapply en_take. }
  rewrite binarysort_stable; [| destruct d; [by apply Forall_reverse | done] | done | done].
  by rewrite filter_app, Hf, <- filter_app, take_drop.
Qed.
End Estable.

(** * kruskal on any weights *)

Lemma ordena_iff {W} `{!Numero W} (ws : list W) :
  ordena ws = true ↔
  (∀ a b, a ∈ ws → b ∈ ws → menor a b = true → menor b a = false) ∧
  (∀ a b c, a ∈ ws → b ∈ ws → c ∈ ws →
     menor b a = false → menor c b = false → menor c a = false).
Proof.
  unfold ordena. rewrite <- Is_true_true, forallb_True, Forall_forall. split.
  - intros H. split.
    + intros a b Ha Hb Hab. specialize (H a Ha).
      rewrite forallb_True, Forall_forall in H. specialize (H b Hb).
      apply andb_True in H as [H _]. rewrite Hab in H. by destruct (menor b a).
    + intros a b c Ha Hb Hc Hba Hcb. specialize (H a Ha).
      rewrite forallb_True, Forall_forall in H. specialize (H b Hb).
      apply andb_True in H as [_ H].
      rewrite forallb_True, Forall_forall in H. specialize (H c Hc).
      rewrite Hba, Hcb in H. by destruct (menor c a).
  - intros [H1 H2] a Ha. rewrite forallb_True, Forall_forall. intros b Hb.
    apply andb_True. split.
    + specialize (H1 a b Ha Hb). destruct (menor a b); [| done].
      by rewrite H1.
    + rewrite forallb_True, Forall_forall. intros c Hc.
      specialize (H2 a b c Ha Hb Hc).
      destruct (menor b a); [done |]. destruct (menor c b); [done |].
      by rewrite H2.
Qed.

(** [<] orders any ints. *)
Lemma ordena_enteros (ws : list Z) : ordena ws = true.
Proof.
  apply ordena_iff. split.
  - intros a b _ _. simpl. lia.
  - intros a b c _ _ _. simpl. lia.
Qed.

Section SortedPesos.
Context {W : Type} `{!Numero W}.
Implicit Types aristas : list (Pesos.arista W).

Lemma sorted_pesos_perm aristas (reverse : bool) :
  Pesos.sorted aristas reverse ≡ₚ aristas.
Proof.
  unfold Pesos.sorted. destruct reverse.
  - by rewrite reverse_Permutation, list_sort_perm, reverse_Permutation.
  - apply list_sort_perm.
Qed.

Lemma ordena_asim aristas :
  ordena (Pesos.peso <$> aristas) = true →
  ∀ a b, a ∈ aristas → b ∈ aristas →
    menor (Pesos.peso a) (Pesos.peso b) = true →
    menor (Pesos.peso b) (Pesos.peso a) = false.
Proof.
  intros [H _]%ordena_iff a b Ha Hb. apply H; by apply list_elem_of_fmap_2.
Qed.

Lemma ordena_trans aristas :
  ordena (Pesos.peso <$> aristas) = true →
  ∀ a b c, a ∈ aristas → b ∈ aristas → c ∈ aristas →
    menor (Pesos.peso b) (Pesos.peso a) = false →
    menor (Pesos.peso c) (Pesos.peso b) = false →
    menor (Pesos.peso c) (Pesos.peso a) = false.
Proof.
  intros [_ H]%ordena_iff a b c Ha Hb Hc. apply H; by apply list_elem_of_fmap_2.
Qed.

Lemma sorted_pesos_asc aristas :
  ordena (Pesos.peso <$> aristas) = true →
  StronglySorted (λ a b, menor (Pesos.peso b) (Pesos.peso a) = false)
    (Pesos.sorted aristas false).
Proof.
  intros Hord. unfold Pesos.sorted.
  apply (list_sort_sorted _ (λ e, e ∈ aristas)
           (ordena_asim aristas Hord) (ordena_trans aristas Hord)).
  by apply Forall_forall.
Qed.

Lemma sorted_pesos_desc aristas :
  ordena (Pesos.peso <$> aristas) = true →
  StronglySorted (λ a b, menor (Pesos.peso a) (Pesos.peso b) = false)
    (Pesos.sorted aristas true).
Proof.
  intros Hord. unfold Pesos.sorted.
  apply (StronglySorted_reverse (λ a b, menor (Pesos.peso b) (Pesos.peso a) = false)).
  apply (list_sort_sorted _ (λ e, e ∈ aristas)
           (ordena_asim aristas Hord) (ordena_trans aristas Hord)).
  apply Forall_forall. intros e. by rewrite elem_of_reverse.
Qed.

Lemma aristas_ordenadas_pesos_perm aristas (tipo : string) :
  Pesos.aristas_ordenadas aristas tipo ≡ₚ aristas.
Proof. unfold Pesos.aristas_ordenadas. case_decide; apply sorted_pesos_perm. Qed.

(** ** The run does not depend on the weights *)

Lemma nodos_de_olvida aristas : nodos_de (olvida <$> aristas) = Pesos.nodos_de aristas.
Proof.
  unfold nodos_de, Pesos.nodos_de. generalize (∅ : gset string).
  induction aristas as [| [[u v] w] l IH]; intros acc; [done |]. simpl. apply IH.
Qed.

Lemma elem_of_nodos_de_pesos aristas u v w :
  (u, v, w) ∈ aristas → u ∈ Pesos.nodos_de aristas ∧ v ∈ Pesos.nodos_de aristas.
Proof.
  intros Hin. rewrite <- nodos_de_olvida, !elem_of_nodos_de.
  split; exists u, v, 0%Z; (split; [| auto]);
    apply (list_elem_of_fmap_2 olvida _ _ Hin).
Qed.

Lemma paso_olvida orden V (stg : Pesos.estado W) (st st' : estado) e :
  Pesos.uf_de stg = uf_de st →
  paso orden V st (olvida e) = Ok st' →
  ∃ stg', Pesos.paso orden V stg e = Ok stg' ∧ Pesos.uf_de stg' = uf_de st' ∧
    Pesos.ev_arista <$> Pesos.traza stg' = (Pesos.ev_arista <$> Pesos.traza stg) ++ [e].
Proof.
  intros Huf. destruct e as [[u v] w]. unfold paso, Pesos.paso, olvida.
  cbn [fst snd]. rewrite Huf.
  destruct (find (uf_de st) u) as [[uf1 ru] |]; cbn; [| done].
  destruct (find uf1 v) as [[uf2 rv] |]; cbn; [| done].
  destruct (decide (ru ≠ rv)).
  - destruct (union uf2 u v) as [[uf3 b] |]; cbn; [| done].
    destruct (print_componentes orden uf3 V) as [uf4 |]; cbn; [| done].
    intros [= <-]. eexists. split; [done |]. split; [done |].
    cbn. by rewrite fmap_app.
  - destruct (print_componentes orden uf2 V) as [uf4 |]; cbn; [| done].
    intros [= <-]. eexists. split; [done |]. split; [done |].
    cbn. by rewrite fmap_app.
Qed.

Lemma bucle_olvida orden V (stg : Pesos.estado W) (st st' : estado) es :
  Pesos.uf_de stg = uf_de st →
  bucle orden V st (olvida <$> es) = Ok st' →
  ∃ stg', Pesos.bucle orden V stg es = Ok stg' ∧ Pesos.uf_de stg' = uf_de st' ∧
    Pesos.ev_arista <$> Pesos.traza stg' = (Pesos.ev_arista <$> Pesos.traza stg) ++ es.
Proof.
  revert stg st. induction es as [| e es IH]; intros stg st Huf Hb.
  - injection Hb as <-. exists stg. by rewrite app_nil_r.
  - cbn [fmap list_fmap bucle] in Hb.
    destruct (paso orden V st (olvida e)) as [st1 |] eqn:Hp; [| done].
    destruct (paso_olvida orden V stg st st1 e Huf Hp) as (stg1 & Hpg & Huf1 & Htr1).
    destruct (IH stg1 st1 Huf1 Hb) as (stg' & Hbg & Huf' & Htr').
    exists stg'. cbn [Pesos.bucle]. rewrite Hpg. cbn.
    split_and!; [done | done |]. by rewrite Htr', Htr1, <- app_assoc.
Qed.

(** [kruskal] runs to the end on every edge list, whatever the weights
    are, and tries the edges in the order [sorted] leaves them in. *)
Lemma kruskal_run_pesos (orden : gset string → list string) aristas (tipo : string) :
  orden_de orden (Pesos.nodos_de aristas) →
  ∃ st, Pesos.kruskal_run_con orden aristas tipo = Ok st ∧
        Pesos.ev_arista <$> Pesos.traza st = Pesos.aristas_ordenadas aristas tipo.
Proof.
  intros Horden. unfold Pesos.kruskal_run_con. cbn zeta.
  set (V := Pesos.nodos_de aristas) in *.
  destruct (print_componentes_spec V orden Horden _ (wf_init V)) as (uf0 & Hpc & _).
  rewrite Hpc. cbn.
  destruct (bucle_spec V orden Horden [] (MkEstado uf0 [] 0 [])
              (olvida <$> Pesos.aristas_ordenadas aristas tipo)) as (st' & Hb & _).
  { exact (inv_init V orden Horden _ Hpc). }
  { intros u v w ([[u' v'] w'] & [= -> -> ->] & Hin)%list_elem_of_fmap_1.
    rewrite aristas_ordenadas_pesos_perm in Hin.
    by apply (elem_of_nodos_de_pesos aristas u' v' w'). }
  destruct (bucle_olvida orden V (Pesos.MkEstado uf0 [] cero [])
              (MkEstado uf0 [] 0 []) st' _ eq_refl Hb)
    as (stg' & Hbg & _ & Htr).
  exists stg'. split; [done |]. by rewrite Htr.
Qed.
End SortedPesos.

(** C5, as the code has it.  Whatever the mode and whatever the edge list
    whose weights [<] orders (ints; floats none of which is nan),
    [kruskal] runs to the end and the edges it tries, in the order it
    tries them, are the input edges rearranged by weight: no edge is
    lighter than one tried before it for "min", none is heavier for any
    other mode ("max"). *)
Theorem kruskal_order {W} `{!Numero W} (aristas : list (Pesos.arista W))
    (tipo : string) :
  ordena (Pesos.peso <$> aristas) = true →
  ∃ st, Pesos.kruskal_run aristas tipo = Ok st ∧
    Pesos.ev_arista <$> Pesos.traza st ≡ₚ aristas ∧
    (tipo = "min" →
       StronglySorted (λ a b, menor (Pesos.peso b) (Pesos.peso a) = false)
         (Pesos.ev_arista <$> Pesos.traza st)) ∧
    (tipo ≠ "min" →
       StronglySorted (λ a b, menor (Pesos.peso a) (Pesos.peso b) = false)
         (Pesos.ev_arista <$> Pesos.traza st)).
Proof.
  intros Hord.
  destruct (kruskal_run_pesos elements aristas tipo (orden_de_elements _))
    as (st & Hrun & Htr).
  exists st. rewrite Htr.
  split_and!; [done | apply aristas_ordenadas_pesos_perm | |].
  - intros ->. unfold Pesos.aristas_ordenadas. rewrite decide_True by done.
    by apply sorted_pesos_asc.
  - intros Hne. unfold Pesos.aristas_ordenadas. rewrite decide_False by done.
    by apply sorted_pesos_desc.
Qed.

Lemma kruskal_order_witness :
  ∃ st, Pesos.kruskal_run grafo_fraccion "min" = Ok st ∧
    Pesos.ev_arista <$> Pesos.traza st ≡ₚ grafo_fraccion ∧
    ("min" = "min" →
       StronglySorted (λ a b, menor (Pesos.peso b) (Pesos.peso a) = false)
         (Pesos.ev_arista <$> Pesos.traza st)) ∧
    ("min" ≠ "min" →
       StronglySorted (λ a b, menor (Pesos.peso a) (Pesos.peso b) = false)
         (Pesos.ev_arista <$> Pesos.traza st)).
Proof.
  apply (kruskal_order grafo_fraccion "min"). vm_compute. reflexivity.
Defined.

(** C5, as stated, fails on the floats that [grafo_manual] lets in: with
    the weights 3, nan, 1, 2 the "min" run tries the edges in that very
    order, the edge of weight 1 after the edge of weight 3. *)
Lemma kruskal_order_nan :
  ∃ st, Pesos.kruskal_run grafo_nan "min" = Ok st ∧
    Pesos.ev_arista <$> Pesos.traza st = grafo_nan ∧
    ¬ StronglySorted (λ a b, menor (Pesos.peso b) (Pesos.peso a) = false)
        (Pesos.ev_arista <$> Pesos.traza st) ∧
    ¬ StronglySorted (λ a b, PrimFloat.leb (Pesos.peso a) (Pesos.peso b) = true)
        (Pesos.ev_arista <$> Pesos.traza st).
Proof.
  destruct (kruskal_run_pesos elements grafo_nan "min" (orden_de_elements _))
    as (st & Hrun & Htr).
  exists st. rewrite Htr.
  assert (Pesos.aristas_ordenadas grafo_nan "min" = grafo_nan) as ->
    by (vm_compute; reflexivity).
  unfold grafo_nan. split_and!; [done | done | |].
  - intros [_ H]%StronglySorted_inv.
    apply Forall_cons in H as [_ H]. apply Forall_cons in H as [H _].
    vm_compute in H. discriminate H.
  - intros [_ H]%StronglySorted_inv.
    apply Forall_cons in H as [_ H]. apply Forall_cons in H as [H _].
    vm_compute in H. discriminate H.
Qed.

(** * Integer weights

    On ints the run above is the run of [kruskal] as it is taken in the
    rest of the development: a sorted list that keeps equal keys in
    input order is determined by its input, so the two sorts agree. *)

Lemma sorted_unico (reverse : bool) (l1 l2 : list arista) :
  StronglySorted (antes reverse) l1 → StronglySorted (antes reverse) l2 →
  (∀ k, filter (λ a, peso a = k) l1 = filter (λ a, peso a = k) l2) →
  l1 = l2.
Proof.
  intros H1. revert l2. induction H1 as [| a l1 Hs1 IH Ha]; intros l2 H2 Hf.
  - destruct l2 as [| b l2]; [done |].
    specialize (Hf (peso b)). by rewrite filter_nil, filter_cons_True in Hf.
  - destruct l2 as [| b l2].
    { specialize (Hf (peso a)). by rewrite filter_nil, filter_cons_True in Hf. }
    apply StronglySorted_inv in H2 as [Hs2 Hb].
    rewrite Forall_forall in Ha, Hb.
    assert (peso a = peso b) as Hk.
    { assert (b ∈ a :: l1) as [-> | Hb1]%elem_of_cons; [| done |].
      { apply (list_elem_of_filter (λ e, peso e = peso b)). rewrite Hf.
        rewrite filter_cons_True by done. by left. }
      assert (a ∈ b :: l2) as [-> | Ha2]%elem_of_cons; [| done |].
      { apply (list_elem_of_filter (λ e, peso e = peso a)). rewrite <- Hf.
        rewrite filter_cons_True by done. by left. }
      pose proof (Ha b Hb1) as Hab. pose proof (Hb a Ha2) as Hba.
      unfold antes, key_le in Hab, Hba. destruct reverse; lia. }
    pose proof (Hf (peso a)) as Hfa.
    rewrite !filter_cons_True in Hfa by done. injection Hfa as -> Hfa.
    f_equal. apply IH; [done |]. intros k.
    destruct (decide (k = peso b)) as [-> | Hne]; [done |].
    specialize (Hf k). by rewrite !filter_cons_False in Hf by done.
Qed.

Lemma sorted_pesos_stable (k : Z) (l : list arista) (reverse : bool) :
  filter (λ a, peso a = k) (Pesos.sorted l reverse) = filter (λ a, peso a = k) l.
Proof.
  assert (∀ l' : list arista,
            filter (λ a, peso a = k)
              (Pesos.list_sort (λ a b, menor (Pesos.peso a) (Pesos.peso b)) l')
            = filter (λ a, peso a = k) l') as H.
  { intros l'.
    apply (list_sort_stable _ (λ _, True)); [| | | by apply Forall_forall].
    - intros a b _ _. simpl. lia.
    - intros a b c _ _ _. simpl. lia.
    - intros a b Ha Hb. simpl. unfold Pesos.peso, peso in *. lia. }
  unfold Pesos.sorted. destruct reverse; [| apply H].
  by rewrite filter_reverse, H, filter_reverse, reverse_involutive.
Qed.

Lemma sorted_pesos_enteros (l : list arista) (reverse : bool) :
  Pesos.sorted l reverse = sorted l reverse.
Proof.
  apply (sorted_unico reverse).
  - destruct reverse.
    + eapply StronglySorted_mono; [| apply sorted_pesos_desc, ordena_enteros].
      intros a b. unfold antes, key_le, Pesos.peso, peso. simpl. lia.
    + eapply StronglySorted_mono; [| apply sorted_pesos_asc, ordena_enteros].
      intros a b. unfold antes, key_le, Pesos.peso, peso. simpl. lia.
  - apply sorted_sorted.
  - intros k. by rewrite sorted_pesos_stable, sorted_stable.
Qed.

Lemma paso_pesos_enteros orden V (stg : Pesos.estado Z) (st : estado) (e : arista) :
  mismo_estado stg st →
  match Pesos.paso orden V stg e, paso orden V st e with
  | Ok stg', Ok st' => mismo_estado stg' st'
  | Raise e1, Raise e2 => e1 = e2
  | _, _ => False
  end.
Proof.
  intros (Huf & Harb & Hc). destruct e as [[u v] w]. unfold paso, Pesos.paso.
  rewrite Huf.
  destruct (find (uf_de st) u) as [[uf1 ru] |]; cbn; [| done].
  destruct (find uf1 v) as [[uf2 rv] |]; cbn; [| done].
  destruct (decide (ru ≠ rv)).
  - destruct (union uf2 u v) as [[uf3 b] |]; cbn; [| done].
    destruct (print_componentes orden uf3 V) as [uf4 |]; cbn; [| done].
    split_and!; cbn; [done | by rewrite Harb | by rewrite Hc].
  - destruct (print_componentes orden uf2 V) as [uf4 |]; cbn; [| done].
    by split_and!.
Qed.

Lemma bucle_pesos_enteros orden V (stg : Pesos.estado Z) (st : estado)
    (es : list arista) :
  mismo_estado stg st →
  match Pesos.bucle orden V stg es, bucle orden V st es with
  | Ok stg', Ok st' => mismo_estado stg' st'
  | Raise e1, Raise e2 => e1 = e2
  | _, _ => False
  end.
Proof.
  revert stg st. induction es as [| e es IH]; intros stg st Hst; [done |].
  cbn [Pesos.bucle bucle].
  pose proof (paso_pesos_enteros orden V stg st e Hst) as Hp.
  destruct (Pesos.paso orden V stg e) as [stg1 |], (paso orden V st e) as [st1 |];
    cbn; try done.
  by apply IH.
Qed.

(** On ints, [kruskal] on any weights is the [kruskal] of the rest of
    the development. *)
Lemma kruskal_pesos_enteros (aristas : list arista) (tipo : string) :
  Pesos.kruskal aristas tipo = kruskal aristas tipo.
Proof.
  unfold Pesos.kruskal, Pesos.kruskal_run, Pesos.kruskal_run_con,
    kruskal, kruskal_con, kruskal_run_con.
  cbn zeta. change (Pesos.nodos_de aristas) with (nodos_de aristas).
  destruct (print_componentes elements (UnionFind_init (nodos_de aristas))
              (nodos_de aristas)) as [uf0 |]; cbn; [| done].
  assert (Pesos.aristas_ordenadas aristas tipo = aristas_ordenadas aristas tipo) as ->.
  { unfold Pesos.aristas_ordenadas, aristas_ordenadas.
    case_decide; apply sorted_pesos_enteros. }
  pose proof (bucle_pesos_enteros elements (nodos_de aristas)
                (Pesos.MkEstado (W:=Z) uf0 [] cero []) (MkEstado uf0 [] 0 [])
                (aristas_ordenadas aristas tipo)) as Hb.
  destruct (Pesos.bucle _ _ _ _) as [stg |], (bucle _ _ _ _) as [st |]; cbn.
  - destruct Hb as (_ & -> & ->); [done |]. done.
  - by destruct Hb.
  - by destruct Hb.
  - by rewrite Hb.
Qed.

(** * Float weights

    [<] orders any floats none of which is nan. *)

Ltac casos_compare :=
  repeat match goal with
  | H : context [(?a ?= ?b)%Z] |- _ => destruct (Z.compare_spec a b); simpl in H
  | |- context [(?a ?= ?b)%Z] => destruct (Z.compare_spec a b); simpl
  | H : context [Pos.compare ?a ?b] |- _ => destruct (Pos.compare_spec a b); simpl in H
  | |- context [Pos.compare ?a ?b] => destruct (Pos.compare_spec a b); simpl
  end.

Lemma SFltb_asim (x y : spec_float) : SFltb x y = true → SFltb y x = false.
Proof.
  unfold SFltb, SFcompare.
  destruct x as [sx | sx | | sx mx ex], y as [sy | sy | | sy my ey];
    try destruct sx; try destruct sy; try done;
    change (PosDef.Pos.compare_cont Eq) with Pos.compare;
    intros H; casos_compare; try done; lia.
Qed.

Lemma SFltb_trans (x y z : spec_float) :
  x ≠ S754_nan → y ≠ S754_nan → z ≠ S754_nan →
  SFltb y x = false → SFltb z y = false → SFltb z x = false.
Proof.
  unfold SFltb, SFcompare.
  destruct x as [sx | sx | | sx mx ex], y as [sy | sy | | sy my ey],
    z as [sz | sz | | sz mz ez];
    try destruct sx; try destruct sy; try destruct sz; try done;
    change (PosDef.Pos.compare_cont Eq) with Pos.compare;
    intros _ _ _ H1 H2; casos_compare; try done; lia.
Qed.

Lemma is_nan_false (x : float) : PrimFloat.is_nan x = false → Prim2SF x ≠ S754_nan.
Proof.
  unfold PrimFloat.is_nan. rewrite FloatAxioms.eqb_spec. intros H E.
  rewrite E in H. done.
Qed.

Lemma ordena_floats (ws : list float) :
  Forall (λ w, PrimFloat.is_nan w = false) ws → ordena ws = true.
Proof.
  rewrite Forall_forall. intros Hnan. apply ordena_iff. split.
  - intros a b _ _. simpl. rewrite !ltb_spec. apply SFltb_asim.
  - intros a b c Ha Hb Hc. simpl. rewrite !ltb_spec.
    apply SFltb_trans; by apply is_nan_false, Hnan.
Qed.
